(** * The controldb metadata client and the service-creation scenarios

    A shallow embedding of the metadata RPC client ([package controldbcli]),
    the naming constants of [package common], and the scenarios driven by
    [manage/service/service_testutil.go].

    Layout: the embedded program comes first (one module per Go package),
    then the vocabulary of the statements, then the lemmas and theorems. *)

From Stdlib Require Import String Ascii ZArith List Lia Bool.
From Stdlib Require Import DecimalString DecimalZ.
From stdpp Require Import base list.

Import ListNotations.
Local Open Scope string_scope.
Local Open Scope list_scope.

(* ================================================================== *)
(** ** package common: constants (common/consts.go)                    *)
(* ================================================================== *)

Module common.

Definition OrgName : string := "cloudstax".
Definition SystemName : string := "firecamp".
Definition NameSeparator : string := "-".
Definition ServiceMemberDomainNameTTLSeconds : Z := 5.
Definition DomainSeparator : string := ".".
Definition ControlDBName : string := "controldb".
Definition ControlDBServiceName : string :=
  SystemName ++ NameSeparator ++ ControlDBName.
Definition ControlDBUUIDPrefix : string := ControlDBName ++ NameSeparator.

End common.

(* ================================================================== *)
(** ** The Go values the client handles                                *)
(* ================================================================== *)

(** [google.golang.org/grpc/codes]: the status codes, in the order of
    their numeric values 0..16. *)
Module codes.

Inductive Code : Type :=
| OK | Canceled | Unknown | InvalidArgument | DeadlineExceeded
| NotFound | AlreadyExists | PermissionDenied | ResourceExhausted
| FailedPrecondition | Aborted | OutOfRange | Unimplemented
| Internal | Unavailable | DataLoss | Unauthenticated.

Definition eqb (a b : Code) : bool :=
  match a, b with
  | OK, OK | Canceled, Canceled | Unknown, Unknown
  | InvalidArgument, InvalidArgument | DeadlineExceeded, DeadlineExceeded
  | NotFound, NotFound | AlreadyExists, AlreadyExists
  | PermissionDenied, PermissionDenied
  | ResourceExhausted, ResourceExhausted
  | FailedPrecondition, FailedPrecondition | Aborted, Aborted
  | OutOfRange, OutOfRange | Unimplemented, Unimplemented
  | Internal, Internal | Unavailable, Unavailable
  | DataLoss, DataLoss | Unauthenticated, Unauthenticated => true
  | _, _ => false
  end.

End codes.

(** The four application errors of package [db] ([db.ErrDBInternal], ...).
    The package is not among the files covered here; the client only
    names the four values and the four description strings. *)
Inductive DBError : Type :=
| ErrDBInternal
| ErrDBInvalidRequest
| ErrDBRecordNotFound
| ErrDBConditionalCheckFailed.

(** A non-nil Go [error] as the client can meet it: an error built by grpc
    (a status code and a description), one of the four [db] errors, or
    [io.EOF].  The nil error is [None] of [option error]. *)
Inductive error : Type :=
| RpcError (code : codes.Code) (desc : string)
| DbError (e : DBError)
| EOF.

(** The string constants of package [db] that the client refers to.  Their
    values are declared outside the files covered here, so they are taken as
    parameters. *)
Class DBStrings : Type := {
  StrErrDBInternal : string;
  StrErrDBInvalidRequest : string;
  StrErrDBRecordNotFound : string;
  StrErrDBConditionalCheckFailed : string;
  TableStatusActive : string;
  (* [e.Error()] of the four [db] errors *)
  DBErrorText : DBError -> string
}.

Module grpc.
Section WithStrings.
Context {K : DBStrings}.

(** [grpc.Code(err)] for a non-nil error: the code of an error built by
    grpc, [codes.Unknown] for any other error. *)
Definition Code (e : error) : codes.Code :=
  match e with
  | RpcError c _ => c
  | _ => codes.Unknown
  end.

(** [grpc.ErrorDesc(err)] for a non-nil error: the description of an
    error built by grpc, [err.Error()] for any other error. *)
Definition ErrorDesc (e : error) : string :=
  match e with
  | RpcError _ d => d
  | DbError x => DBErrorText x
  | EOF => "EOF"
  end.

End WithStrings.
End grpc.

(* ================================================================== *)
(** ** package controldbcli                                            *)
(* ================================================================== *)

Module controldbcli.

Definition maxRetryCount : nat := 3.
Definition sleepSecondsBeforeRetry : Z := 2.

(** *** The shared connection handle *)

(** A [*grpc.ClientConn]: connections are numbered by the dial that
    opened them. *)
Definition ConnId := nat.

(** A [*pbclient]: a pointer, modelled as an index into the heap of
    allocated [pbclient] objects. *)
Definition Handle := nat.

(** [type pbclient struct].  [conn] is [None] for the nil pointer;
    [dbcli] is [None] for the nil interface and [Some c] for the stub
    [pb.NewControlDBServiceClient] built over connection [c]. *)
Record pbclient : Type := mkPbclient {
  isConnGood : bool;
  conn : option ConnId;
  dbcli : option ConnId
}.

(** What one request records of its own calls: the stub was invoked
    through handle [h]; [markClientFailed h] returned [changed];
    [time.Sleep] was called for [secs] seconds. *)
Inductive Event : Type :=
| EvRpc (h : Handle)
| EvMarkFailed (h : Handle) (changed : bool)
| EvSleep (secs : Z).

(** The state one request of the client runs in: the [ControlDBCli]
    object ([addr], [cli]; [cliLock] is implicit, the functions that
    hold it are atomic steps), the heap of [pbclient] objects [cli] and
    the local variables of the requests point into, and what the
    process has done so far. *)
Record World : Type := mkWorld {
  addr : string;
  cli : Handle;
  heap : list pbclient;
  dials : nat;            (* grpc.Dial calls made so far *)
  closed : list ConnId;   (* connections Close was called on, latest first *)
  calls : nat;            (* stub invocations made so far *)
  ticks : nat;            (* scheduling points passed so far *)
  trace : list Event      (* this request's own calls, oldest first *)
}.

Definition set_cli (h : Handle) (w : World) : World :=
  mkWorld (addr w) h (heap w) (dials w) (closed w) (calls w) (ticks w) (trace w).
Definition set_heap (hp : list pbclient) (w : World) : World :=
  mkWorld (addr w) (cli w) hp (dials w) (closed w) (calls w) (ticks w) (trace w).
Definition set_dials (n : nat) (w : World) : World :=
  mkWorld (addr w) (cli w) (heap w) n (closed w) (calls w) (ticks w) (trace w).
Definition set_closed (cs : list ConnId) (w : World) : World :=
  mkWorld (addr w) (cli w) (heap w) (dials w) cs (calls w) (ticks w) (trace w).
Definition set_calls (n : nat) (w : World) : World :=
  mkWorld (addr w) (cli w) (heap w) (dials w) (closed w) n (ticks w) (trace w).
Definition set_ticks (n : nat) (w : World) : World :=
  mkWorld (addr w) (cli w) (heap w) (dials w) (closed w) (calls w) n (trace w).
Definition set_trace (tr : list Event) (w : World) : World :=
  mkWorld (addr w) (cli w) (heap w) (dials w) (closed w) (calls w) (ticks w) tr.

(** *** Computations: state passing with panics *)

Inductive Outcome (A : Type) : Type :=
| Returned (a : A)
| Panicked.
Arguments Returned {A} a.
Arguments Panicked {A}.

Definition M (A : Type) : Type := World -> Outcome A * World.

Definition ret {A} (a : A) : M A := fun w => (Returned a, w).
Definition bind {A B} (m : M A) (k : A -> M B) : M B :=
  fun w => match m w with
           | (Returned a, w') => k a w'
           | (Panicked, w') => (Panicked, w')
           end.
Definition panic {A} : M A := fun w => (Panicked, w).
Definition get : M World := fun w => (Returned w, w).
Definition modify (f : World -> World) : M unit := fun w => (Returned tt, f w).

Declare Scope go_scope.
Delimit Scope go_scope with go.
Notation "x <- m ;; k" := (bind m (fun x => k))
  (at level 100, m at next level, right associativity) : go_scope.
Notation "m ;;; k" := (bind m (fun _ => k))
  (at level 100, right associativity) : go_scope.
Local Open Scope go_scope.

(** [*h]: dereferencing a pointer that is not allocated panics. *)
Definition load (h : Handle) : M pbclient :=
  w <- get ;;
  match heap w !! h with
  | Some p => ret p
  | None => panic
  end.

Definition emit (e : Event) : M unit :=
  modify (fun w => set_trace (trace w ++ [e]) w).

(** [time.Sleep(secs * time.Second)] *)
Definition sleep (secs : Z) : M unit := emit (EvSleep secs).

(** What the other requests of the process may do to the shared client
    while this one waits: they run the same two critical sections. *)
Inductive Other : Type :=
| OtherConnect
| OtherMarkFailed (h : Handle).

(** The surroundings of one request: whether the [n]-th [grpc.Dial]
    succeeds, and what the other requests do at the [n]-th scheduling
    point. *)
Record Env : Type := mkEnv {
  dialOk : nat -> bool;
  others : nat -> list Other
}.

(** *** The wire protocol and the server

    The message types of [pb] and the converters of package [controldb]
    are generated or declared outside the files covered here: the record
    types and the converters the client uses are parameters; the key and
    request structs are as the client builds them. *)
Class Protocol : Type := {
  Device : Type;  Service : Type;  ServiceAttr : Type;
  Volume : Type;  ConfigFile : Type;
  pbDevice : Type;  pbService : Type;  pbServiceAttr : Type;
  pbVolume : Type;  pbConfigFile : Type;
  pbEmpty : Type;   (* the replies the client drops or only logs *)
  GenPbDevice : Device -> pbDevice;
  GenDbDevice : pbDevice -> Device;
  GenPbService : Service -> pbService;
  GenDbService : pbService -> Service;
  GenPbServiceAttr : ServiceAttr -> pbServiceAttr;
  GenDbServiceAttr : pbServiceAttr -> ServiceAttr;
  GenPbVolume : Volume -> pbVolume;
  GenDbVolume : pbVolume -> Volume;
  GenPbConfigFile : ConfigFile -> pbConfigFile;
  GenDbConfigFile : pbConfigFile -> ConfigFile
}.

Record DeviceKey := { dk_ClusterName : string; dk_DeviceName : string }.
Record ServiceKey := { sk_ClusterName : string; sk_ServiceName : string }.
Record ServiceAttrKey := { ak_ServiceUUID : string }.
Record VolumeKey := { vk_ServiceUUID : string; vk_VolumeID : string }.
Record ConfigFileKey := { ck_ServiceUUID : string; ck_FileID : string }.
Record ListDeviceRequest := { ldr_ClusterName : string }.
Record ListServiceRequest := { lsr_ClusterName : string }.
Record ListVolumeRequest := { lvr_ServiceUUID : string }.
Record UpdateServiceAttrRequest {P : Protocol} :=
  { OldAttr : pbServiceAttr; NewAttr : pbServiceAttr }.
Record UpdateVolumeRequest {P : Protocol} :=
  { OldVol : pbVolume; NewVol : pbVolume }.

(** A server stream as the client sees it: [Recv] hands out [items] one
    by one and then answers [final] ([io.EOF] at a regular end). *)
Record ServerStream (A : Type) : Type := mkStream {
  items : list A;
  final : error
}.
Arguments mkStream {A} items final.
Arguments items {A} s.
Arguments final {A} s.

(** [pb.ControlDBServiceClient] over the network: what the [n]-th stub
    invocation of the process answers to a request.  Nothing is assumed
    of the server or of the transport. *)
Record Server {P : Protocol} : Type := mkServer {
  rpcCreateDevice : nat -> pbDevice -> pbEmpty + error;
  rpcGetDevice : nat -> DeviceKey -> pbDevice + error;
  rpcDeleteDevice : nat -> DeviceKey -> pbEmpty + error;
  rpcListDevices : nat -> ListDeviceRequest -> ServerStream pbDevice + error;
  rpcCreateService : nat -> pbService -> pbEmpty + error;
  rpcGetService : nat -> ServiceKey -> pbService + error;
  rpcDeleteService : nat -> ServiceKey -> pbEmpty + error;
  rpcListServices : nat -> ListServiceRequest -> ServerStream pbService + error;
  rpcCreateServiceAttr : nat -> pbServiceAttr -> pbEmpty + error;
  rpcUpdateServiceAttr : nat -> UpdateServiceAttrRequest -> pbEmpty + error;
  rpcGetServiceAttr : nat -> ServiceAttrKey -> pbServiceAttr + error;
  rpcDeleteServiceAttr : nat -> ServiceAttrKey -> pbEmpty + error;
  rpcCreateVolume : nat -> pbVolume -> pbEmpty + error;
  rpcUpdateVolume : nat -> UpdateVolumeRequest -> pbEmpty + error;
  rpcGetVolume : nat -> VolumeKey -> pbVolume + error;
  rpcDeleteVolume : nat -> VolumeKey -> pbEmpty + error;
  rpcListVolumes : nat -> ListVolumeRequest -> ServerStream pbVolume + error;
  rpcCreateConfigFile : nat -> pbConfigFile -> pbEmpty + error;
  rpcGetConfigFile : nat -> ConfigFileKey -> pbConfigFile + error;
  rpcDeleteConfigFile : nat -> ConfigFileKey -> pbEmpty + error
}.

Section Client.
Context {K : DBStrings} {P : Protocol}.
Variable E : Env.
Variable Srv : Server.

(** [func (c *ControlDBCli) connect() *pbclient], the body under
    [cliLock]. *)
Definition connect : M Handle :=
  w <- get ;;
  p <- load (cli w) ;;
  if isConnGood p then ret (cli w)
  else
    let n := dials w in
    modify (set_dials (S n)) ;;;
    if dialOk E n then
      let h := length (heap w) in
      modify (set_heap (heap w ++ [mkPbclient true (Some n) (Some n)])) ;;;
      modify (set_cli h) ;;;
      ret h
    else ret (cli w).

(** [conn.Close()]: a nil [*grpc.ClientConn] panics. *)
Definition Close (c : option ConnId) : M unit :=
  match c with
  | Some n => modify (fun w => set_closed (n :: closed w) w)
  | None => panic
  end.

(** [func (c *ControlDBCli) markClientFailed(cli *pbclient) bool], the
    body under [cliLock]. *)
Definition markClientFailed (h : Handle) : M bool :=
  w <- get ;;
  p <- load (cli w) ;;
  if negb (isConnGood p) then ret false
  else if negb (Nat.eqb (cli w) h) then ret true
  else
    modify (set_heap (<[cli w := mkPbclient false (conn p) (dbcli p)]> (heap w))) ;;;
    Close (conn p) ;;;
    ret false.

Definition runOther (o : Other) : M unit :=
  match o with
  | OtherConnect => connect ;;; ret tt
  | OtherMarkFailed h => markClientFailed h ;;; ret tt
  end.

Fixpoint runOthers (os : list Other) : M unit :=
  match os with
  | [] => ret tt
  | o :: os' => runOther o ;;; runOthers os'
  end.

(** A scheduling point: the other requests take their turns. *)
Definition yield : M unit :=
  w <- get ;;
  modify (set_ticks (S (ticks w))) ;;;
  runOthers (others E (ticks w)).

(** [func (c *ControlDBCli) getCli() *pbclient]: the flag is read
    without the lock; [connect] then waits for it. *)
Definition getCli : M Handle :=
  yield ;;;
  w <- get ;;
  p <- load (cli w) ;;
  if isConnGood p then ret (cli w)
  else yield ;;; connect.

(** [func (c *ControlDBCli) markClientFailedAndSleep(cli *pbclient)] *)
Definition markClientFailedAndSleep (h : Handle) : M unit :=
  yield ;;;
  isClientChanged <- markClientFailed h ;;
  emit (EvMarkFailed h isClientChanged) ;;;
  if negb isClientChanged then sleep sleepSecondsBeforeRetry
  else ret tt.

(** [func NewControlDBCli(address string) *ControlDBCli] *)
Definition NewControlDBCli (address : string) : Outcome Handle * World :=
  connect (mkWorld address 0 [mkPbclient false None None] 0 [] 0 0 []).

(** [func (c *ControlDBCli) checkAndConvertError(err error) error] *)
Definition checkAndConvertError (err : error) : error :=
  let d := grpc.ErrorDesc err in
  if String.eqb d StrErrDBInternal then DbError ErrDBInternal
  else if String.eqb d StrErrDBInvalidRequest then DbError ErrDBInvalidRequest
  else if String.eqb d StrErrDBRecordNotFound then DbError ErrDBRecordNotFound
  else if String.eqb d StrErrDBConditionalCheckFailed
       then DbError ErrDBConditionalCheckFailed
  else err.

(** [CreateSystemTables], [SystemTablesReady], [DeleteSystemTables] *)
Definition CreateSystemTables : M (option error) := ret None.
Definition SystemTablesReady : M (string * bool * option error) :=
  ret (TableStatusActive, true, None).
Definition DeleteSystemTables : M (option error) := ret None.

(** *** The retry envelope

    Every RPC method of the client is the same loop around one attempt.
    The methods differ in the attempt, in the value they return, and in
    the variable the error of a failed attempt lands in. *)

(** [cli.dbcli.Method(ctx, req)]: calling a method of the nil interface
    panics; otherwise the server answers. *)
Definition invoke {Rep : Type} (h : Handle) (rpc : nat -> Rep + error)
  : M (Rep + error) :=
  emit (EvRpc h) ;;;
  p <- load h ;;
  match dbcli p with
  | None => panic
  | Some _ =>
      w <- get ;;
      modify (set_calls (S (calls w))) ;;;
      ret (rpc (calls w))
  end.

(** Where the error of a failed attempt is stored: in the function-level
    [err] ([_, err = cli.dbcli...]) or in a new [err] that the loop body
    declares ([x, err := cli.dbcli...]) and that hides the function-level
    one, which then stays nil. *)
Inductive ErrVar : Type := Outer | Shadowing.

Section Envelope.
Context {Res : Type}.
Variable attempt : Handle -> M (Res + error).
Variable zero : Res.              (* what is returned next to an error *)
Variable v : ErrVar.

  (** [for i := 0; i < n; i++ { ... }; return zero, err] with [err] the
      function-level variable. *)
Fixpoint retry (n : nat) (err : option error) : M (Res * option error) :=
    match n with
    | O => ret (zero, err)
    | S n' =>
        cli <- getCli ;;
        r <- attempt cli ;;
        match r with
        | inl res => ret (res, None)
        | inr e =>
            if codes.eqb (grpc.Code e) codes.Unknown then
              (* not grpc layer error code, directly return *)
              ret (zero, Some (checkAndConvertError e))
            else
              (* grpc error, retry it *)
              markClientFailedAndSleep cli ;;;
              retry n' (match v with Outer => Some e | Shadowing => err end)
        end
    end.

Definition envelope : M (Res * option error) := retry maxRetryCount None.
End Envelope.

(** One attempt: the stub is invoked and its answer turned into the
    attempt's result. *)
Definition rpcAttempt {Rep Res : Type} (rpc : nat -> Rep + error)
  (post : Rep + error -> Res + error) (h : Handle) : M (Res + error) :=
  r <- invoke h rpc ;;
  ret (post r).

(** One attempt of a unary method. *)
Definition unary {Rep Res : Type} (rpc : nat -> Rep + error) (conv : Rep -> Res)
  : Handle -> M (Res + error) :=
  rpcAttempt rpc (fun r => match r with inl x => inl (conv x) | inr e => inr e end).

(** The methods that return only an error. *)
Definition errOnly {Rep : Type} (v : ErrVar) (rpc : nat -> Rep + error)
  : M (option error) :=
  r <- envelope (unary rpc (fun _ => tt)) tt v ;;
  ret (snd r).

(** The methods that return [(value, error)]; the value is a pointer,
    nil next to an error. *)
Definition withValue {Rep Val : Type} (v : ErrVar) (rpc : nat -> Rep + error)
  (conv : Rep -> Val) : M (option Val * option error) :=
  envelope (unary rpc (fun x => Some (conv x))) None v.

(** The loop of [listDevices], [listServices], [listVolumes] over
    [stream.Recv()]. *)
Fixpoint recvAll {A B : Type} (conv : A -> B) (pending : list A) (final : error)
  (got : list B) : list B + error :=
  match pending with
  | [] =>
      match final with
      | EOF => inl got                 (* err == io.EOF: break; return devs, nil *)
      | e => inr e                     (* return nil, err *)
      end
  | x :: rest => recvAll conv rest final (got ++ [conv x])
  end.

(** One attempt of a list method: [listDevices] and its two siblings. *)
Definition drain {A B : Type} (conv : A -> B) (r : ServerStream A + error)
  : list B + error :=
  match r with
  | inr e => inr e                                  (* return nil, err *)
  | inl stream => recvAll conv (items stream) (final stream) []
  end.

Definition listOnce {A B : Type} (rpc : nat -> ServerStream A + error)
  (conv : A -> B) : Handle -> M (list B + error) :=
  rpcAttempt rpc (drain conv).

(** *** The twenty RPC methods *)

Definition CreateDevice (dev : Device) : M (option error) :=
  let pbdev := GenPbDevice dev in
  errOnly Outer (fun n => rpcCreateDevice Srv n pbdev).

Definition GetDevice (clusterName deviceName : string)
  : M (option Device * option error) :=
  let key := Build_DeviceKey clusterName deviceName in
  withValue Shadowing (fun n => rpcGetDevice Srv n key) GenDbDevice.

Definition DeleteDevice (clusterName deviceName : string) : M (option error) :=
  let key := Build_DeviceKey clusterName deviceName in
  errOnly Outer (fun n => rpcDeleteDevice Srv n key).

Definition listDevices (req : ListDeviceRequest) (h : Handle)
  : M (list Device + error) :=
  listOnce (fun n => rpcListDevices Srv n req) GenDbDevice h.

Definition ListDevices (clusterName : string) : M (list Device * option error) :=
  let req := Build_ListDeviceRequest clusterName in
  envelope (listDevices req) [] Outer.

Definition CreateService (svc : Service) : M (option error) :=
  let pbsvc := GenPbService svc in
  errOnly Outer (fun n => rpcCreateService Srv n pbsvc).

Definition GetService (clusterName serviceName : string)
  : M (option Service * option error) :=
  let key := Build_ServiceKey clusterName serviceName in
  withValue Shadowing (fun n => rpcGetService Srv n key) GenDbService.

Definition DeleteService (clusterName serviceName : string) : M (option error) :=
  let key := Build_ServiceKey clusterName serviceName in
  errOnly Shadowing (fun n => rpcDeleteService Srv n key).

Definition listServices (req : ListServiceRequest) (h : Handle)
  : M (list Service + error) :=
  listOnce (fun n => rpcListServices Srv n req) GenDbService h.

Definition ListServices (clusterName : string) : M (list Service * option error) :=
  let req := Build_ListServiceRequest clusterName in
  envelope (listServices req) [] Outer.

Definition CreateServiceAttr (attr : ServiceAttr) : M (option error) :=
  let pbattr := GenPbServiceAttr attr in
  errOnly Outer (fun n => rpcCreateServiceAttr Srv n pbattr).

Definition UpdateServiceAttr (oldAttr newAttr : ServiceAttr) : M (option error) :=
  let req := Build_UpdateServiceAttrRequest _
               (GenPbServiceAttr oldAttr) (GenPbServiceAttr newAttr) in
  errOnly Outer (fun n => rpcUpdateServiceAttr Srv n req).

Definition GetServiceAttr (serviceUUID : string)
  : M (option ServiceAttr * option error) :=
  let key := Build_ServiceAttrKey serviceUUID in
  withValue Shadowing (fun n => rpcGetServiceAttr Srv n key) GenDbServiceAttr.

Definition DeleteServiceAttr (serviceUUID : string) : M (option error) :=
  let key := Build_ServiceAttrKey serviceUUID in
  errOnly Shadowing (fun n => rpcDeleteServiceAttr Srv n key).

Definition CreateVolume (vol : Volume) : M (option error) :=
  let pbvol := GenPbVolume vol in
  errOnly Outer (fun n => rpcCreateVolume Srv n pbvol).

Definition UpdateVolume (oldVol newVol : Volume) : M (option error) :=
  let req := Build_UpdateVolumeRequest _ (GenPbVolume oldVol) (GenPbVolume newVol) in
  errOnly Outer (fun n => rpcUpdateVolume Srv n req).

Definition GetVolume (serviceUUID volumeID : string)
  : M (option Volume * option error) :=
  let key := Build_VolumeKey serviceUUID volumeID in
  withValue Shadowing (fun n => rpcGetVolume Srv n key) GenDbVolume.

Definition DeleteVolume (serviceUUID volumeID : string) : M (option error) :=
  let key := Build_VolumeKey serviceUUID volumeID in
  errOnly Shadowing (fun n => rpcDeleteVolume Srv n key).

Definition listVolumes (req : ListVolumeRequest) (h : Handle)
  : M (list Volume + error) :=
  listOnce (fun n => rpcListVolumes Srv n req) GenDbVolume h.

Definition ListVolumes (serviceUUID : string) : M (list Volume * option error) :=
  let req := Build_ListVolumeRequest serviceUUID in
  envelope (listVolumes req) [] Outer.

Definition CreateConfigFile (cfg : ConfigFile) : M (option error) :=
  let pbcfg := GenPbConfigFile cfg in
  errOnly Outer (fun n => rpcCreateConfigFile Srv n pbcfg).

Definition GetConfigFile (serviceUUID fileID : string)
  : M (option ConfigFile * option error) :=
  let key := Build_ConfigFileKey serviceUUID fileID in
  withValue Shadowing (fun n => rpcGetConfigFile Srv n key) GenDbConfigFile.

Definition DeleteConfigFile (serviceUUID fileID : string) : M (option error) :=
  let key := Build_ConfigFileKey serviceUUID fileID in
  errOnly Shadowing (fun n => rpcDeleteConfigFile Srv n key).

End Client.
End controldbcli.

(* ================================================================== *)
(** ** package utils: member names                                     *)
(* ================================================================== *)

Module utils.

(** [strconv.FormatInt(i, 10)] *)
Definition itoa (i : Z) : string := NilZero.string_of_int (Z.to_int i).

Definition int64Max : Z := 9223372036854775807.
Definition int64Min : Z := -9223372036854775808.

(** A non-empty run of decimal digits, read as a number. *)
Definition parseDigits (s : string) : option Z :=
  match NilZero.uint_of_string s with
  | Some d => Some (Z.of_uint d)
  | None => None
  end.

(** [strconv.ParseInt(s, 10, 64)]: an optional sign, then digits; [None]
    for a syntax error or a value outside int64. *)
Definition parseInt (s : string) : option Z :=
  match s with
  | EmptyString => None
  | String c rest =>
      let signed :=
        if Ascii.eqb c "-" then option_map Z.opp (parseDigits rest)
        else if Ascii.eqb c "+" then parseDigits rest
        else parseDigits s in
      match signed with
      | Some z => if (int64Min <=? z)%Z && (z <=? int64Max)%Z then Some z else None
      | None => None
      end
  end.

(** The text after the last occurrence of [sep] in [s]
    ([s[strings.LastIndex(s, sep)+len(sep):]]), [None] when [sep] does not
    occur. *)
Fixpoint afterLast (sep s : string) : option string :=
  match s with
  | EmptyString => None
  | String c rest =>
      match afterLast sep rest with
      | Some t => Some t
      | None =>
          if String.prefix sep s
          then Some (String.substring (String.length sep)
                       (String.length s - String.length sep) s)
          else None
      end
  end.

(** Modelled from the spec: [utils.GenServiceMemberName]; package utils is
    called by the files covered here but is not among them.  "Member name:
    <serviceName>-<ordinal> (ordinal as decimal, no padding)", with the
    separator [common.NameSeparator]. *)
Definition GenServiceMemberName (serviceName : string) (index : Z) : string :=
  serviceName ++ common.NameSeparator ++ itoa index.

(** Modelled from the spec: [utils.GetServiceMemberIndex], of the same
    missing package.  "GenServiceMemberName(service, i) parses back via
    GetServiceMemberIndex to i": the ordinal is read from the text after
    the last separator; [None] stands for the error result. *)
Definition GetServiceMemberIndex (memberName : string) : option Z :=
  match afterLast common.NameSeparator memberName with
  | Some digits => parseInt digits
  | None => None
  end.

End utils.

(* ================================================================== *)
(** ** package manageservice: the service-creation workflow            *)
(* ================================================================== *)

Module manageservice.

(** Of this package only [service_testutil.go] is among the files
    covered here.  The workflow it drives, the allocators, the metadata store and
    the adapters are modelled from the spec (sections 3, 4.2 to 4.4, 6, 7);
    the requests, the calls and the expectations are those of the test
    util. *)

(** *** Records of the metadata store (spec section 3) and requests as
    [service_testutil.go] builds them *)

Record ServiceVolume : Type := mkServiceVolume {
  VolumeType : string;
  VolumeSizeGB : Z;
  Iops : Z
}.

Record ServiceVolumes : Type := mkServiceVolumes {
  sv_PrimaryDeviceName : string;
  sv_PrimaryVolume : ServiceVolume;
  sv_JournalDeviceName : string;          (* empty: no journal *)
  sv_JournalVolume : option ServiceVolume
}.

Record MemberVolumes : Type := mkMemberVolumes {
  mv_PrimaryVolumeID : string;
  mv_PrimaryDeviceName : string;
  mv_JournalVolumeID : string;
  mv_JournalDeviceName : string
}.

Record Device : Type := mkDevice {
  dev_ClusterName : string;
  dev_DeviceName : string;
  dev_ServiceName : string
}.

Record Service : Type := mkService {
  svc_ClusterName : string;
  svc_ServiceName : string;
  svc_ServiceUUID : string
}.

Inductive Status : Type := CREATING | ACTIVE | DELETING | DELETED.

Record ServiceAttr : Type := mkServiceAttr {
  attr_ServiceUUID : string;
  attr_Status : Status;
  attr_Replicas : Z;
  attr_ClusterName : string;
  attr_ServiceName : string;
  attr_Volumes : ServiceVolumes;
  attr_RegisterDNS : bool;
  attr_DomainName : string;
  attr_HostedZoneID : string;
  attr_RequireStaticIP : bool
}.

Record ServiceMember : Type := mkServiceMember {
  mem_ServiceUUID : string;
  mem_MemberName : string;
  mem_AvailableZone : string;
  mem_StaticIP : string;
  mem_Volumes : MemberVolumes;
  mem_Configs : list string               (* file ids, in order *)
}.

Record ConfigFile : Type := mkConfigFile {
  cfg_ServiceUUID : string;
  cfg_FileID : string;
  cfg_FileName : string;
  cfg_Content : string
}.

Record ServiceStaticIP : Type := mkServiceStaticIP {
  sip_StaticIP : string;
  sip_ServiceUUID : string;
  sip_MemberName : string;                (* empty: not assigned yet *)
  sip_Zone : string
}.

Record ReplicaConfigFile : Type := mkReplicaConfigFile {
  FileName : string;
  Content : string
}.

Record ReplicaConfig : Type := mkReplicaConfig {
  Zone : string;
  Configs : list ReplicaConfigFile
}.

Record ServiceCommonRequest : Type := mkServiceCommonRequest {
  Region : string;
  Cluster : string;
  ServiceName : string
}.

Record CreateServiceRequest : Type := mkCreateServiceRequest {
  Service_ : ServiceCommonRequest;        (* the field [Service] *)
  Replicas : Z;
  Volume : ServiceVolume;
  JournalVolume : option ServiceVolume;
  RegisterDNS : bool;
  RequireStaticIP : bool;
  ReplicaConfigs : list ReplicaConfig
}.

(** *** The collaborators

    The metadata store and the volume and DNS adapters, as one state.
    Rows are kept in insertion order. *)
Record Cloud : Type := mkCloud {
  devices : list Device;
  services : list Service;
  attrs : list ServiceAttr;
  members : list ServiceMember;
  configs : list ConfigFile;
  staticIPs : list ServiceStaticIP;
  volumes : list (string * string * string * string);  (* uuid, member, role, id *)
  zones : list (string * string * string * string);    (* domain, vpc, region, id *)
  records : list (string * string * string);           (* zone, name, target *)
  uuids : nat                                          (* UUIDs handed out *)
}.

Definition emptyCloud : Cloud := mkCloud [] [] [] [] [] [] [] [] [] 0.

Definition set_devices (x : list Device) (c : Cloud) : Cloud :=
  mkCloud x (services c) (attrs c) (members c) (configs c) (staticIPs c)
          (volumes c) (zones c) (records c) (uuids c).
Definition set_services (x : list Service) (c : Cloud) : Cloud :=
  mkCloud (devices c) x (attrs c) (members c) (configs c) (staticIPs c)
          (volumes c) (zones c) (records c) (uuids c).
Definition set_attrs (x : list ServiceAttr) (c : Cloud) : Cloud :=
  mkCloud (devices c) (services c) x (members c) (configs c) (staticIPs c)
          (volumes c) (zones c) (records c) (uuids c).
Definition set_members (x : list ServiceMember) (c : Cloud) : Cloud :=
  mkCloud (devices c) (services c) (attrs c) x (configs c) (staticIPs c)
          (volumes c) (zones c) (records c) (uuids c).
Definition set_configs (x : list ConfigFile) (c : Cloud) : Cloud :=
  mkCloud (devices c) (services c) (attrs c) (members c) x (staticIPs c)
          (volumes c) (zones c) (records c) (uuids c).
Definition set_staticIPs (x : list ServiceStaticIP) (c : Cloud) : Cloud :=
  mkCloud (devices c) (services c) (attrs c) (members c) (configs c) x
          (volumes c) (zones c) (records c) (uuids c).
Definition set_volumes (x : list (string * string * string * string)) (c : Cloud) : Cloud :=
  mkCloud (devices c) (services c) (attrs c) (members c) (configs c) (staticIPs c)
          x (zones c) (records c) (uuids c).
Definition set_zones (x : list (string * string * string * string)) (c : Cloud) : Cloud :=
  mkCloud (devices c) (services c) (attrs c) (members c) (configs c) (staticIPs c)
          (volumes c) x (records c) (uuids c).
Definition set_records (x : list (string * string * string)) (c : Cloud) : Cloud :=
  mkCloud (devices c) (services c) (attrs c) (members c) (configs c) (staticIPs c)
          (volumes c) (zones c) x (uuids c).
Definition set_uuids (x : nat) (c : Cloud) : Cloud :=
  mkCloud (devices c) (services c) (attrs c) (members c) (configs c) (staticIPs c)
          (volumes c) (zones c) (records c) x.

(** What the deployment fixes: the host adapter's CIDR block
    ([GetCidrBlock]: prefix, first and last host number), the device-name
    sequence, the content hash of config files, the IP of a member without
    a static IP, and the generator of fresh UUIDs. *)
Record Platform : Type := mkPlatform {
  cidrPrefix : string;
  cidrFirst : Z;
  cidrLast : Z;
  devicePrefix : string;
  hash : string -> string;
  DefaultHostIP : string;
  genUUID : nat -> string
}.

(** Operations on the collaborators: a result or one of the four error
    kinds, and the state left behind either way. *)
Definition Op (A : Type) : Type := Cloud -> (A + DBError) * Cloud.

Definition ok {A} (a : A) : Op A := fun c => (inl a, c).
Definition fail {A} (e : DBError) : Op A := fun c => (inr e, c).
Definition andThen {A B} (m : Op A) (k : A -> Op B) : Op B :=
  fun c => match m c with
           | (inl a, c') => k a c'
           | (inr e, c') => (inr e, c')
           end.
Definition read : Op Cloud := fun c => (inl c, c).
Definition update (f : Cloud -> Cloud) : Op unit := fun c => (inl tt, f c).

Declare Scope op_scope.
Delimit Scope op_scope with op.
Notation "x <- m ;; k" := (andThen m (fun x => k))
  (at level 100, m at next level, right associativity) : op_scope.
Notation "m ;;; k" := (andThen m (fun _ => k))
  (at level 100, right associativity) : op_scope.
Local Open Scope op_scope.

(** *** The metadata store: reads and conditional inserts *)

(** Modelled from the spec: the operations of the metadata store
    ([db.DB]: [GetService], [CreateService], [GetServiceAttr],
    [CreateServiceAttr], [ListServiceMembers], [ListDevices]), declared
    outside the files covered here.  A read of a missing row answers
    NotFound; an insert is conditional on absence (section 3, section 7). *)

Definition GetService (cluster name : string) : Op Service :=
  c <- read ;;
  match List.find (fun s => String.eqb (svc_ClusterName s) cluster &&
                            String.eqb (svc_ServiceName s) name) (services c) with
  | Some s => ok s
  | None => fail ErrDBRecordNotFound
  end.

(* [dbIns.CreateService]; the name [CreateService] is kept for the workflow *)
Definition CreateService_row (s : Service) : Op unit :=
  c <- read ;;
  match List.find (fun s' => String.eqb (svc_ClusterName s') (svc_ClusterName s) &&
                             String.eqb (svc_ServiceName s') (svc_ServiceName s))
                  (services c) with
  | Some _ => fail ErrDBConditionalCheckFailed
  | None => update (set_services (services c ++ [s]))
  end.

Definition GetServiceAttr (uuid : string) : Op ServiceAttr :=
  c <- read ;;
  match List.find (fun a => String.eqb (attr_ServiceUUID a) uuid) (attrs c) with
  | Some a => ok a
  | None => fail ErrDBRecordNotFound
  end.

Definition CreateServiceAttr (a : ServiceAttr) : Op unit :=
  c <- read ;;
  match List.find (fun a' => String.eqb (attr_ServiceUUID a') (attr_ServiceUUID a))
                  (attrs c) with
  | Some _ => fail ErrDBConditionalCheckFailed
  | None => update (set_attrs (attrs c ++ [a]))
  end.

Definition ListServiceMembers (uuid : string) : Op (list ServiceMember) :=
  c <- read ;;
  ok (List.filter (fun m => String.eqb (mem_ServiceUUID m) uuid) (members c)).

Definition ListDevices (cluster : string) : Op (list Device) :=
  c <- read ;;
  ok (List.filter (fun d => String.eqb (dev_ClusterName d) cluster) (devices c)).

(** Modelled from the spec: [db.CreateService] and
    [db.CreateInitialServiceAttr] (a ServiceAttr at [CREATING]), the row
    constructors the test util calls. *)
Definition newService (cluster name uuid : string) : Service :=
  mkService cluster name uuid.

Definition CreateInitialServiceAttr (uuid : string) (replicas : Z)
  (cluster name : string) (vols : ServiceVolumes) (registerDNS : bool)
  (domain hostedZoneID : string) (requireStaticIP : bool) : ServiceAttr :=
  mkServiceAttr uuid CREATING replicas cluster name vols registerDNS domain
                hostedZoneID requireStaticIP.

Section Workflow.
Variable PF : Platform.

(** *** Device names (spec section 4.2) *)

(** The [n]-th name of the allocator's sequence: [/dev/loop1],
    [/dev/loop2], ... for the prefix [/dev/loop]. *)
Definition deviceName (n : nat) : string :=
  devicePrefix PF ++ utils.itoa (Z.of_nat n).

Definition deviceTaken (cluster name : string) (c : Cloud) : bool :=
  existsb (fun d => String.eqb (dev_ClusterName d) cluster &&
                    String.eqb (dev_DeviceName d) name) (devices c).

(** The first free name among the [fuel] names from the [n]-th on. *)
Fixpoint nextFreeDevice (cluster : string) (c : Cloud) (fuel n : nat)
  : option string :=
  match fuel with
  | O => None
  | S fuel' =>
      if deviceTaken cluster (deviceName n) c
      then nextFreeDevice cluster c fuel' (S n)
      else Some (deviceName n)
  end.

(** Modelled from the spec: [createDevice(cluster, service, excludeName)]
    of the device-name allocator (section 4.2), which the test util calls
    and whose source is missing.  A Device row of the cluster that already
    binds to the service, other than the excluded name, is reused;
    otherwise the next free name of the sequence is taken and its row
    written before the name is returned. *)
Definition createDevice (cluster service excludeName : string) : Op string :=
  c <- read ;;
  match List.find (fun d => String.eqb (dev_ClusterName d) cluster &&
                            String.eqb (dev_ServiceName d) service &&
                            negb (String.eqb (dev_DeviceName d) excludeName))
                  (devices c) with
  | Some d => ok (dev_DeviceName d)
  | None =>
      match nextFreeDevice cluster c (S (length (devices c))) 1 with
      | Some name =>
          update (set_devices (devices c ++ [mkDevice cluster name service])) ;;;
          ok name
      | None => fail ErrDBInternal
      end
  end.

(** Modelled from the spec: [createServiceVolumes(req)], steps 1, 2 and 5
    of the workflow (section 4.4): the primary device, the journal device
    with the primary as exclusion hint when the request has a journal
    volume, and the logical plan composed of them. *)
Definition createServiceVolumes (req : CreateServiceRequest) : Op ServiceVolumes :=
  let cluster := Cluster (Service_ req) in
  let service := ServiceName (Service_ req) in
  dev <- createDevice cluster service "" ;;
  match JournalVolume req with
  | Some jvol =>
      jdev <- createDevice cluster service dev ;;
      ok (mkServiceVolumes dev (Volume req) jdev (Some jvol))
  | None => ok (mkServiceVolumes dev (Volume req) "" None)
  end.

(** *** Static IPs (spec section 4.3) *)

Definition ipOf (n : Z) : string := cidrPrefix PF ++ utils.itoa n.

(** [assignedIPs]: the IPs the members of the service hold, each with the
    member's name. *)
Definition AssignedIPs := list (string * string).

Definition ipTaken (ip : string) (assigned : AssignedIPs) (c : Cloud) : bool :=
  existsb (fun r => String.eqb (sip_StaticIP r) ip) (staticIPs c) ||
  existsb (fun p => String.eqb (fst p) ip) assigned.

(** The numerically lowest IP of the block, from host number [n] on, that
    satisfies [p]. *)
Fixpoint lowestIP (p : string -> bool) (fuel : nat) (n : Z) : option string :=
  match fuel with
  | O => None
  | S fuel' =>
      if (cidrLast PF <? n)%Z then None
      else if p (ipOf n) then Some (ipOf n)
      else lowestIP p fuel' (n + 1)%Z
  end.

Definition blockSize : nat := Z.to_nat (cidrLast PF - cidrFirst PF + 1).

(** Modelled from the spec: [createStaticIPsForZone(attr, assignedIPs,
    count, zone)] (section 4.3), called by the test util, source missing.
    It reserves [count] fresh IPs of the block, lowest numerically free
    first, none of them in [assignedIPs], and writes a StaticIP row for
    each, bound to the service and to no member. *)
Fixpoint createStaticIPsForZone (attr : ServiceAttr) (assignedIPs : AssignedIPs)
  (count : nat) (zone : string) : Op (list ServiceStaticIP) :=
  match count with
  | O => ok []
  | S count' =>
      c <- read ;;
      match lowestIP (fun ip => negb (ipTaken ip assignedIPs c))
                     blockSize (cidrFirst PF) with
      | None => fail ErrDBInternal
      | Some ip =>
          let row := mkServiceStaticIP ip (attr_ServiceUUID attr) "" zone in
          update (set_staticIPs (staticIPs c ++ [row])) ;;;
          rest <- createStaticIPsForZone attr assignedIPs count' zone ;;
          ok (row :: rest)
      end
  end.

(** A StaticIP row of the service in the zone that no member holds yet. *)
Definition leftoverIP (uuid zone : string) (assigned : AssignedIPs) (c : Cloud)
  (ip : string) : bool :=
  existsb (fun r => String.eqb (sip_StaticIP r) ip &&
                    String.eqb (sip_ServiceUUID r) uuid &&
                    String.eqb (sip_Zone r) zone &&
                    String.eqb (sip_MemberName r) "") (staticIPs c) &&
  negb (existsb (fun p => String.eqb (fst p) ip) assigned).

(** Modelled from the spec: the conditional update that binds a StaticIP
    row to a member (section 4.3: "assignment to a specific member happens
    later via conditional update when that member is created"). *)
Definition assignStaticIP (ip member : string) : Op unit :=
  c <- read ;;
  update (set_staticIPs
            (map (fun r => if String.eqb (sip_StaticIP r) ip
                           then mkServiceStaticIP ip (sip_ServiceUUID r) member (sip_Zone r)
                           else r) (staticIPs c))).

(** *** Config files, volumes, DNS *)

Fixpoint createConfigFiles (uuid : string) (files : list ReplicaConfigFile)
  : Op (list string) :=
  match files with
  | [] => ok []
  | f :: rest =>
      c <- read ;;
      let fileID := hash PF (Content f) in
      (if existsb (fun x => String.eqb (cfg_ServiceUUID x) uuid &&
                            String.eqb (cfg_FileID x) fileID) (configs c)
       then ok tt
       else update (set_configs
                      (configs c ++ [mkConfigFile uuid fileID (FileName f) (Content f)]))) ;;;
      ids <- createConfigFiles uuid rest ;;
      ok (fileID :: ids)
  end.

(** Modelled from the spec: [checkAndCreateConfigFile] (step 7b): the file
    id is the hash of the content; a row with the same id is reused. *)
Definition checkAndCreateConfigFile (uuid memberName : string)
  (replicaCfg : ReplicaConfig) : Op (list string) :=
  createConfigFiles uuid (Configs replicaCfg).

(** Modelled from the spec: the volume adapter's [CreateVolume]
    (section 6), which dedupes on its tags
    [(serviceUUID, memberName, role)]. *)
Definition CreateVolume (uuid member role : string) : Op string :=
  c <- read ;;
  match List.find (fun v => match v with
                            | (u, m, r, _) => String.eqb u uuid && String.eqb m member &&
                                              String.eqb r role
                            end) (volumes c) with
  | Some (_, _, _, id) => ok id
  | None =>
      let id := ("vol-" ++ utils.itoa (Z.of_nat (S (length (volumes c)))))%string in
      update (set_volumes (volumes c ++ [(uuid, member, role, id)])) ;;;
      ok id
  end.

(** Modelled from the spec: the DNS adapter's
    [GetOrCreateHostedZoneIDByName] and [UpsertRecord] (section 6). *)
Definition GetOrCreateHostedZoneIDByName (domain vpcID region : string)
  (private : bool) : Op string :=
  c <- read ;;
  match List.find (fun z => match z with
                            | (d, v, r, _) => String.eqb d domain && String.eqb v vpcID &&
                                              String.eqb r region
                            end) (zones c) with
  | Some (_, _, _, id) => ok id
  | None =>
      let id := ("zone-" ++ utils.itoa (Z.of_nat (S (length (zones c)))))%string in
      update (set_zones (zones c ++ [(domain, vpcID, region, id)])) ;;;
      ok id
  end.

Definition UpsertRecord (zoneID name target : string) : Op unit :=
  c <- read ;;
  update (set_records
            (List.filter (fun r => match r with
                                   | (z, n, _) => negb (String.eqb z zoneID && String.eqb n name)
                                   end) (records c) ++ [(zoneID, name, target)])).

(** *** Members (spec section 4.4, step 7) *)

Definition MemberVolumes_eqb (a b : MemberVolumes) : bool :=
  String.eqb (mv_PrimaryVolumeID a) (mv_PrimaryVolumeID b) &&
  String.eqb (mv_PrimaryDeviceName a) (mv_PrimaryDeviceName b) &&
  String.eqb (mv_JournalVolumeID a) (mv_JournalVolumeID b) &&
  String.eqb (mv_JournalDeviceName a) (mv_JournalDeviceName b).

Fixpoint strings_eqb (a b : list string) : bool :=
  match a, b with
  | [], [] => true
  | x :: a', y :: b' => String.eqb x y && strings_eqb a' b'
  | _, _ => false
  end.

Definition ServiceMember_eqb (a b : ServiceMember) : bool :=
  String.eqb (mem_ServiceUUID a) (mem_ServiceUUID b) &&
  String.eqb (mem_MemberName a) (mem_MemberName b) &&
  String.eqb (mem_AvailableZone a) (mem_AvailableZone b) &&
  String.eqb (mem_StaticIP a) (mem_StaticIP b) &&
  MemberVolumes_eqb (mem_Volumes a) (mem_Volumes b) &&
  strings_eqb (mem_Configs a) (mem_Configs b).

Definition findMember (uuid name : string) (c : Cloud) : option ServiceMember :=
  List.find (fun m => String.eqb (mem_ServiceUUID m) uuid &&
                      String.eqb (mem_MemberName m) name) (members c).

(** Modelled from the spec: [createServiceMember(attr, zone, memberName,
    ip, cfgs)], steps 7d and 7e, called by the test util, source missing.
    The primary volume, and the journal volume when the plan has a journal
    device, are provisioned under the tags of the member; the member row
    is written if absent, an existing row with the same contents is a
    success, one with other contents a failed conditional check; the
    StaticIP row of the member's IP is bound to the member. *)
Definition createServiceMember (attr : ServiceAttr) (zone memberName ip : string)
  (cfgs : list string) : Op ServiceMember :=
  let uuid := attr_ServiceUUID attr in
  let vols := attr_Volumes attr in
  primary <- CreateVolume uuid memberName "primary" ;;
  journal <- (if String.eqb (sv_JournalDeviceName vols) "" then ok ""
              else CreateVolume uuid memberName "journal") ;;
  let member :=
    mkServiceMember uuid memberName zone ip
      (mkMemberVolumes primary (sv_PrimaryDeviceName vols)
                       journal (sv_JournalDeviceName vols)) cfgs in
  c <- read ;;
  match findMember uuid memberName c with
  | Some old =>
      if ServiceMember_eqb old member then ok old
      else fail ErrDBConditionalCheckFailed
  | None =>
      update (set_members (members c ++ [member])) ;;;
      assignStaticIP ip memberName ;;;
      ok member
  end.

(** Modelled from the spec: step 7c of section 4.4, the IP of a member.
    An IP the member already holds is kept;
    otherwise the numerically lowest leftover of the service is claimed;
    otherwise one fresh IP is minted. *)
Definition memberStaticIP (attr : ServiceAttr) (zone memberName : string) : Op string :=
  let uuid := attr_ServiceUUID attr in
  c <- read ;;
  match findMember uuid memberName c with
  | Some old => ok (mem_StaticIP old)
  | None =>
      match List.find (fun r => String.eqb (sip_ServiceUUID r) uuid &&
                                String.eqb (sip_MemberName r) memberName)
                      (staticIPs c) with
      | Some r => ok (sip_StaticIP r)
      | None =>
          let assigned :=
            map (fun m => (mem_StaticIP m, mem_MemberName m))
                (List.filter (fun m => String.eqb (mem_ServiceUUID m) uuid) (members c)) in
          match lowestIP (leftoverIP uuid zone assigned c) blockSize (cidrFirst PF) with
          | Some ip => ok ip
          | None =>
              ips <- createStaticIPsForZone attr assigned 1 zone ;;
              match ips with
              | r :: _ => ok (sip_StaticIP r)
              | [] => fail ErrDBInternal
              end
          end
      end
  end.

(** Modelled from the spec: steps 7a to 7f of section 4.4 for the member
    of ordinal [i]. *)
Definition createMember (req : CreateServiceRequest) (attr : ServiceAttr) (i : nat)
  : Op unit :=
  let uuid := attr_ServiceUUID attr in
  let memberName :=
    utils.GenServiceMemberName (ServiceName (Service_ req)) (Z.of_nat i) in
  match nth_error (ReplicaConfigs req) i with
  | None => fail ErrDBInvalidRequest
  | Some replicaCfg =>
      cfgs <- checkAndCreateConfigFile uuid memberName replicaCfg ;;
      ip <- (if attr_RequireStaticIP attr
             then memberStaticIP attr (Zone replicaCfg) memberName
             else ok (DefaultHostIP PF)) ;;
      createServiceMember attr (Zone replicaCfg) memberName ip cfgs ;;;
      if attr_RegisterDNS attr && attr_RequireStaticIP attr
      then UpsertRecord (attr_HostedZoneID attr)
             (memberName ++ common.DomainSeparator ++ attr_DomainName attr) ip
      else ok tt
  end.

(** Modelled from the spec: step 7, the members in ascending ordinal. *)
Fixpoint createMembers (req : CreateServiceRequest) (attr : ServiceAttr)
  (ordinals : list nat) : Op unit :=
  match ordinals with
  | [] => ok tt
  | i :: rest => createMember req attr i ;;; createMembers req attr rest
  end.

(** *** The workflow *)

(** Modelled from the spec: step 8, [SetServiceInitialized(cluster, name)]:
    from [CREATING] to [ACTIVE]; already [ACTIVE] is a success, any other
    status a failed conditional check (section 7). *)
Definition SetServiceInitialized (cluster name : string) : Op unit :=
  s <- GetService cluster name ;;
  a <- GetServiceAttr (svc_ServiceUUID s) ;;
  match attr_Status a with
  | ACTIVE => ok tt
  | CREATING =>
      c <- read ;;
      update (set_attrs
                (map (fun x => if String.eqb (attr_ServiceUUID x) (attr_ServiceUUID a)
                               then mkServiceAttr (attr_ServiceUUID x) ACTIVE
                                      (attr_Replicas x) (attr_ClusterName x)
                                      (attr_ServiceName x) (attr_Volumes x)
                                      (attr_RegisterDNS x) (attr_DomainName x)
                                      (attr_HostedZoneID x) (attr_RequireStaticIP x)
                               else x) (attrs c)))
  | _ => fail ErrDBConditionalCheckFailed
  end.

(** Modelled from the spec: step 3, the Service row, reused when present,
    inserted with a fresh UUID when [GetService] answers NotFound. *)
Definition checkAndCreateService (cluster name : string) : Op string :=
  c <- read ;;
  match GetService cluster name c with
  | (inl s, _) => ok (svc_ServiceUUID s)
  | (inr ErrDBRecordNotFound, _) =>
      let uuid := genUUID PF (uuids c) in
      update (set_uuids (S (uuids c))) ;;;
      CreateService_row (newService cluster name uuid) ;;;
      ok uuid
  | (inr e, _) => fail e
  end.

(** Modelled from the spec: step 6, the ServiceAttr, created at
    [CREATING] when absent, checked
    against the request when present. *)
Definition checkAndCreateServiceAttr (req : CreateServiceRequest)
  (uuid domain hostedZoneID : string) (svols : ServiceVolumes) : Op ServiceAttr :=
  c <- read ;;
  match GetServiceAttr uuid c with
  | (inl a, _) =>
      if (attr_Replicas a =? Replicas req)%Z &&
         Bool.eqb (attr_RequireStaticIP a) (RequireStaticIP req) &&
         Bool.eqb (attr_RegisterDNS a) (RegisterDNS req) &&
         String.eqb (attr_HostedZoneID a) hostedZoneID
      then ok a
      else fail ErrDBConditionalCheckFailed
  | (inr ErrDBRecordNotFound, _) =>
      let a := CreateInitialServiceAttr uuid (Replicas req)
                 (Cluster (Service_ req)) (ServiceName (Service_ req)) svols
                 (RegisterDNS req) domain hostedZoneID (RequireStaticIP req) in
      CreateServiceAttr a ;;;
      ok a
  | (inr e, _) => fail e
  end.

(** Modelled from the spec: the input constraints of section 7 that a
    request can violate: an empty cluster or service name, no replica, a
    volume of size zero.  (The CIDR block belongs to the deployment, here
    [Platform], not to the request.) *)
Definition validRequest (req : CreateServiceRequest) : bool :=
  negb (String.eqb (Cluster (Service_ req)) "") &&
  negb (String.eqb (ServiceName (Service_ req)) "") &&
  (0 <? Replicas req)%Z &&
  (0 <? VolumeSizeGB (Volume req))%Z &&
  match JournalVolume req with
  | Some jvol => (0 <? VolumeSizeGB jvol)%Z
  | None => true
  end.

(** Modelled from the spec: [CreateService(req, domain, vpcID)], the
    service-creation workflow of section 4.4, which the test util drives
    and whose source is missing: a request that violates the input
    constraints is an InvalidRequest and nothing is done (section 7);
    otherwise the eight steps in their order, each reusing what it finds
    done. *)
Definition CreateService (req : CreateServiceRequest) (domain vpcID : string)
  : Op string :=
  let cluster := Cluster (Service_ req) in
  let service := ServiceName (Service_ req) in
  if negb (validRequest req) then fail ErrDBInvalidRequest
  else
    svols <- createServiceVolumes req ;;
    uuid <- checkAndCreateService cluster service ;;
    hostedZoneID <- GetOrCreateHostedZoneIDByName domain vpcID
                      (Region (Service_ req)) true ;;
    attr <- checkAndCreateServiceAttr req uuid domain hostedZoneID svols ;;
    createMembers req attr (seq 0 (Z.to_nat (Replicas req))) ;;;
    SetServiceInitialized cluster service ;;;
    ok uuid.

End Workflow.

(** *** The scenarios of [TestUtil_ServiceCreationRetry] *)

(** The loop server of the tests: CIDR prefix [10.0.0.], first IP 4. *)
Definition loopPlatform : Platform :=
  mkPlatform "10.0.0." 4 254 "/dev/loop" (fun content => content) "127.0.0.1"
             (fun n => ("uuid-" ++ utils.itoa (Z.of_nat n))%string).

(** [sort.Slice(memberItems, ...)] by [GetServiceMemberIndex]: an
    insertion sort; a name without an index sorts first. *)
Definition memberIndex (m : ServiceMember) : Z :=
  match utils.GetServiceMemberIndex (mem_MemberName m) with
  | Some i => i
  | None => (-1)%Z
  end.

Fixpoint insertMember (m : ServiceMember) (l : list ServiceMember) : list ServiceMember :=
  match l with
  | [] => [m]
  | x :: rest =>
      if (memberIndex m <? memberIndex x)%Z then m :: l
      else x :: insertMember m rest
  end.

Definition sortMembers (l : list ServiceMember) : list ServiceMember :=
  fold_right insertMember [] l.

(** The config files of the replicas: [TestUtil_ServiceCreationRetry]
    builds them once, named after its first service, ["service-0"], and
    uses them for every service it creates. *)
Definition replicaCfgs : list ReplicaConfig :=
  let cfg := mkReplicaConfigFile "service-0" "service-0" in
  let replicaCfg := mkReplicaConfig "az-west" [cfg] in
  [replicaCfg; replicaCfg; replicaCfg].

(** The request the test util builds: three replicas in one zone, one
    config file each, DNS registration on; [req.Service.ServiceName] is
    set to the service of each part. *)
Definition testRequest (service : string) (requireStaticIP requireJournalVolume : bool)
  : CreateServiceRequest :=
  let servicevol := mkServiceVolume "gp2" 1 0 in
  mkCreateServiceRequest
    (mkServiceCommonRequest "us-west-1" "cluster1" service)
    3 servicevol
    (if requireJournalVolume then Some (mkServiceVolume "gp2" 1 1) else None)
    true requireStaticIP replicaCfgs.

(** What a scenario observes at its end. *)
Record Observed : Type := mkObserved {
  obs_UUID : string;
  obs_PrimaryDeviceName : string;
  obs_JournalDeviceName : string;
  obs_Members : list (string * string)   (* member name, static IP; by ordinal *)
}.

Definition observe (uuid : string) : Op Observed :=
  sattr <- GetServiceAttr uuid ;;
  memberItems <- ListServiceMembers uuid ;;
  ok (mkObserved uuid
        (sv_PrimaryDeviceName (attr_Volumes sattr))
        (sv_JournalDeviceName (attr_Volumes sattr))
        (map (fun m => (mem_MemberName m, mem_StaticIP m)) (sortMembers memberItems))).

(** Scenario 3 of the spec: the Device row and the Service row of
    [service] exist before [CreateService] runs. *)
Definition scenarioDeviceAndService (service : string)
  (requireStaticIP requireJournalVolume : bool) : Op (string * Observed) :=
  let PF := loopPlatform in
  let req := testRequest service requireStaticIP requireJournalVolume in
  dev <- createDevice PF "cluster1" service "" ;;
  CreateService_row (newService "cluster1" service ("uuid" ++ service)%string) ;;;
  svcUUID <- CreateService PF req "example.com" "vpc-1" ;;
  o <- observe svcUUID ;;
  ok (dev, o).

(** Scenario 4 of the spec and part 4 of the test: Device and Service
    rows, the ServiceAttr at [CREATING], the static IP of member 0, the
    member-0 row, and one more static IP that no member holds, all exist
    before [CreateService] runs.  The result lists the IPs minted
    beforehand and what is observed afterwards. *)
Definition scenarioOneMemberCreated (service : string)
  (requireStaticIP requireJournalVolume : bool) : Op (list string * Observed) :=
  let PF := loopPlatform in
  let req := testRequest service requireStaticIP requireJournalVolume in
  dev <- createDevice PF "cluster1" service "" ;;
  CreateService_row (newService "cluster1" service ("uuid" ++ service)%string) ;;;
  hostedZoneID <- GetOrCreateHostedZoneIDByName "example.com" "vpc-1" "us-west-1" true ;;
  journal <- (if requireJournalVolume
              then jdev <- createDevice PF "cluster1" service dev ;;
                   ok (jdev, Some (mkServiceVolume "gp2" 1 1))
              else ok ("", None)) ;;
  let vols := mkServiceVolumes dev (mkServiceVolume "gp2" 1 0) (fst journal) (snd journal) in
  let serviceAttr :=
    CreateInitialServiceAttr ("uuid" ++ service)%string 3 "cluster1" service vols
      true "example.com" hostedZoneID requireStaticIP in
  CreateServiceAttr serviceAttr ;;;
  let memberName := utils.GenServiceMemberName service 0 in
  cfgs <- checkAndCreateConfigFile PF ("uuid" ++ service)%string memberName
            (nth 0 replicaCfgs (mkReplicaConfig "az-west" [])) ;;
  first <- (if requireStaticIP
            then createStaticIPsForZone PF serviceAttr [] 1 "az-west"
            else ok []) ;;
  let ip := match first with
            | r :: _ => sip_StaticIP r
            | [] => DefaultHostIP PF
            end in
  createServiceMember serviceAttr "az-west" memberName ip cfgs ;;;
  second <- (if requireStaticIP
             then createStaticIPsForZone PF serviceAttr [(ip, memberName)] 1 "az-west"
             else ok []) ;;
  svcUUID <- CreateService PF req "example.com" "vpc-1" ;;
  o <- observe svcUUID ;;
  ok (map sip_StaticIP (first ++ second), o).


(** Part 1 of the test: only the Device row exists. *)
Definition scenarioDeviceOnly (service : string)
  (requireStaticIP requireJournalVolume : bool) : Op (string * Observed) :=
  let PF := loopPlatform in
  let req := testRequest service requireStaticIP requireJournalVolume in
  dev <- createDevice PF "cluster1" service "" ;;
  svcUUID <- CreateService PF req "example.com" "vpc-1" ;;
  o <- observe svcUUID ;;
  ok (dev, o).

(** Part 3 of the test: Device and Service rows and the ServiceAttr at
    [CREATING] exist. *)
Definition scenarioAttrCreating (service : string)
  (requireStaticIP requireJournalVolume : bool) : Op (string * Observed) :=
  let PF := loopPlatform in
  let req := testRequest service requireStaticIP requireJournalVolume in
  dev <- createDevice PF "cluster1" service "" ;;
  CreateService_row (newService "cluster1" service ("uuid" ++ service)%string) ;;;
  hostedZoneID <- GetOrCreateHostedZoneIDByName "example.com" "vpc-1" "us-west-1" true ;;
  svols <- createServiceVolumes PF req ;;
  CreateServiceAttr
    (CreateInitialServiceAttr ("uuid" ++ service)%string 3 "cluster1" service svols
       true "example.com" hostedZoneID requireStaticIP) ;;;
  svcUUID <- CreateService PF req "example.com" "vpc-1" ;;
  o <- observe svcUUID ;;
  ok (dev, o).

(** [TestUtil_ServiceCreationRetry]: its four parts in one cluster, one
    after the other, with what each part observes. *)
Definition TestUtil_ServiceCreationRetry (requireStaticIP requireJournalVolume : bool)
  : Op (list Observed) :=
  p1 <- scenarioDeviceOnly "service-0" requireStaticIP requireJournalVolume ;;
  p2 <- scenarioDeviceAndService "service-1" requireStaticIP requireJournalVolume ;;
  p3 <- scenarioAttrCreating "service-2" requireStaticIP requireJournalVolume ;;
  p4 <- scenarioOneMemberCreated "service-3" requireStaticIP requireJournalVolume ;;
  ok [snd p1; snd p2; snd p3; snd p4].

End manageservice.

(* ================================================================== *)
(** * The vocabulary of the statements                                 *)
(* ================================================================== *)

Import controldbcli.
Local Open Scope go_scope.

(** The part of the world that belongs to the running request. *)
Definition own (w : World) : nat * list Event := (calls w, trace w).

(** The calls one request makes in an envelope of at most [n] attempts:
    each attempt invokes the stub once; an attempt that is retried is
    followed by [markClientFailed] on the same handle, and by the back-off
    sleep exactly when that call reported no change. *)
Inductive attempts_trace : nat -> list Event -> Prop :=
| at_stop n : attempts_trace n []
| at_last n h : attempts_trace (S n) [EvRpc h]
| at_sleep n h tr :
    attempts_trace n tr ->
    attempts_trace (S n) (EvRpc h :: EvMarkFailed h false :: EvSleep 2 :: tr)
| at_fast n h tr :
    attempts_trace n tr ->
    attempts_trace (S n) (EvRpc h :: EvMarkFailed h true :: tr).

(** The number of attempts in a trace. *)
Fixpoint countRpc (tr : list Event) : nat :=
  match tr with
  | [] => 0
  | EvRpc _ :: rest => S (countRpc rest)
  | _ :: rest => countRpc rest
  end.

(** The result of the envelope and the number of the next stub invocation,
    read off the server's answers alone. *)
Fixpoint replay {K : DBStrings} {Rep Res : Type} (rpc : nat -> Rep + error)
  (post : Rep + error -> Res + error) (zero : Res) (v : ErrVar)
  (n : nat) (err : option error) (c : nat) : (Res * option error) * nat :=
  match n with
  | O => ((zero, err), c)
  | S n' =>
      match post (rpc c) with
      | inl res => ((res, None), S c)
      | inr e =>
          if codes.eqb (grpc.Code e) codes.Unknown
          then ((zero, Some (checkAndConvertError e)), S c)
          else replay rpc post zero v n'
                 (match v with Outer => Some e | Shadowing => err end) (S c)
      end
  end.

(** A transport-level error: a grpc error whose code is not [Unknown]. *)
Definition transportError (e : error) : Prop := grpc.Code e <> codes.Unknown.

(** An application-level error: it carries the code [Unknown]. *)
Definition applicationError (e : error) : Prop := grpc.Code e = codes.Unknown.

(** The description is one of the four strings [checkAndConvertError]
    looks for. *)
Definition knownDescription {K : DBStrings} (d : string) : Prop :=
  d = StrErrDBInternal \/ d = StrErrDBInvalidRequest \/
  d = StrErrDBRecordNotFound \/ d = StrErrDBConditionalCheckFailed.

(** The [k] attempts from invocation [c] on all failed with a transport
    error. *)
Definition transportFailures {Rep Res : Type} (rpc : nat -> Rep + error)
  (post : Rep + error -> Res + error) (c k : nat) : Prop :=
  forall j, j < k -> exists e, post (rpc (c + j)) = inr e /\ transportError e.

(** The error an attempt of a list call ends with, read off the answer
    of the server: the error of the call itself, or the error that ended
    the stream before its regular end, whatever had been received. *)
Definition streamError {A : Type} (r : ServerStream A + error) : option error :=
  match r with
  | inr e => Some e
  | inl s => match final s with
             | EOF => None
             | e => Some e
             end
  end.

(** The [k] attempts of a list call from invocation [c] on were all
    refused or broken off by a transport error. *)
Definition brokenAttempts {A : Type} (rpc : nat -> ServerStream A + error)
  (c k : nat) : Prop :=
  forall j, j < k -> exists e, streamError (rpc (c + j)) = Some e /\ transportError e.

(** What a list call hands to its caller, by the answers of the server.
    Unless it panics, it returns: the whole of the first stream that was
    read to its regular end, nothing else in the list, the attempts
    before it having been broken off by transport errors and one more
    invocation made for each of them; or the nil list and the translated
    application error of the first attempt that was not broken off by a
    transport error; or the nil list and the error of the third attempt,
    when three attempts were broken off by transport errors. *)
Definition wholeStreamOrNothing {K : DBStrings} {A B : Type}
  (rpc : nat -> ServerStream A + error) (conv : A -> B)
  (call : M (list B * option error)) : Prop :=
  forall w : World,
    let run := call w in
    let c := calls w in
    fst run = Panicked \/
    (exists k s, k < 3 /\ brokenAttempts rpc c k /\
       rpc (c + k) = inl s /\ final s = EOF /\
       fst run = Returned (map conv (items s), None) /\
       calls (snd run) = c + k + 1) \/
    (exists k e, k < 3 /\ brokenAttempts rpc c k /\
       streamError (rpc (c + k)) = Some e /\ applicationError e /\
       fst run = Returned ([], Some (checkAndConvertError e)) /\
       calls (snd run) = c + k + 1) \/
    (brokenAttempts rpc c 3 /\
     exists e, streamError (rpc (c + 2)) = Some e /\
       fst run = Returned ([], Some e) /\ calls (snd run) = c + 3).

(** The handle [NewControlDBCli] allocates before it dials. *)
Definition nilClient : pbclient := mkPbclient false None None.

(** No dial has succeeded since [NewControlDBCli]: the client still
    points at the handle it was built with. *)
Definition pristine (w : World) : Prop :=
  cli w = 0 /\ heap w = [nilClient].

(** Sample values for the string constants of package [db]; they serve
    only to run the client on concrete inputs. *)
Definition sampleStrings : DBStrings := {|
  StrErrDBInternal := "DB Internal Error";
  StrErrDBInvalidRequest := "DB invalid request";
  StrErrDBRecordNotFound := "DB record not found";
  StrErrDBConditionalCheckFailed := "DB conditional check failed";
  TableStatusActive := "ACTIVE";
  DBErrorText := fun x =>
    match x with
    | ErrDBInternal => "DB Internal Error"
    | ErrDBInvalidRequest => "DB invalid request"
    | ErrDBRecordNotFound => "DB record not found"
    | ErrDBConditionalCheckFailed => "DB conditional check failed"
    end
|}.

(** A protocol whose records are plain strings. *)
Definition sampleProtocol : Protocol := {|
  Device := string; Service := string; ServiceAttr := string;
  Volume := string; ConfigFile := string;
  pbDevice := string; pbService := string; pbServiceAttr := string;
  pbVolume := string; pbConfigFile := string; pbEmpty := unit;
  GenPbDevice := fun x => x; GenDbDevice := fun x => x;
  GenPbService := fun x => x; GenDbService := fun x => x;
  GenPbServiceAttr := fun x => x; GenDbServiceAttr := fun x => x;
  GenPbVolume := fun x => x; GenDbVolume := fun x => x;
  GenPbConfigFile := fun x => x; GenDbConfigFile := fun x => x
|}.

(** A server that follows a script: the [n]-th invocation fails with
    [fails n] when that is an error, and otherwise answers with an empty
    reply, the row ["row"], or the stream [streams n]. *)
Definition scriptedServer (fails : nat -> option error)
  (streams : nat -> ServerStream string) : @Server sampleProtocol :=
  let ack := fun (A : Type) (n : nat) (_ : A) =>
    match fails n with Some e => inr e | None => inl tt end in
  let row := fun (A : Type) (n : nat) (_ : A) =>
    match fails n with Some e => inr e | None => inl "row" end in
  let rows := fun (A : Type) (n : nat) (_ : A) =>
    match fails n with Some e => inr e | None => inl (streams n) end in
  @mkServer sampleProtocol
    (ack _) (row _) (ack _) (rows _)
    (ack _) (row _) (ack _) (rows _)
    (ack _) (ack _) (row _) (ack _)
    (ack _) (ack _) (row _) (ack _) (rows _)
    (ack _) (row _) (ack _).

Definition noStreams : nat -> ServerStream string := fun _ => mkStream [] EOF.

(** Every dial succeeds and no other request runs. *)
Definition envUp : Env := mkEnv (fun _ => true) (fun _ => []).

(** No dial succeeds and no other request runs. *)
Definition envDown : Env := mkEnv (fun _ => false) (fun _ => []).

(** Only the first dial succeeds and no other request runs. *)
Definition envOnce : Env := mkEnv (fun n => Nat.eqb n 0) (fun _ => []).

(** The client right after [NewControlDBCli] connected. *)
Definition worldConnected : World := snd (NewControlDBCli envUp "db:27030").

(** The client after its first connection was marked failed. *)
Definition worldFailed : World := snd (markClientFailed 1 worldConnected).

(** The client after a second connection replaced the first and was
    marked failed in turn; handle 1 is what a slow request still holds. *)
Definition worldStale : World :=
  snd (markClientFailed 2 (snd (connect envUp worldFailed))).

(** A server that is unreachable: every invocation fails with the
    transport error [Unavailable]. *)
Definition unavailable : error := RpcError codes.Unavailable "transport is closing".

Definition serverUnavailable : @Server sampleProtocol :=
  scriptedServer (fun _ => Some unavailable) noStreams.

(** A server that answers every request with the application error
    "DB record not found". *)
Definition notFound : error := RpcError codes.Unknown "DB record not found".

Definition serverNotFound : @Server sampleProtocol :=
  scriptedServer (fun _ => Some notFound) noStreams.

(** A server that answers with an application error whose description is
    none of the four. *)
Definition diskFull : error := RpcError codes.Unknown "no space left on device".

Definition serverDiskFull : @Server sampleProtocol :=
  scriptedServer (fun _ => Some diskFull) noStreams.

(** The member rows of a service, as [ListServiceMembers] returns them. *)
Definition membersOf (uuid : string) (c : manageservice.Cloud)
  : list manageservice.ServiceMember :=
  List.filter (fun m => String.eqb (manageservice.mem_ServiceUUID m) uuid)
              (manageservice.members c).

(** The names of the member rows of a service. *)
Definition memberNames (uuid : string) (c : manageservice.Cloud) : list string :=
  map manageservice.mem_MemberName (membersOf uuid c).

(** An operation that writes no member row. *)
Definition keepsMembers {A : Type} (m : manageservice.Op A) : Prop :=
  forall c, manageservice.members (snd (m c)) = manageservice.members c.




(** ** The shared connection state *)

(** The states a client passes through: [NewControlDBCli] builds it, and
    from then on requests run RPC methods on it, while other requests run
    the two critical sections [connect] and [markClientFailed] on any
    handle they hold, in any order. *)
Inductive reachable {K : DBStrings} (E : Env) : World -> Prop :=
| reach_new (address : string) :
    reachable E (snd (NewControlDBCli E address))
| reach_connect (w : World) :
    reachable E w -> reachable E (snd (connect E w))
| reach_mark (h : Handle) (w : World) :
    reachable E w -> reachable E (snd (markClientFailed h w))
| reach_call {Rep Res : Type} (rpc : nat -> Rep + error)
    (post : Rep + error -> Res + error) (zero : Res) (v : ErrVar) (w : World) :
    reachable E w ->
    reachable E (snd (envelope E (rpcAttempt rpc post) zero v w)).

(** What the two critical sections keep true of the handles, the dials
    and the closed connections. *)
Record connInv (E : Env) (w : World) : Prop := mkConnInv {
  inv_cli : cli w < length (heap w);
  inv_zero : heap w !! 0 = Some nilClient;
  inv_healthy : forall h p,
    heap w !! h = Some p -> isConnGood p = true ->
    h = cli w /\ exists c, conn p = Some c /\ ~ List.In c (closed w);
  inv_conn : forall h p,
    heap w !! h = Some p -> h <> 0 ->
    exists c, conn p = Some c /\ dbcli p = Some c /\ c < dials w /\
              dialOk E c = true /\
              (isConnGood p = false -> List.In c (closed w));
  inv_closed : List.NoDup (closed w);
  inv_closed_lt : forall c, List.In c (closed w) -> c < dials w;
  inv_dialed : forall n,
    n < dials w -> dialOk E n = true ->
    exists h p, heap w !! h = Some p /\ conn p = Some n;
  inv_first : cli w = 0 -> forall n, n < dials w -> dialOk E n = false
}.

(** How the shared state moves on: dials and closed connections only
    accumulate, and an allocated handle stays allocated, keeps its
    connection and its stub, and never turns healthy again. *)
Definition evolves (w w' : World) : Prop :=
  dials w <= dials w' /\
  List.incl (closed w) (closed w') /\
  forall h p, heap w !! h = Some p ->
    exists p', heap w' !! h = Some p' /\ conn p' = conn p /\
               dbcli p' = dbcli p /\
               (isConnGood p = false -> isConnGood p' = false).

(** The handles a request invoked the stub through, oldest first. *)
Fixpoint rpcHandles (tr : list Event) : list Handle :=
  match tr with
  | [] => []
  | EvRpc h :: rest => h :: rpcHandles rest
  | _ :: rest => rpcHandles rest
  end.

(** The seconds a request slept. *)
Fixpoint sleepSeconds (tr : list Event) : Z :=
  match tr with
  | [] => 0
  | EvSleep s :: rest => s + sleepSeconds rest
  | _ :: rest => sleepSeconds rest
  end.

(** The calls of one attempt that is given up: the stub is invoked, the
    handle is reported failed, and the request sleeps unless another
    request had reconnected. *)
Definition failedRound (hb : Handle * bool) : list Event :=
  EvRpc (fst hb) :: EvMarkFailed (fst hb) (snd hb) ::
  (if snd hb then [] else [EvSleep sleepSecondsBeforeRetry]).

(** A handle that is allocated and marked failed. *)
Definition failedHandle (w : World) (h : Handle) : Prop :=
  exists p, heap w !! h = Some p /\ isConnGood p = false.

(** A call that returns, rather than panic on a nil stub, from every
    reachable state for which a dial has succeeded or the next dial
    succeeds. *)
Definition returnsOnceConnected {K : DBStrings} {R : Type} (E : Env)
  (call : M R) : Prop :=
  forall (w : World) (n : nat),
    reachable E w -> n <= dials w -> dialOk E n = true ->
    exists r, fst (call w) = Returned r.

(** Between [w] and [w'] dials were made, and if all of them failed the
    client still points at the same handle, and no handle and no
    connection has changed. *)
Definition frozenWhileDialsFail (E : Env) (w w' : World) : Prop :=
  dials w <= dials w' /\
  ((forall n, dials w <= n -> n < dials w' -> dialOk E n = false) ->
   cli w' = cli w /\ heap w' = heap w /\ closed w' = closed w).

(* ================================================================== *)
(** * Properties of the metadata client                                *)
(* ================================================================== *)

(** ** What the shared-state operations leave alone *)

Ltac run_m :=
  cbv [bind ret get modify panic load emit sleep Close] in *; simpl in *.

Section ClientFacts.
Context {K : DBStrings} {P : Protocol}.
Variable E : Env.

Lemma connect_own w : own (snd (connect E w)) = own w.
Proof.
  unfold connect. run_m.
  destruct (heap w !! cli w) as [p|]; simpl; [|reflexivity].
  destruct (isConnGood p); simpl; [reflexivity|].
  destruct (dialOk E (dials w)); reflexivity.
Qed.

Lemma markClientFailed_own h w : own (snd (markClientFailed h w)) = own w.
Proof.
  unfold markClientFailed. run_m.
  destruct (heap w !! cli w) as [p|]; simpl; [|reflexivity].
  destruct (isConnGood p); simpl; [|reflexivity].
  destruct (Nat.eqb (cli w) h); simpl; [|reflexivity].
  destruct (conn p); reflexivity.
Qed.

Lemma runOther_own o w : own (snd (runOther E o w)) = own w.
Proof.
  destruct o as [|h]; unfold runOther, bind.
  - pose proof (connect_own w) as H.
    destruct (connect E w) as [[a|] w1]; simpl in *; exact H.
  - pose proof (markClientFailed_own h w) as H.
    destruct (markClientFailed h w) as [[a|] w1]; simpl in *; exact H.
Qed.

Lemma runOthers_own os : forall w, own (snd (runOthers E os w)) = own w.
Proof.
  induction os as [|o os IH]; intros w; simpl; [reflexivity|].
  unfold bind. pose proof (runOther_own o w) as H.
  destruct (runOther E o w) as [[a|] w1]; simpl in *; [|exact H].
  rewrite IH. exact H.
Qed.

Lemma yield_own w : own (snd (yield E w)) = own w.
Proof.
  unfold yield. run_m. rewrite runOthers_own. reflexivity.
Qed.

Lemma getCli_own w : own (snd (getCli E w)) = own w.
Proof.
  unfold getCli, bind at 1.
  pose proof (yield_own w) as Hy.
  destruct (yield E w) as [[u|] w1]; simpl in *; [|exact Hy].
  run_m.
  destruct (heap w1 !! cli w1) as [p|]; simpl; [|exact Hy].
  destruct (isConnGood p); simpl; [exact Hy|].
  pose proof (yield_own w1) as Hy1.
  destruct (yield E w1) as [[u1|] w2]; simpl in *; [|congruence].
  rewrite connect_own. congruence.
Qed.

End ClientFacts.

(** ** One attempt, one back-off *)

Section StepFacts.
Context {K : DBStrings} {P : Protocol}.
Variable E : Env.

Lemma invoke_run {Rep : Type} (h : Handle) (rpc : nat -> Rep + error) (w : World) :
  invoke h rpc w =
  match heap w !! h with
  | Some p =>
      match dbcli p with
      | Some _ => (Returned (rpc (calls w)),
                   set_calls (S (calls w)) (set_trace (trace w ++ [EvRpc h]) w))
      | None => (Panicked, set_trace (trace w ++ [EvRpc h]) w)
      end
  | None => (Panicked, set_trace (trace w ++ [EvRpc h]) w)
  end.
Proof.
  unfold invoke. run_m.
  destruct (heap w !! h) as [p|]; simpl; [|reflexivity].
  destruct (dbcli p); reflexivity.
Qed.

Lemma rpcAttempt_run {Rep Res : Type} (rpc : nat -> Rep + error)
  (post : Rep + error -> Res + error) (h : Handle) (w : World) :
  (fst (rpcAttempt rpc post h w) = Panicked /\
   calls (snd (rpcAttempt rpc post h w)) = calls w /\
   trace (snd (rpcAttempt rpc post h w)) = trace w ++ [EvRpc h]) \/
  (fst (rpcAttempt rpc post h w) = Returned (post (rpc (calls w))) /\
   calls (snd (rpcAttempt rpc post h w)) = S (calls w) /\
   trace (snd (rpcAttempt rpc post h w)) = trace w ++ [EvRpc h]).
Proof.
  unfold rpcAttempt, bind. rewrite invoke_run.
  destruct (heap w !! h) as [p|]; simpl; [|left; auto].
  destruct (dbcli p); simpl; [right|left]; auto.
Qed.

Lemma markClientFailedAndSleep_run (h : Handle) (w : World) :
  let r := markClientFailedAndSleep E h w in
  calls (snd r) = calls w /\
  ((fst r = Panicked /\ trace (snd r) = trace w) \/
   (fst r = Returned tt /\
    trace (snd r) = trace w ++ [EvMarkFailed h false; EvSleep 2]) \/
   (fst r = Returned tt /\ trace (snd r) = trace w ++ [EvMarkFailed h true])).
Proof.
  intros r. subst r.
  destruct (markClientFailedAndSleep E h w) as [o w'] eqn:Hr.
  unfold markClientFailedAndSleep, bind in Hr.
  pose proof (yield_own E w) as Hy. unfold own in Hy.
  destruct (yield E w) as [[u|] w1]; simpl in *; injection Hy as Hc Ht;
    [|injection Hr as <- <-; split; [exact Hc | left; auto]].
  pose proof (markClientFailed_own h w1) as Hm. unfold own in Hm.
  destruct (markClientFailed h w1) as [[ch|] w2]; simpl in *;
    injection Hm as Hc2 Ht2;
    [|injection Hr as <- <-; split; [congruence | left; split; [reflexivity | congruence]]].
  destruct ch; run_m; unfold sleepSecondsBeforeRetry in Hr;
    injection Hr as <- <-; simpl.
  - split; [congruence|]. right; right. split; [reflexivity|]. congruence.
  - split; [congruence|]. right; left. split; [reflexivity|].
    rewrite <- app_assoc. simpl. congruence.
Qed.

End StepFacts.

(** ** The retry envelope, attempt by attempt *)

Section EnvelopeFacts.
Context {K : DBStrings} {P : Protocol}.
Variable E : Env.
Context {Rep Res : Type}.
Variable rpc : nat -> Rep + error.
Variable post : Rep + error -> Res + error.
Variable zero : Res.
Variable v : ErrVar.

Lemma retry_S (attempt : Handle -> M (Res + error)) (n : nat) (err : option error)
  (w : World) :
  retry E attempt zero v (S n) err w =
  match getCli E w with
  | (Returned h, w1) =>
      match attempt h w1 with
      | (Returned (inl res), w2) => (Returned (res, None), w2)
      | (Returned (inr e), w2) =>
          if codes.eqb (grpc.Code e) codes.Unknown
          then (Returned (zero, Some (checkAndConvertError e)), w2)
          else
            match markClientFailedAndSleep E h w2 with
            | (Returned _, w3) =>
                retry E attempt zero v n
                  (match v with Outer => Some e | Shadowing => err end) w3
            | (Panicked, w3) => (Panicked, w3)
            end
      | (Panicked, w2) => (Panicked, w2)
      end
  | (Panicked, w1) => (Panicked, w1)
  end.
Proof.
  simpl. unfold bind.
  destruct (getCli E w) as [[h|] w1]; [|reflexivity].
  destruct (attempt h w1) as [[[res|e]|] w2]; try reflexivity.
  destruct (codes.eqb (grpc.Code e) codes.Unknown); reflexivity.
Qed.

Lemma retry_replay (n : nat) :
  forall (err : option error) (w w' : World) (r : Res * option error),
    retry E (rpcAttempt rpc post) zero v n err w = (Returned r, w') ->
    (r, calls w') = replay rpc post zero v n err (calls w).
Proof.
  induction n as [|n IH]; intros err w w' r H.
  - simpl in H. injection H as <- <-. reflexivity.
  - rewrite retry_S in H.
    pose proof (getCli_own E w) as Hg. unfold own in Hg.
    destruct (getCli E w) as [[h|] w1]; [|discriminate].
    simpl in Hg. injection Hg as Hc1 _.
    destruct (rpcAttempt_run rpc post h w1) as [(Ho & _)|(Ho & Hc2 & _)];
      destruct (rpcAttempt rpc post h w1) as [o w2]; simpl in *; subst o;
      [discriminate|].
    rewrite Hc1 in *.
    destruct (post (rpc (calls w))) as [res|e].
    + injection H as <- <-. rewrite Hc2. reflexivity.
    + destruct (codes.eqb (grpc.Code e) codes.Unknown).
      * injection H as <- <-. rewrite Hc2. reflexivity.
      * pose proof (markClientFailedAndSleep_run E h w2) as [Hc3 _].
        destruct (markClientFailedAndSleep E h w2) as [[u|] w3]; [|discriminate].
        simpl in Hc3. apply IH in H. rewrite H, Hc3, Hc2. reflexivity.
Qed.

Lemma retry_trace (n : nat) :
  forall (err : option error) (w : World),
  exists tr,
    trace (snd (retry E (rpcAttempt rpc post) zero v n err w)) = trace w ++ tr /\
    attempts_trace n tr.
Proof.
  induction n as [|n IH]; intros err w.
  - exists []. simpl. rewrite app_nil_r. split; [reflexivity | constructor].
  - rewrite retry_S.
    pose proof (getCli_own E w) as Hg. unfold own in Hg.
    destruct (getCli E w) as [[h|] w1]; simpl in Hg; injection Hg as _ Ht1;
      [|exists []; simpl; rewrite app_nil_r; split; [exact Ht1 | constructor]].
    assert (Hlast : forall w2,
               trace w2 = trace w1 ++ [EvRpc h] ->
               exists tr, trace w2 = trace w ++ tr /\ attempts_trace (S n) tr).
    { intros w2 Ht2. exists [EvRpc h]. rewrite Ht2, Ht1.
      split; [reflexivity | constructor]. }
    destruct (rpcAttempt_run rpc post h w1) as [(Ho & _ & Ht2)|(Ho & _ & Ht2)];
      destruct (rpcAttempt rpc post h w1) as [o w2]; simpl in *; subst o;
      [apply Hlast; exact Ht2|].
    destruct (post (rpc (calls w1))) as [res|e]; [apply Hlast; exact Ht2|].
    destruct (codes.eqb (grpc.Code e) codes.Unknown); [apply Hlast; exact Ht2|].
    pose proof (markClientFailedAndSleep_run E h w2) as [_ Hm].
    destruct (markClientFailedAndSleep E h w2) as [[u|] w3]; simpl in Hm.
    + destruct (IH (match v with Outer => Some e | Shadowing => err end) w3)
        as (tr & Htr & Hshape).
      destruct Hm as [(Hd & _)|[(_ & Ht3)|(_ & Ht3)]]; [discriminate| |].
      * exists (EvRpc h :: EvMarkFailed h false :: EvSleep 2 :: tr).
        split; [|constructor; exact Hshape].
        rewrite Htr, Ht3, Ht2, Ht1. rewrite <- !app_assoc. reflexivity.
      * exists (EvRpc h :: EvMarkFailed h true :: tr).
        split; [|constructor; exact Hshape].
        rewrite Htr, Ht3, Ht2, Ht1. rewrite <- !app_assoc. reflexivity.
    + destruct Hm as [(_ & Ht3)|[(Hd & _)|(Hd & _)]]; try discriminate.
      apply Hlast. simpl. congruence.
Qed.

End EnvelopeFacts.

(** ** Reading the shape of a trace *)

Lemma attempts_trace_count (n : nat) (tr : list Event) :
  attempts_trace n tr -> countRpc tr <= n.
Proof.
  induction 1; simpl; lia.
Qed.

Lemma attempts_trace_no_change (n : nat) (tr : list Event) :
  attempts_trace n tr ->
  forall pre h rest, tr = pre ++ EvMarkFailed h false :: rest ->
  exists rest', rest = EvSleep 2 :: rest'.
Proof.
  induction 1 as [n|n h0|n h0 tr Htr IH|n h0 tr Htr IH]; intros pre h rest Heq.
  - destruct pre; discriminate.
  - destruct pre as [|e [|e' pre]]; discriminate.
  - destruct pre as [|? pre]; [discriminate|].
    injection Heq as _ Heq.
    destruct pre as [|? pre].
    + injection Heq as _ <-. eauto.
    + injection Heq as _ Heq.
      destruct pre as [|? pre]; [discriminate|].
      injection Heq as _ Heq. eapply IH; eauto.
  - destruct pre as [|? pre]; [discriminate|].
    injection Heq as _ Heq.
    destruct pre as [|? pre]; [discriminate|].
    injection Heq as _ Heq. eapply IH; eauto.
Qed.

Lemma attempts_trace_changed (n : nat) (tr : list Event) :
  attempts_trace n tr ->
  forall pre h rest, tr = pre ++ EvMarkFailed h true :: rest ->
  rest = [] \/ exists h' rest', rest = EvRpc h' :: rest'.
Proof.
  induction 1 as [n|n h0|n h0 tr Htr IH|n h0 tr Htr IH]; intros pre h rest Heq.
  - destruct pre; discriminate.
  - destruct pre as [|e [|e' pre]]; discriminate.
  - destruct pre as [|? pre]; [discriminate|].
    injection Heq as _ Heq.
    destruct pre as [|? pre]; [discriminate|].
    injection Heq as _ Heq.
    destruct pre as [|? pre]; [discriminate|].
    injection Heq as _ Heq. eapply IH; eauto.
  - destruct pre as [|? pre]; [discriminate|].
    injection Heq as _ Heq.
    destruct pre as [|? pre].
    + injection Heq as _ <-. inversion Htr; subst; eauto.
    + injection Heq as _ Heq. eapply IH; eauto.
Qed.

(** ** The system-table operations *)

(** C10: for every state of the client, [CreateSystemTables] and
    [DeleteSystemTables] return nil and [SystemTablesReady] returns
    [(TableStatusActive, true, nil)]; none of them changes the state, so no
    dial and no stub invocation takes place. *)
Theorem system_tables_are_noops {K : DBStrings} (w : World) :
  CreateSystemTables w = (Returned None, w) /\
  DeleteSystemTables w = (Returned None, w) /\
  SystemTablesReady w = (Returned (TableStatusActive, true, None), w).
Proof.
  repeat split.
Qed.

(** ** Marking the connection failed *)

Lemma markClientFailed_unhealthy (h : Handle) (w : World) (p : pbclient) :
  heap w !! cli w = Some p -> isConnGood p = false ->
  markClientFailed h w = (Returned false, w).
Proof.
  intros Hp Hg. unfold markClientFailed. run_m. rewrite Hp. simpl.
  rewrite Hg. reflexivity.
Qed.

Lemma markClientFailed_replaced (h : Handle) (w : World) (p : pbclient) :
  heap w !! cli w = Some p -> isConnGood p = true -> cli w <> h ->
  markClientFailed h w = (Returned true, w).
Proof.
  intros Hp Hg Hne. unfold markClientFailed. run_m. rewrite Hp. simpl.
  rewrite Hg. simpl. apply Nat.eqb_neq in Hne. rewrite Hne. reflexivity.
Qed.

Lemma markClientFailed_current (h : Handle) (w : World) (p : pbclient) (c : ConnId) :
  heap w !! cli w = Some p -> isConnGood p = true -> cli w = h ->
  conn p = Some c ->
  markClientFailed h w =
  (Returned false,
   set_closed (c :: closed w)
     (set_heap (<[h := mkPbclient false (Some c) (dbcli p)]> (heap w)) w)).
Proof.
  intros Hp Hg He Hc. unfold markClientFailed. run_m. rewrite Hp. simpl.
  rewrite Hg. simpl. subst h. rewrite Nat.eqb_refl. simpl. rewrite Hc.
  reflexivity.
Qed.

Lemma markClientFailedAndSleep_unfold (E : Env) (h : Handle)
  (w w1 w2 : World) (changed : bool) :
  yield E w = (Returned tt, w1) ->
  markClientFailed h w1 = (Returned changed, w2) ->
  markClientFailedAndSleep E h w =
  (Returned tt,
   set_trace (trace w2 ++ EvMarkFailed h changed ::
                          (if changed then [] else [EvSleep 2])) w2).
Proof.
  intros Hy Hm. unfold markClientFailedAndSleep, bind. rewrite Hy, Hm.
  destruct changed; run_m; unfold set_trace; simpl;
    [|rewrite <- app_assoc]; reflexivity.
Qed.

(** C2 (amended): under the lock, [markClientFailed h] first looks at
    the current handle: when it is already marked unhealthy the call
    changes nothing and reports no change, whether or not it is [h];
    otherwise, when the current handle is [h], the call flips its flag to
    false, closes its connection and reports no change; otherwise a
    healthy handle has replaced [h] and the call changes nothing and
    reports a change.  [markClientFailedAndSleep] sleeps 2 seconds exactly
    when no change was reported. *)
Theorem markClientFailed_cases (E : Env) (h : Handle) (w : World) (p : pbclient) :
  heap w !! cli w = Some p ->
  (isConnGood p = false -> markClientFailed h w = (Returned false, w)) /\
  (isConnGood p = true -> cli w <> h ->
   markClientFailed h w = (Returned true, w)) /\
  (isConnGood p = true -> cli w = h -> forall c, conn p = Some c ->
   markClientFailed h w =
   (Returned false,
    set_closed (c :: closed w)
      (set_heap (<[h := mkPbclient false (Some c) (dbcli p)]> (heap w)) w))) /\
  (forall w0 w1 w2 changed,
     yield E w0 = (Returned tt, w1) ->
     markClientFailed h w1 = (Returned changed, w2) ->
     markClientFailedAndSleep E h w0 =
     (Returned tt,
      set_trace (trace w2 ++ EvMarkFailed h changed ::
                             (if changed then [] else [EvSleep 2])) w2)).
Proof.
  intros Hp. repeat split.
  - intros Hg. eapply markClientFailed_unhealthy; eauto.
  - intros Hg Hne. eapply markClientFailed_replaced; eauto.
  - intros Hg He c Hc. eapply markClientFailed_current; eauto.
  - intros w0 w1 w2 changed. apply markClientFailedAndSleep_unfold.
Qed.

(** The current, healthy handle of a freshly connected client is marked
    failed: its flag flips, connection 0 is closed, no change is
    reported. *)
Lemma markClientFailed_cases_witness :
  markClientFailed 1 worldConnected =
  (Returned false,
   mkWorld "db:27030" 1
     [mkPbclient false None None; mkPbclient false (Some 0) (Some 0)]
     1 [0] 0 0 []).
Proof.
  exact (proj1 (proj2 (proj2
           (markClientFailed_cases envUp 1 worldConnected
              (mkPbclient true (Some 0) (Some 0)) eq_refl)))
           eq_refl eq_refl 0 eq_refl).
Defined.

(** C2 as stated fails when the handle that replaced [h] is itself
    already marked unhealthy: handle 2 has replaced handle 1, and
    [markClientFailed 1] still reports no change (so the caller sleeps). *)
Lemma markClientFailed_replaced_unhealthy :
  cli worldStale = 2 /\
  heap worldStale !! 2 = Some (mkPbclient false (Some 1) (Some 1)) /\
  markClientFailed 1 worldStale = (Returned false, worldStale) /\
  trace (snd (markClientFailedAndSleep envUp 1 worldStale)) =
    [EvMarkFailed 1 false; EvSleep 2].
Proof.
  repeat split.
Qed.

(** ** A failed dial *)

Lemma connect_dial_fails (E : Env) (w : World) (p : pbclient) :
  heap w !! cli w = Some p -> isConnGood p = false ->
  dialOk E (dials w) = false ->
  connect E w = (Returned (cli w), set_dials (S (dials w)) w).
Proof.
  intros Hp Hg Hd. unfold connect. run_m. rewrite Hp. simpl.
  rewrite Hg, Hd. reflexivity.
Qed.

Section DialsFail.
Variable E : Env.
Hypothesis down : forall n, dialOk E n = false.

Lemma connect_pristine (w : World) :
  pristine w ->
  fst (connect E w) = Returned 0 /\ pristine (snd (connect E w)).
Proof.
  intros [Hc Hh].
  rewrite (connect_dial_fails E w nilClient); try reflexivity.
  - simpl. rewrite Hc. split; [reflexivity | split; assumption].
  - rewrite Hc, Hh. reflexivity.
  - apply down.
Qed.

Lemma markClientFailed_pristine (h : Handle) (w : World) :
  pristine w ->
  fst (markClientFailed h w) = Returned false /\
  pristine (snd (markClientFailed h w)).
Proof.
  intros [Hc Hh].
  rewrite (markClientFailed_unhealthy h w nilClient); try reflexivity.
  - split; [reflexivity | split; assumption].
  - rewrite Hc, Hh. reflexivity.
Qed.

Lemma runOthers_pristine (os : list Other) :
  forall w, pristine w ->
  fst (runOthers E os w) = Returned tt /\ pristine (snd (runOthers E os w)).
Proof.
  induction os as [|o os IH]; intros w Hw; simpl; [split; [reflexivity | exact Hw]|].
  unfold bind.
  assert (Ho : fst (runOther E o w) = Returned tt /\ pristine (snd (runOther E o w))).
  { destruct o as [|h]; unfold runOther, bind.
    - destruct (connect_pristine w Hw) as [Hr Hp].
      destruct (connect E w) as [o1 w1]; simpl in *; subst o1. auto.
    - destruct (markClientFailed_pristine h w Hw) as [Hr Hp].
      destruct (markClientFailed h w) as [o1 w1]; simpl in *; subst o1. auto. }
  destruct Ho as [Hr Hp].
  destruct (runOther E o w) as [o1 w1]; simpl in *; subst o1.
  apply IH. exact Hp.
Qed.

Lemma yield_pristine (w : World) :
  pristine w ->
  fst (yield E w) = Returned tt /\ pristine (snd (yield E w)).
Proof.
  intros Hw. unfold yield. run_m.
  apply runOthers_pristine. exact Hw.
Qed.

Lemma getCli_pristine (w : World) :
  pristine w ->
  fst (getCli E w) = Returned 0 /\ pristine (snd (getCli E w)).
Proof.
  intros Hw. unfold getCli, bind.
  destruct (yield_pristine w Hw) as [Hr Hp].
  destruct (yield E w) as [o1 w1]; simpl in *; subst o1.
  run_m. destruct Hp as [Hc Hh]. rewrite Hc, Hh. simpl.
  assert (Hp : pristine w1) by (split; assumption).
  destruct (yield_pristine w1 Hp) as [Hr2 Hp2].
  destruct (yield E w1) as [o2 w2]; simpl in *; subst o2.
  apply connect_pristine. exact Hp2.
Qed.

Lemma envelope_pristine_panics {K : DBStrings} {Rep Res : Type}
  (rpc : nat -> Rep + error) (post : Rep + error -> Res + error)
  (zero : Res) (v : ErrVar) (w : World) :
  pristine w ->
  fst (envelope E (rpcAttempt rpc post) zero v w) = Panicked.
Proof.
  intros Hw. unfold envelope, maxRetryCount. rewrite retry_S.
  destruct (getCli_pristine w Hw) as [Hr [Hc Hh]].
  destruct (getCli E w) as [o1 w1]; simpl in *; subst o1.
  unfold rpcAttempt, bind. rewrite invoke_run, Hh. reflexivity.
Qed.

End DialsFail.

Lemma NewControlDBCli_dial_fails (E : Env) (address : string) :
  dialOk E 0 = false ->
  NewControlDBCli E address =
  (Returned 0, mkWorld address 0 [nilClient] 1 [] 0 0 []).
Proof.
  intros Hd. unfold NewControlDBCli.
  rewrite (connect_dial_fails E _ nilClient); auto.
Qed.

(** C9 as stated fails once a dial has succeeded: the handle that a
    failed dial leaves in place is the one marked failed before, and it
    still carries its closed connection and the stub built over it; the
    method is invoked on that stub and the transport error comes back. *)
Lemma dial_failure_keeps_closed_stub :
  dialOk envOnce (dials worldFailed) = false /\
  fst (getCli envOnce worldFailed) = Returned 1 /\
  heap (snd (getCli envOnce worldFailed)) !! 1 =
    Some (mkPbclient false (Some 0) (Some 0)) /\
  fst (@CreateDevice sampleStrings sampleProtocol envOnce
         (scriptedServer (fun _ => Some (RpcError codes.Canceled "closing")) noStreams)
         "dev" worldFailed) =
    Returned (Some (RpcError codes.Canceled "closing")).
Proof.
  repeat split.
Qed.

(** ** What the envelope returns *)

Section ErrorKinds.
Context {K : DBStrings}.

Lemma codes_eqb_eq (a b : codes.Code) : codes.eqb a b = true <-> a = b.
Proof.
  split; [|intros ->; destruct b; reflexivity].
  destruct a, b; simpl; intros H; try reflexivity; discriminate.
Qed.

Lemma codes_eqb_transport (e : error) :
  codes.eqb (grpc.Code e) codes.Unknown = false <-> transportError e.
Proof.
  unfold transportError. rewrite <- codes_eqb_eq.
  destruct (codes.eqb (grpc.Code e) codes.Unknown); split; intros H;
    try reflexivity; try discriminate; try (intros H'; discriminate).
  exfalso. apply H. reflexivity.
Qed.

Lemma checkAndConvertError_cases (e : error) :
  (knownDescription (grpc.ErrorDesc e) /\ exists x, checkAndConvertError e = DbError x) \/
  (~ knownDescription (grpc.ErrorDesc e) /\ checkAndConvertError e = e).
Proof.
  unfold checkAndConvertError, knownDescription.
  destruct (String.eqb_spec (grpc.ErrorDesc e) StrErrDBInternal) as [H1|H1];
    [left; split; [tauto | eauto]|].
  destruct (String.eqb_spec (grpc.ErrorDesc e) StrErrDBInvalidRequest) as [H2|H2];
    [left; split; [tauto | eauto]|].
  destruct (String.eqb_spec (grpc.ErrorDesc e) StrErrDBRecordNotFound) as [H3|H3];
    [left; split; [tauto | eauto]|].
  destruct (String.eqb_spec (grpc.ErrorDesc e) StrErrDBConditionalCheckFailed) as [H4|H4];
    [left; split; [tauto | eauto]|].
  right. split; [tauto | reflexivity].
Qed.


End ErrorKinds.

Section ReplayFacts.
Context {K : DBStrings}.
Context {Rep Res : Type}.
Variable rpc : nat -> Rep + error.
Variable post : Rep + error -> Res + error.
Variable zero : Res.
Variable v : ErrVar.

Lemma transportFailures_shift (c k : nat) (e : error) :
  post (rpc c) = inr e -> transportError e ->
  transportFailures rpc post (S c) k -> transportFailures rpc post c (S k).
Proof.
  intros He Ht H j Hj. destruct j as [|j].
  - rewrite Nat.add_0_r. eauto.
  - destruct (H j ltac:(lia)) as (e' & He' & Ht').
    replace (c + S j) with (S c + j) by lia. eauto.
Qed.

Lemma transportFailures_unshift (c k : nat) :
  transportFailures rpc post c (S k) ->
  (exists e, post (rpc c) = inr e /\ transportError e) /\
  transportFailures rpc post (S c) k.
Proof.
  intros H. split.
  - destruct (H 0 ltac:(lia)) as (e & He & Ht). rewrite Nat.add_0_r in He. eauto.
  - intros j Hj. destruct (H (S j) ltac:(lia)) as (e & He & Ht).
    replace (c + S j) with (S c + j) in He by lia. eauto.
Qed.

(** The three ways an envelope of [n] attempts can end. *)
Lemma replay_inv (n : nat) :
  forall (err : option error) (c : nat),
  (exists k res, k < n /\ transportFailures rpc post c k /\
     post (rpc (c + k)) = inl res /\
     replay rpc post zero v n err c = ((res, None), c + k + 1)) \/
  (exists k e, k < n /\ transportFailures rpc post c k /\
     post (rpc (c + k)) = inr e /\ applicationError e /\
     replay rpc post zero v n err c = ((zero, Some (checkAndConvertError e)), c + k + 1)) \/
  (transportFailures rpc post c n /\
   exists err', replay rpc post zero v n err c = ((zero, err'), c + n) /\
     match v with
     | Shadowing => err' = err
     | Outer =>
         match n with
         | O => err' = err
         | S m => exists e, post (rpc (c + m)) = inr e /\ err' = Some e
         end
     end).
Proof.
  induction n as [|n IH]; intros err c.
  - right; right. split; [intros j Hj; lia|].
    exists err. simpl. rewrite Nat.add_0_r. split; [reflexivity|].
    destruct v; reflexivity.
  - simpl. destruct (post (rpc c)) as [res|e] eqn:Hp.
    + left. exists 0, res. rewrite !Nat.add_0_r.
      refine (conj _ (conj _ (conj Hp _))); [lia | intros j Hj; lia | f_equal; lia].
    + destruct (codes.eqb (grpc.Code e) codes.Unknown) eqn:Hc.
      * right; left. exists 0, e. rewrite !Nat.add_0_r.
        apply codes_eqb_eq in Hc.
        refine (conj _ (conj _ (conj Hp (conj Hc _))));
          [lia | intros j Hj; lia | f_equal; lia].
      * apply codes_eqb_transport in Hc.
        destruct (IH (match v with Outer => Some e | Shadowing => err end) (S c))
          as [(k & res & Hk & Hf & Hr & Heq)|[(k & e' & Hk & Hf & Hr & Ha & Heq)
             |(Hf & err' & Heq & Hv)]].
        -- left. exists (S k), res.
           replace (c + S k) with (S c + k) by lia.
           refine (conj _ (conj _ (conj Hr _)));
             [lia | eapply transportFailures_shift; eauto |].
           exact Heq.
        -- right; left. exists (S k), e'.
           replace (c + S k) with (S c + k) by lia.
           refine (conj _ (conj _ (conj Hr (conj Ha _))));
             [lia | eapply transportFailures_shift; eauto |].
           exact Heq.
        -- right; right. split; [eapply transportFailures_shift; eauto|].
           exists err'. split; [rewrite Heq; f_equal; lia|].
           destruct v; [|exact Hv].
           destruct n as [|m].
           ++ exists e. rewrite Nat.add_0_r. split; [exact Hp | exact Hv].
           ++ destruct Hv as (e' & He' & ->). exists e'.
              replace (c + S m) with (S c + m) by lia.
              split; [exact He' | reflexivity].
Qed.

End ReplayFacts.

Lemma attempts_trace_head (n : nat) (tr : list Event) :
  attempts_trace n tr -> tr = [] \/ exists h t, tr = EvRpc h :: t.
Proof.
  destruct 1; eauto.
Qed.

Lemma attempts_trace_between (n : nat) (tr : list Event) :
  attempts_trace n tr ->
  forall pre h mid h' rest,
    tr = pre ++ EvRpc h :: mid ++ EvRpc h' :: rest ->
    countRpc mid = 0 ->
    mid = [EvMarkFailed h false; EvSleep 2] \/ mid = [EvMarkFailed h true].
Proof.
  induction 1 as [n|n h0|n h0 tr Htr IH|n h0 tr Htr IH];
    intros pre h mid h' rest Heq Hmid.
  - destruct pre; discriminate.
  - destruct pre as [|? pre]; injection Heq as _ Heq;
      [destruct mid | destruct pre]; discriminate.
  - destruct pre as [|? pre]; injection Heq as Hh Heq.
    + destruct mid as [|m1 mid]; [discriminate|]. injection Heq as <- Heq.
      destruct mid as [|m2 mid]; [discriminate|]. injection Heq as <- Heq.
      destruct mid as [|m3 mid]; [left; congruence|].
      destruct (attempts_trace_head _ _ Htr) as [->|(h1 & t & ->)];
        [discriminate|].
      injection Heq as <- _. simpl in Hmid. discriminate.
    + destruct pre as [|? pre]; [discriminate|]. injection Heq as _ Heq.
      destruct pre as [|? pre]; [discriminate|]. injection Heq as _ Heq.
      eapply IH; eauto.
  - destruct pre as [|? pre]; injection Heq as Hh Heq.
    + destruct mid as [|m1 mid]; [discriminate|]. injection Heq as <- Heq.
      destruct mid as [|m2 mid]; [right; congruence|].
      destruct (attempts_trace_head _ _ Htr) as [->|(h1 & t & ->)];
        [discriminate|].
      injection Heq as <- _. simpl in Hmid. discriminate.
    + destruct pre as [|? pre]; [discriminate|]. injection Heq as _ Heq.
      eapply IH; eauto.
Qed.

Lemma markClientFailed_same_handle (h : Handle) (w : World) :
  cli w = h ->
  fst (markClientFailed h w) = Returned false \/
  fst (markClientFailed h w) = Panicked.
Proof.
  intros He. unfold markClientFailed. run_m.
  destruct (heap w !! cli w) as [p|]; simpl; [|right; reflexivity].
  destruct (isConnGood p); simpl; [|left; reflexivity].
  subst h. rewrite Nat.eqb_refl. simpl.
  destruct (conn p); simpl; [left | right]; reflexivity.
Qed.

Section EnvelopeEnds.
Context {K : DBStrings}.
Variable E : Env.
Context {Rep Res : Type}.
Variable rpc : nat -> Rep + error.
Variable post : Rep + error -> Res + error.
Variable zero : Res.
Variable v : ErrVar.

(** How a call ends: in a panic, with the result of the first attempt
    that did not fail at the transport level, or after three transport
    failures. *)
Lemma envelope_ends (w : World) :
  let run := envelope E (rpcAttempt rpc post) zero v w in
  let c := calls w in
  fst run = Panicked \/
  (exists k res, k < 3 /\ transportFailures rpc post c k /\
     post (rpc (c + k)) = inl res /\
     fst run = Returned (res, None) /\ calls (snd run) = c + k + 1) \/
  (exists k e, k < 3 /\ transportFailures rpc post c k /\
     post (rpc (c + k)) = inr e /\ applicationError e /\
     fst run = Returned (zero, Some (checkAndConvertError e)) /\
     calls (snd run) = c + k + 1) \/
  (transportFailures rpc post c 3 /\
   exists err', fst run = Returned (zero, err') /\ calls (snd run) = c + 3 /\
     match v with
     | Shadowing => err' = None
     | Outer => exists e, post (rpc (c + 2)) = inr e /\ err' = Some e
     end).
Proof.
  intros run c. subst run c. unfold envelope, maxRetryCount.
  destruct (retry E (rpcAttempt rpc post) zero v 3 None w) as [[r|] w'] eqn:Hrun;
    [|left; reflexivity].
  right. apply retry_replay in Hrun. simpl fst. simpl snd.
  destruct (replay_inv rpc post zero v 3 None (calls w))
    as [(k & res & Hk & Hf & Hr & Heq)|[(k & e & Hk & Hf & Hr & Ha & Heq)
       |(Hf & err' & Heq & Hv)]];
    rewrite Heq in Hrun; injection Hrun as -> ->.
  - left. exists k, res. auto.
  - right; left. exists k, e. auto 7.
  - right; right. split; [exact Hf|]. exists err'.
    split; [reflexivity|]. split; [reflexivity|]. exact Hv.
Qed.

(** Two attempts cannot both be the first without a transport failure. *)
Lemma transportFailures_then (c k k' : nat) (e : error) :
  transportFailures rpc post c k' -> post (rpc (c + k)) = inr e ->
  applicationError e -> k' <= k.
Proof.
  intros Hf Hr Ha. destruct (le_lt_dec k' k) as [|Hlt]; [assumption|].
  destruct (Hf k Hlt) as (e' & He' & Ht). rewrite Hr in He'.
  injection He' as <-. contradiction.
Qed.

Lemma transportFailures_not_success (c k k' : nat) (res : Res) :
  transportFailures rpc post c k' -> post (rpc (c + k)) = inl res -> k' <= k.
Proof.
  intros Hf Hr. destruct (le_lt_dec k' k) as [|Hlt]; [assumption|].
  destruct (Hf k Hlt) as (e' & He' & Ht). rewrite Hr in He'. discriminate.
Qed.

End EnvelopeEnds.

(** ** Transport errors and the caller *)




(** The methods whose loop body declares an [err] of its own
    ([GetDevice], [GetService], [DeleteService], [GetServiceAttr],
    [DeleteServiceAttr], [GetVolume], [DeleteVolume], [GetConfigFile],
    [DeleteConfigFile]) return the function-level [err], still nil, after
    three transport failures. *)
Lemma shadowed_error_is_lost {K : DBStrings}
  (E : Env) {Rep Res : Type} (rpc : nat -> Rep + error)
  (post : Rep + error -> Res + error) (zero : Res) (w : World) :
  transportFailures rpc post (calls w) 3 ->
  fst (envelope E (rpcAttempt rpc post) zero Shadowing w) = Panicked \/
  fst (envelope E (rpcAttempt rpc post) zero Shadowing w) = Returned (zero, None).
Proof.
  intros Hf.
  destruct (envelope_ends E rpc post zero Shadowing w)
    as [Hp|[(k & r & Hk & _ & Hk' & _)|[(k & e0 & Hk & _ & Hk' & Ha & _)
       |(_ & err' & Hr & _ & ->)]]].
  - left. exact Hp.
  - pose proof (transportFailures_not_success rpc post _ _ _ _ Hf Hk'). lia.
  - pose proof (transportFailures_then rpc post _ _ _ _ Hf Hk' Ha). lia.
  - right. exact Hr.
Qed.

Example get_service_on_unreachable_server :
  fst (@GetService sampleStrings sampleProtocol envUp serverUnavailable
         "cluster1" "service-0" worldConnected) = Returned (None, None) /\
  fst (@DeleteService sampleStrings sampleProtocol envUp serverUnavailable
         "cluster1" "service-0" worldConnected) = Returned None.
Proof.
  split; reflexivity.
Qed.

(** ** Application errors

    The statement on application errors speaks of the states a client
    reaches and comes with them, further down. *)

(** C3 as stated fails for an application error with any other
    description: it is returned as it came, and is none of the four
    enumerated kinds. *)
Lemma application_error_outside_enumeration :
  grpc.Code diskFull = codes.Unknown /\
  @checkAndConvertError sampleStrings diskFull = diskFull /\
  fst (@CreateDevice sampleStrings sampleProtocol envUp serverDiskFull
         "dev" worldConnected) = Returned (Some diskFull).
Proof.
  repeat split.
Qed.

(** ** Attempts and back-off *)

Lemma retry_calls {K : DBStrings} (E : Env) {Rep Res : Type}
  (rpc : nat -> Rep + error) (post : Rep + error -> Res + error)
  (zero : Res) (v : ErrVar) (n : nat) :
  forall (err : option error) (w : World),
    calls (snd (retry E (rpcAttempt rpc post) zero v n err w)) <= calls w + n.
Proof.
  induction n as [|n IH]; intros err w; [simpl; lia|].
  rewrite retry_S.
  pose proof (getCli_own E w) as Hg. unfold own in Hg.
  destruct (getCli E w) as [[h|] w1]; simpl in Hg; injection Hg as Hc1 _;
    [|simpl; lia].
  destruct (rpcAttempt_run rpc post h w1) as [(Ho & Hc2 & _)|(Ho & Hc2 & _)];
    destruct (rpcAttempt rpc post h w1) as [o w2]; simpl in *; subst o; simpl;
    [lia|].
  destruct (post (rpc (calls w1))) as [res|e]; [simpl; lia|].
  destruct (codes.eqb (grpc.Code e) codes.Unknown); [simpl; lia|].
  pose proof (markClientFailedAndSleep_run E h w2) as [Hc3 _].
  destruct (markClientFailedAndSleep E h w2) as [[u|] w3]; simpl in Hc3.
  - specialize (IH (match v with Outer => Some e | Shadowing => err end) w3). lia.
  - simpl. lia.
Qed.

(** C4: a call makes at most three attempts (there is no fourth stub
    invocation); between two consecutive attempts lies exactly one
    [markClientFailed] on the handle of the failed attempt, followed by a
    sleep of 2 seconds when it reported no change and by nothing when it
    reported a change; and with an unchanged handle [markClientFailed]
    never reports a change, so the 2 seconds are slept.  The reports are
    those of the calls made: an attempt that fails with a transport error
    is followed by [markClientFailed] on its handle, run on the shared
    state, then by the sleep exactly when that call returned false, and
    then by the attempts that are left; the call is three such attempts,
    and with no attempt left it returns at once. *)
Theorem at_most_three_attempts_with_backoff {K : DBStrings}
  (E : Env) {Rep Res : Type} (rpc : nat -> Rep + error)
  (post : Rep + error -> Res + error) (zero : Res) (v : ErrVar) (w : World) :
  let run := envelope E (rpcAttempt rpc post) zero v w in
  maxRetryCount = 3 /\ sleepSecondsBeforeRetry = 2%Z /\
  calls (snd run) <= calls w + 3 /\
  (exists tr,
     trace (snd run) = trace w ++ tr /\
     countRpc tr <= 3 /\
     forall pre h mid h' rest,
       tr = pre ++ EvRpc h :: mid ++ EvRpc h' :: rest ->
       countRpc mid = 0 ->
       mid = [EvMarkFailed h false; EvSleep 2] \/ mid = [EvMarkFailed h true]) /\
  (forall (h : Handle) (w1 : World),
     cli w1 = h ->
     fst (markClientFailed h w1) = Returned false \/
     fst (markClientFailed h w1) = Panicked) /\
  run = retry E (rpcAttempt rpc post) zero v 3 None w /\
  (forall (err : option error) (w0 : World),
     retry E (rpcAttempt rpc post) zero v 0 err w0 = (Returned (zero, err), w0)) /\
  (forall (n : nat) (err : option error) (w0 w1 w2 w3 w4 : World)
          (h : Handle) (e : error) (changed : bool),
     getCli E w0 = (Returned h, w1) ->
     rpcAttempt rpc post h w1 = (Returned (inr e), w2) ->
     transportError e ->
     yield E w2 = (Returned tt, w3) ->
     markClientFailed h w3 = (Returned changed, w4) ->
     retry E (rpcAttempt rpc post) zero v (S n) err w0 =
     retry E (rpcAttempt rpc post) zero v n
       (match v with Outer => Some e | Shadowing => err end)
       (set_trace (trace w4 ++ EvMarkFailed h changed ::
                     (if changed then [] else [EvSleep sleepSecondsBeforeRetry])) w4)).
Proof.
  intros run.
  split; [reflexivity|]. split; [reflexivity|].
  split; [|split; [|split; [|split; [|split]]]].
  - apply (retry_calls E rpc post zero v 3).
  - destruct (retry_trace E rpc post zero v 3 None w) as (tr & Htr & Hshape).
    exists tr. split; [exact Htr|]. split.
    + apply (attempts_trace_count 3). exact Hshape.
    + apply (attempts_trace_between 3). exact Hshape.
  - apply markClientFailed_same_handle.
  - reflexivity.
  - intros err w0. reflexivity.
  - intros n err w0 w1 w2 w3 w4 h e changed Hg Ha Ht Hy Hm.
    rewrite retry_S, Hg, Ha.
    apply codes_eqb_transport in Ht. rewrite Ht.
    rewrite (markClientFailedAndSleep_unfold E h w2 w3 w4 changed Hy Hm).
    reflexivity.
Qed.

(** An unreachable server: [CreateDevice] invokes the stub three times,
    and between the first two attempts it marks handle 1 failed and sleeps
    2 seconds; the first attempt is followed by [markClientFailed 1], which
    closes connection 0 and returns false, by the sleep, and by the two
    attempts that are left. *)
Lemma at_most_three_attempts_with_backoff_witness :
  calls (snd (@envelope sampleStrings envUp _
                (unary (fun n => rpcCreateDevice serverUnavailable n "dev")
                       (fun _ => tt)) tt Outer worldConnected)) <= 3 /\
  ([EvMarkFailed 1 false; EvSleep 2] = [EvMarkFailed 1 false; EvSleep 2] \/
   [EvMarkFailed 1 false; EvSleep 2] = [EvMarkFailed 1 true]) /\
  @retry sampleStrings envUp _
    (unary (fun n => rpcCreateDevice serverUnavailable n "dev") (fun _ => tt))
    tt Outer 3 None worldConnected =
  @retry sampleStrings envUp _
    (unary (fun n => rpcCreateDevice serverUnavailable n "dev") (fun _ => tt))
    tt Outer 2 (Some unavailable)
    (mkWorld "db:27030" 1
       [mkPbclient false None None; mkPbclient false (Some 0) (Some 0)]
       1 [0] 1 2 [EvRpc 1; EvMarkFailed 1 false; EvSleep 2]).
Proof.
  destruct (@at_most_three_attempts_with_backoff sampleStrings envUp _ _
              (fun n => rpcCreateDevice serverUnavailable n "dev")
              (fun r => match r with inl _ => inl tt | inr e => inr e end)
              tt Outer worldConnected)
    as (_ & _ & Hcalls & (tr & Htr & _ & Hbetween) & _ & _ & _ & Hstep).
  split; [exact Hcalls|]. split.
  - apply (Hbetween [] 1 [EvMarkFailed 1 false; EvSleep 2] 2
             [EvMarkFailed 2 false; EvSleep 2; EvRpc 3; EvMarkFailed 3 false; EvSleep 2]);
      [|reflexivity].
    vm_compute in Htr. subst tr. reflexivity.
  - apply (Hstep 2 None worldConnected
             (mkWorld "db:27030" 1
                [mkPbclient false None None; mkPbclient true (Some 0) (Some 0)]
                1 [] 0 1 [])
             (mkWorld "db:27030" 1
                [mkPbclient false None None; mkPbclient true (Some 0) (Some 0)]
                1 [] 1 1 [EvRpc 1])
             (mkWorld "db:27030" 1
                [mkPbclient false None None; mkPbclient true (Some 0) (Some 0)]
                1 [] 1 2 [EvRpc 1])
             (mkWorld "db:27030" 1
                [mkPbclient false None None; mkPbclient false (Some 0) (Some 0)]
                1 [0] 1 2 [EvRpc 1])
             1 unavailable false);
      try reflexivity.
    discriminate.
Defined.

(** An unreachable server: three attempts, each followed by the 2-second
    sleep, and no fourth. *)
Example three_attempts_then_give_up :
  trace (snd (@CreateDevice sampleStrings sampleProtocol envUp serverUnavailable
                "dev" worldConnected)) =
  [EvRpc 1; EvMarkFailed 1 false; EvSleep 2;
   EvRpc 2; EvMarkFailed 2 false; EvSleep 2;
   EvRpc 3; EvMarkFailed 3 false; EvSleep 2].
Proof.
  reflexivity.
Qed.

(** Another request that has already reconnected: the failed attempt is
    retried at once, without the sleep. *)
Example reconnected_by_another_request :
  trace (snd (@CreateDevice sampleStrings sampleProtocol
                (mkEnv (fun _ => true)
                       (fun n => if Nat.eqb n 1
                                 then [OtherMarkFailed 1; OtherConnect] else []))
                (scriptedServer
                   (fun n => if Nat.eqb n 0 then Some unavailable else None)
                   noStreams)
                "dev" worldConnected)) =
  [EvRpc 1; EvMarkFailed 1 true; EvRpc 2].
Proof.
  reflexivity.
Qed.

(** ** List calls *)

Lemma recvAll_spec {A B : Type} (conv : A -> B) (pending : list A) (fin : error) :
  forall got,
    recvAll conv pending fin got =
    match fin with
    | EOF => inl (got ++ map conv pending)
    | e => inr e
    end.
Proof.
  induction pending as [|x rest IH]; intros got; simpl.
  - rewrite app_nil_r. destruct fin; reflexivity.
  - rewrite IH. rewrite <- app_assoc. reflexivity.
Qed.

Lemma drain_whole {A B : Type} (conv : A -> B) (xs : list A) :
  drain conv (inl (mkStream xs EOF)) = inl (map conv xs).
Proof.
  simpl. rewrite recvAll_spec. reflexivity.
Qed.

Lemma drain_broken {A B : Type} (conv : A -> B) (xs : list A) (fin : error) :
  fin <> EOF -> drain conv (inl (mkStream xs fin)) = inr fin.
Proof.
  intros Hne. simpl. rewrite recvAll_spec. destruct fin; congruence.
Qed.

Lemma drain_inl {A B : Type} (conv : A -> B) (r : ServerStream A + error)
  (got : list B) :
  drain conv r = inl got ->
  exists s, r = inl s /\ final s = EOF /\ got = map conv (items s).
Proof.
  destruct r as [s|e]; simpl; [|discriminate].
  rewrite recvAll_spec. intros H. exists s.
  destruct (final s); try discriminate. injection H as <-. auto.
Qed.

Lemma drain_inr {A B : Type} (conv : A -> B) (r : ServerStream A + error)
  (e : error) :
  drain conv r = inr e <-> streamError r = Some e.
Proof.
  destruct r as [s|e0]; simpl.
  - rewrite recvAll_spec. destruct (final s); split; intros H;
      try discriminate; injection H as <-; reflexivity.
  - split; intros H; injection H as <-; reflexivity.
Qed.

Lemma transportFailures_broken {A B : Type} (conv : A -> B)
  (rpc : nat -> ServerStream A + error) (c k : nat) :
  transportFailures rpc (drain conv) c k -> brokenAttempts rpc c k.
Proof.
  intros H j Hj. destruct (H j Hj) as (e & He & Ht).
  exists e. split; [apply (drain_inr conv); exact He | exact Ht].
Qed.

Section ListFacts.
Context {K : DBStrings}.
Variable E : Env.

Lemma listOnce_wholeStreamOrNothing {A B : Type}
  (rpc : nat -> ServerStream A + error) (conv : A -> B) :
  wholeStreamOrNothing rpc conv (envelope E (listOnce rpc conv) [] Outer).
Proof.
  intros w run c. unfold listOnce in run.
  destruct (envelope_ends E rpc (drain conv) [] Outer w)
    as [Hp|[(k & r & Hk & Hf & Hr & Hrun & Hc)|[(k & e & Hk & Hf & Hr & Ha & Hrun & Hc)
       |(Hf & err' & Hrun & Hc & e & Hr & ->)]]].
  - left. exact Hp.
  - right; left. apply drain_inl in Hr. destruct Hr as (s & Hs & Hfin & ->).
    exists k, s. apply (transportFailures_broken conv) in Hf. auto 7.
  - right; right; left. exists k, e.
    apply (transportFailures_broken conv) in Hf. apply drain_inr in Hr. auto 7.
  - right; right; right. apply (transportFailures_broken conv) in Hf.
    split; [exact Hf|]. exists e. apply drain_inr in Hr. auto.
Qed.

End ListFacts.

(** A stream that breaks after two devices, then a complete stream of
    three: the caller gets the three, and nothing of the broken stream. *)
Example broken_stream_is_retried_from_scratch :
  fst (@ListDevices sampleStrings sampleProtocol envUp
         (scriptedServer (fun _ => None)
            (fun n => if Nat.eqb n 0
                      then mkStream ["/dev/loop1"; "/dev/loop2"] unavailable
                      else mkStream ["/dev/loop1"; "/dev/loop2"; "/dev/loop3"] EOF))
         "cluster1" worldConnected) =
  Returned (["/dev/loop1"; "/dev/loop2"; "/dev/loop3"], None).
Proof.
  reflexivity.
Qed.


(* ================================================================== *)
(** * The connection state of the metadata client                      *)
(* ================================================================== *)

(** ** The two critical sections, case by case *)

Lemma connect_run (E : Env) (w : World) (p : pbclient) :
  heap w !! cli w = Some p ->
  connect E w =
  if isConnGood p then (Returned (cli w), w)
  else if dialOk E (dials w)
  then (Returned (length (heap w)),
        set_cli (length (heap w))
          (set_heap (heap w ++ [mkPbclient true (Some (dials w)) (Some (dials w))])
             (set_dials (S (dials w)) w)))
  else (Returned (cli w), set_dials (S (dials w)) w).
Proof.
  intros Hp. unfold connect. run_m. rewrite Hp. simpl.
  destruct (isConnGood p); [reflexivity|].
  destruct (dialOk E (dials w)); reflexivity.
Qed.

Lemma markClientFailed_run (h : Handle) (w : World) (p : pbclient) :
  heap w !! cli w = Some p ->
  markClientFailed h w =
  if negb (isConnGood p) then (Returned false, w)
  else if negb (Nat.eqb (cli w) h) then (Returned true, w)
  else match conn p with
       | Some c =>
           (Returned false,
            set_closed (c :: closed w)
              (set_heap (<[cli w := mkPbclient false (conn p) (dbcli p)]> (heap w)) w))
       | None =>
           (Panicked,
            set_heap (<[cli w := mkPbclient false (conn p) (dbcli p)]> (heap w)) w)
       end.
Proof.
  intros Hp. unfold markClientFailed. run_m. rewrite Hp. simpl.
  destruct (isConnGood p); simpl; [|reflexivity].
  destruct (Nat.eqb (cli w) h); simpl; [|reflexivity].
  destruct (conn p); reflexivity.
Qed.

(** ** Handles are never revived *)

Lemma evolves_refl (w : World) : evolves w w.
Proof.
  split; [lia|]. split; [apply incl_refl|].
  intros h p Hp. exists p. auto.
Qed.

Lemma evolves_trans (w1 w2 w3 : World) :
  evolves w1 w2 -> evolves w2 w3 -> evolves w1 w3.
Proof.
  intros (Hd1 & Hc1 & Hh1) (Hd2 & Hc2 & Hh2).
  split; [lia|]. split; [eapply incl_tran; eauto|].
  intros h p Hp.
  destruct (Hh1 h p Hp) as (p2 & Hp2 & Hconn2 & Hstub2 & Hbad2).
  destruct (Hh2 h p2 Hp2) as (p3 & Hp3 & Hconn3 & Hstub3 & Hbad3).
  exists p3. split; [exact Hp3|]. split; [congruence|]. split; [congruence|].
  auto.
Qed.

Lemma evolves_shared (w w' : World) :
  heap w' = heap w -> dials w' = dials w -> closed w' = closed w ->
  evolves w w'.
Proof.
  intros Hh Hd Hc. split; [lia|]. split; [rewrite Hc; apply incl_refl|].
  intros h p Hp. exists p. rewrite Hh. auto.
Qed.

Lemma connect_evolves (E : Env) (w : World) : evolves w (snd (connect E w)).
Proof.
  destruct (heap w !! cli w) as [p|] eqn:Hp.
  - rewrite (connect_run E w p Hp).
    destruct (isConnGood p); [apply evolves_refl|].
    destruct (dialOk E (dials w)); simpl.
    + split; [simpl; lia|]. split; [apply incl_refl|].
      intros h q Hq. exists q. simpl.
      split; [apply lookup_app_l_Some; exact Hq | auto].
    + split; [simpl; lia|]. split; [apply incl_refl|].
      intros h q Hq. exists q. auto.
  - unfold connect. run_m. rewrite Hp. apply evolves_refl.
Qed.

Lemma markClientFailed_evolves (h : Handle) (w : World) :
  evolves w (snd (markClientFailed h w)).
Proof.
  destruct (heap w !! cli w) as [p|] eqn:Hp.
  - rewrite (markClientFailed_run h w p Hp).
    destruct (isConnGood p) eqn:Hg; simpl; [|apply evolves_refl].
    destruct (Nat.eqb (cli w) h); simpl; [|apply evolves_refl].
    assert (Hheap : forall h0 q, heap w !! h0 = Some q ->
              exists q', <[cli w := mkPbclient false (conn p) (dbcli p)]> (heap w) !! h0
                         = Some q' /\ conn q' = conn q /\ dbcli q' = dbcli q /\
                         (isConnGood q = false -> isConnGood q' = false)).
    { intros h0 q Hq. destruct (Nat.eq_dec (cli w) h0) as [<-|Hne].
      - exists (mkPbclient false (conn p) (dbcli p)).
        rewrite list_lookup_insert_eq by (eapply lookup_lt_Some; eauto).
        pose proof (eq_trans (eq_sym Hq) Hp) as Heq. injection Heq as ->. auto.
      - exists q. rewrite list_lookup_insert_ne by exact Hne. auto. }
    destruct (conn p) as [c|]; simpl.
    + split; [simpl; lia|]. split; [simpl; apply incl_tl, incl_refl | exact Hheap].
    + split; [simpl; lia|]. split; [simpl; apply incl_refl | exact Hheap].
  - unfold markClientFailed. run_m. rewrite Hp. apply evolves_refl.
Qed.

(** ** What every step of a request keeps *)

Section Preserved.
Context {K : DBStrings}.
Variable E : Env.
Variable Q : World -> Prop.
Hypothesis Q_connect : forall w, Q w -> Q (snd (connect E w)).
Hypothesis Q_mark : forall h w, Q w -> Q (snd (markClientFailed h w)).
Hypothesis Q_own : forall w w',
  cli w' = cli w -> heap w' = heap w -> dials w' = dials w ->
  closed w' = closed w -> Q w -> Q w'.

Lemma runOther_keeps (o : Other) (w : World) : Q w -> Q (snd (runOther E o w)).
Proof.
  intros H. destruct o as [|h]; unfold runOther, bind.
  - apply Q_connect in H. destruct (connect E w) as [[a|] w1]; exact H.
  - apply (Q_mark h) in H. destruct (markClientFailed h w) as [[a|] w1]; exact H.
Qed.

Lemma runOthers_keeps (os : list Other) :
  forall w, Q w -> Q (snd (runOthers E os w)).
Proof.
  induction os as [|o os IH]; intros w H; simpl; [exact H|].
  unfold bind. apply (runOther_keeps o) in H.
  destruct (runOther E o w) as [[a|] w1]; simpl in *; [apply IH|]; exact H.
Qed.

Lemma yield_keeps (w : World) : Q w -> Q (snd (yield E w)).
Proof.
  intros H. unfold yield. run_m. apply runOthers_keeps.
  eapply Q_own; [| | | |exact H]; reflexivity.
Qed.

Lemma getCli_keeps (w : World) : Q w -> Q (snd (getCli E w)).
Proof.
  intros H. unfold getCli, bind at 1.
  apply yield_keeps in H.
  destruct (yield E w) as [[u|] w1]; simpl in *; [|exact H].
  run_m.
  destruct (heap w1 !! cli w1) as [p|]; simpl; [|exact H].
  destruct (isConnGood p); simpl; [exact H|].
  apply yield_keeps in H.
  destruct (yield E w1) as [[u1|] w2]; simpl in *; [|exact H].
  apply Q_connect. exact H.
Qed.

Lemma markClientFailedAndSleep_keeps (h : Handle) (w : World) :
  Q w -> Q (snd (markClientFailedAndSleep E h w)).
Proof.
  intros H. unfold markClientFailedAndSleep, bind.
  apply yield_keeps in H.
  destruct (yield E w) as [[u|] w1]; simpl in *; [|exact H].
  apply (Q_mark h) in H.
  destruct (markClientFailed h w1) as [[ch|] w2]; simpl in *; [|exact H].
  destruct ch; run_m; (eapply Q_own; [| | | |exact H]; reflexivity).
Qed.

Lemma rpcAttempt_keeps {Rep Res : Type} (rpc : nat -> Rep + error)
  (post : Rep + error -> Res + error) (h : Handle) (w : World) :
  Q w -> Q (snd (rpcAttempt rpc post h w)).
Proof.
  intros H. unfold rpcAttempt, bind. rewrite invoke_run.
  destruct (heap w !! h) as [p|]; simpl;
    [destruct (dbcli p); simpl|];
    (eapply Q_own; [| | | |exact H]; reflexivity).
Qed.

Lemma retry_keeps {Rep Res : Type} (rpc : nat -> Rep + error)
  (post : Rep + error -> Res + error) (zero : Res) (v : ErrVar) (n : nat) :
  forall (err : option error) (w : World),
    Q w -> Q (snd (retry E (rpcAttempt rpc post) zero v n err w)).
Proof.
  induction n as [|n IH]; intros err w H; [exact H|].
  rewrite retry_S.
  apply getCli_keeps in H.
  destruct (getCli E w) as [[h|] w1]; simpl in H; [|exact H].
  apply (rpcAttempt_keeps rpc post h) in H.
  destruct (rpcAttempt rpc post h w1) as [[[res|e]|] w2]; simpl in H;
    try exact H.
  destruct (codes.eqb (grpc.Code e) codes.Unknown); [exact H|].
  apply (markClientFailedAndSleep_keeps h) in H.
  destruct (markClientFailedAndSleep E h w2) as [[u|] w3]; simpl in H;
    [apply IH|]; exact H.
Qed.

End Preserved.

(** ** The invariant of the connection state *)

Lemma connInv_shared (E : Env) (w w' : World) :
  cli w' = cli w -> heap w' = heap w -> dials w' = dials w ->
  closed w' = closed w -> connInv E w -> connInv E w'.
Proof.
  intros Hc Hh Hd Hcl [I1 I2 I3 I4 I5 I6 I7 I8].
  constructor; rewrite ?Hc, ?Hh, ?Hd, ?Hcl; assumption.
Qed.

Lemma connInv_current (E : Env) (w : World) :
  connInv E w -> exists p, heap w !! cli w = Some p.
Proof.
  intros I. apply lookup_lt_is_Some. apply (inv_cli E w I).
Qed.

Lemma lookup_same (l : list pbclient) (h : Handle) (p q : pbclient) :
  l !! h = Some p -> l !! h = Some q -> p = q.
Proof.
  intros Hp Hq. pose proof (eq_trans (eq_sym Hp) Hq) as Heq.
  injection Heq as ->. reflexivity.
Qed.

Lemma connInv_initial (E : Env) (address : string) :
  connInv E (mkWorld address 0 [nilClient] 0 [] 0 0 []).
Proof.
  constructor; simpl.
  - lia.
  - reflexivity.
  - intros h p Hp Hg. apply list_lookup_singleton_Some in Hp.
    destruct Hp as [_ <-]. discriminate.
  - intros h p Hp Hne. apply list_lookup_singleton_Some in Hp.
    destruct Hp as [-> _]. contradiction.
  - constructor.
  - intros c [].
  - intros n Hn. lia.
  - intros _ n Hn. lia.
Qed.

Lemma connect_connInv (E : Env) (w : World) :
  connInv E w -> connInv E (snd (connect E w)).
Proof.
  intros I. destruct (connInv_current E w I) as [p Hp].
  rewrite (connect_run E w p Hp).
  destruct (isConnGood p) eqn:Hg; [exact I|].
  destruct I as [I1 I2 I3 I4 I5 I6 I7 I8].
  destruct (dialOk E (dials w)) eqn:Hd; simpl.
  - constructor; simpl.
    + rewrite length_app. simpl. lia.
    + apply lookup_app_l_Some. exact I2.
    + intros h q Hq Hgq. apply lookup_snoc_Some in Hq.
      destruct Hq as [[_ Hq]|[-> <-]].
      * destruct (I3 h q Hq Hgq) as [-> _].
        rewrite (lookup_same _ _ _ _ Hq Hp) in Hgq. congruence.
      * split; [reflexivity|]. exists (dials w). split; [reflexivity|].
        intros Hin. apply I6 in Hin. lia.
    + intros h q Hq Hne. apply lookup_snoc_Some in Hq.
      destruct Hq as [[_ Hq]|[-> <-]].
      * destruct (I4 h q Hq Hne) as (c & Hc & Hs & Hlt & Hok & Hcl).
        exists c. repeat split; auto.
      * exists (dials w). simpl. repeat split; auto. intros; discriminate.
    + exact I5.
    + intros c Hin. apply I6 in Hin. lia.
    + intros m Hm Hok. destruct (Nat.eq_dec m (dials w)) as [->|Hne].
      * exists (length (heap w)), (mkPbclient true (Some (dials w)) (Some (dials w))).
        split; [|reflexivity]. apply lookup_snoc_Some. right. auto.
      * destruct (I7 m ltac:(lia) Hok) as (h & q & Hq & Hc).
        exists h, q. split; [apply lookup_app_l_Some; exact Hq | exact Hc].
    + intros Hz. lia.
  - constructor; simpl; auto.
    + intros h q Hq Hne.
      destruct (I4 h q Hq Hne) as (c & Hc & Hs & Hlt & Hok & Hcl).
      exists c. repeat split; auto.
    + intros c Hin. apply I6 in Hin. lia.
    + intros m Hm Hok. destruct (Nat.eq_dec m (dials w)) as [->|Hne];
        [congruence|]. apply I7; [lia | exact Hok].
    + intros Hz m Hm. destruct (Nat.eq_dec m (dials w)) as [->|Hne];
        [exact Hd|]. apply I8; [exact Hz | lia].
Qed.

Lemma markClientFailed_connInv (E : Env) (h : Handle) (w : World) :
  connInv E w -> connInv E (snd (markClientFailed h w)).
Proof.
  intros I. destruct (connInv_current E w I) as [p Hp].
  rewrite (markClientFailed_run h w p Hp).
  destruct (isConnGood p) eqn:Hg; simpl; [|exact I].
  destruct (Nat.eqb (cli w) h); simpl; [|exact I].
  destruct I as [I1 I2 I3 I4 I5 I6 I7 I8].
  destruct (I3 _ _ Hp Hg) as (_ & c & Hc & Hnotin).
  assert (Hnz : cli w <> 0).
  { intros Hz. rewrite Hz in Hp. rewrite (lookup_same _ _ _ _ Hp I2) in Hg.
    discriminate. }
  destruct (I4 _ _ Hp Hnz) as (c' & Hc' & Hs & Hlt & Hok & _).
  assert (c' = c) by congruence. subst c'.
  rewrite Hc. simpl. constructor; simpl.
  - rewrite length_insert. exact I1.
  - rewrite list_lookup_insert_ne by exact Hnz. exact I2.
  - intros h0 q Hq Hgq. apply list_lookup_insert_Some in Hq.
    destruct Hq as [(_ & <- & _)|(Hne & Hq)]; [discriminate|].
    destruct (I3 h0 q Hq Hgq) as [Heq _]. congruence.
  - intros h0 q Hq Hne0. apply list_lookup_insert_Some in Hq.
    destruct Hq as [(_ & <- & _)|(Hne & Hq)].
    + exists c. simpl. repeat split; auto.
    + destruct (I4 h0 q Hq Hne0) as (c0 & Hc0 & Hs0 & Hlt0 & Hok0 & Hcl0).
      exists c0. repeat split; auto.
  - constructor; assumption.
  - intros c0 [<-|Hin]; [exact Hlt | apply I6; exact Hin].
  - intros m Hm Hok'. destruct (I7 m Hm Hok') as (h0 & q & Hq & Hcq).
    destruct (Nat.eq_dec (cli w) h0) as [<-|Hne].
    + exists (cli w), (mkPbclient false (Some c) (dbcli p)).
      split; [rewrite list_lookup_insert_eq by exact I1; reflexivity|].
      rewrite (lookup_same _ _ _ _ Hq Hp) in Hcq. simpl. congruence.
    + exists h0, q. split; [|exact Hcq].
      rewrite list_lookup_insert_ne by exact Hne. exact Hq.
  - exact I8.
Qed.

Lemma failedHandle_evolves (w w' : World) (h : Handle) :
  evolves w w' -> failedHandle w h -> failedHandle w' h.
Proof.
  intros (_ & _ & Hh) (p & Hp & Hg).
  destruct (Hh h p Hp) as (p' & Hp' & _ & _ & Hbad).
  exists p'. auto.
Qed.

Lemma connect_spec (E : Env) (w : World) :
  connInv E w ->
  exists w' p',
    connect E w = (Returned (cli w'), w') /\
    heap w' !! cli w' = Some p' /\
    (isConnGood p' = true \/
     (dials w' = S (dials w) /\ dialOk E (dials w) = false)).
Proof.
  intros I. destruct (connInv_current E w I) as [p Hp].
  rewrite (connect_run E w p Hp).
  destruct (isConnGood p) eqn:Hg; [exists w, p; auto|].
  destruct (dialOk E (dials w)) eqn:Hd.
  - exists (set_cli (length (heap w))
              (set_heap (heap w ++ [mkPbclient true (Some (dials w)) (Some (dials w))])
                 (set_dials (S (dials w)) w))),
           (mkPbclient true (Some (dials w)) (Some (dials w))).
    split; [reflexivity|]. simpl. split; [|left; reflexivity].
    apply lookup_snoc_Some. right. auto.
  - exists (set_dials (S (dials w)) w), p.
    split; [reflexivity|]. simpl. split; [exact Hp|].
    right. auto.
Qed.

Lemma markClientFailed_spec (E : Env) (h : Handle) (w : World) :
  connInv E w ->
  exists b w',
    markClientFailed h w = (Returned b, w') /\
    (h < length (heap w) -> failedHandle w' h).
Proof.
  intros I. destruct (connInv_current E w I) as [p Hp].
  rewrite (markClientFailed_run h w p Hp).
  assert (Hother : cli w <> h -> h < length (heap w) -> failedHandle w h).
  { intros Hne Hlt. apply lookup_lt_is_Some in Hlt. destruct Hlt as [q Hq].
    exists q. split; [exact Hq|].
    destruct (isConnGood q) eqn:Hgq; [|reflexivity].
    destruct (inv_healthy E w I h q Hq Hgq) as [Heq _]. congruence. }
  destruct (isConnGood p) eqn:Hg; simpl.
  - destruct (Nat.eqb_spec (cli w) h) as [Heq|Hne]; simpl.
    + destruct (inv_healthy E w I _ _ Hp Hg) as (_ & c & Hc & _).
      rewrite Hc. eexists _, _. split; [reflexivity|].
      intros Hlt. exists (mkPbclient false (Some c) (dbcli p)). simpl.
      split; [|reflexivity]. subst h.
      apply list_lookup_insert_eq. exact Hlt.
    + eexists _, _. split; [reflexivity|]. apply Hother. exact Hne.
  - eexists _, _. split; [reflexivity|]. intros Hlt.
    destruct (Nat.eq_dec (cli w) h) as [<-|Hne]; [exists p; auto|].
    apply Hother; assumption.
Qed.

(** ** The invariant along a request *)

Section Along.
Context {K : DBStrings}.
Variable E : Env.

Lemma evolves_then_connect (w0 w : World) :
  evolves w0 w -> evolves w0 (snd (connect E w)).
Proof.
  intros H. eapply evolves_trans; [exact H | apply connect_evolves].
Qed.

Lemma evolves_then_mark (w0 : World) (h : Handle) (w : World) :
  evolves w0 w -> evolves w0 (snd (markClientFailed h w)).
Proof.
  intros H. eapply evolves_trans; [exact H | apply markClientFailed_evolves].
Qed.

Lemma evolves_then_own (w0 w w' : World) :
  cli w' = cli w -> heap w' = heap w -> dials w' = dials w ->
  closed w' = closed w -> evolves w0 w -> evolves w0 w'.
Proof.
  intros _ Hh Hd Hc H. eapply evolves_trans; [exact H|].
  apply evolves_shared; assumption.
Qed.

Lemma yield_connInv (w : World) : connInv E w -> connInv E (snd (yield E w)).
Proof.
  apply (yield_keeps E (connInv E) (connect_connInv E)
           (markClientFailed_connInv E) (connInv_shared E)).
Qed.

Lemma yield_evolves (w : World) : evolves w (snd (yield E w)).
Proof.
  apply (yield_keeps E (evolves w) (evolves_then_connect w)
           (evolves_then_mark w) (evolves_then_own w)).
  apply evolves_refl.
Qed.

Lemma getCli_connInv (w : World) : connInv E w -> connInv E (snd (getCli E w)).
Proof.
  apply (getCli_keeps E (connInv E) (connect_connInv E)
           (markClientFailed_connInv E) (connInv_shared E)).
Qed.

Lemma getCli_evolves (w : World) : evolves w (snd (getCli E w)).
Proof.
  apply (getCli_keeps E (evolves w) (evolves_then_connect w)
           (evolves_then_mark w) (evolves_then_own w)).
  apply evolves_refl.
Qed.

Lemma markClientFailedAndSleep_connInv (h : Handle) (w : World) :
  connInv E w -> connInv E (snd (markClientFailedAndSleep E h w)).
Proof.
  apply (markClientFailedAndSleep_keeps E (connInv E) (connect_connInv E)
           (markClientFailed_connInv E) (connInv_shared E)).
Qed.

Lemma markClientFailedAndSleep_evolves (h : Handle) (w : World) :
  evolves w (snd (markClientFailedAndSleep E h w)).
Proof.
  apply (markClientFailedAndSleep_keeps E (evolves w) (evolves_then_connect w)
           (evolves_then_mark w) (evolves_then_own w)).
  apply evolves_refl.
Qed.

Lemma retry_connInv {Rep Res : Type} (rpc : nat -> Rep + error)
  (post : Rep + error -> Res + error) (zero : Res) (v : ErrVar) (n : nat)
  (err : option error) (w : World) :
  connInv E w -> connInv E (snd (retry E (rpcAttempt rpc post) zero v n err w)).
Proof.
  apply (retry_keeps E (connInv E) (connect_connInv E)
           (markClientFailed_connInv E) (connInv_shared E)).
Qed.

Lemma retry_evolves {Rep Res : Type} (rpc : nat -> Rep + error)
  (post : Rep + error -> Res + error) (zero : Res) (v : ErrVar) (n : nat)
  (err : option error) (w : World) :
  evolves w (snd (retry E (rpcAttempt rpc post) zero v n err w)).
Proof.
  apply (retry_keeps E (evolves w) (evolves_then_connect w)
           (evolves_then_mark w) (evolves_then_own w)).
  apply evolves_refl.
Qed.

Lemma runOthers_returns (os : list Other) :
  forall w, connInv E w -> fst (runOthers E os w) = Returned tt.
Proof.
  induction os as [|o os IH]; intros w I; simpl; [reflexivity|].
  unfold bind.
  pose proof (runOther_keeps E (connInv E) (connect_connInv E)
                (markClientFailed_connInv E) o w I) as I1.
  assert (Hr : fst (runOther E o w) = Returned tt).
  { destruct o as [|h]; unfold runOther, bind.
    - destruct (connect_spec E w I) as (w' & p' & -> & _). reflexivity.
    - destruct (markClientFailed_spec E h w I) as (b & w' & -> & _). reflexivity. }
  destruct (runOther E o w) as [o1 w1]; simpl in *; subst o1.
  apply IH. exact I1.
Qed.

Lemma yield_returns (w : World) : connInv E w -> fst (yield E w) = Returned tt.
Proof.
  intros I. unfold yield. run_m. apply runOthers_returns.
  eapply connInv_shared; [| | | |exact I]; reflexivity.
Qed.

(** [yield] as one step: it returns, keeps the invariant and only moves
    the shared state on. *)
Lemma yield_step (w : World) :
  connInv E w ->
  exists w1, yield E w = (Returned tt, w1) /\ connInv E w1 /\ evolves w w1.
Proof.
  intros I. pose proof (yield_returns w I) as Hr.
  pose proof (yield_connInv w I) as I1. pose proof (yield_evolves w) as He.
  destruct (yield E w) as [o w1]; simpl in *; subst o. eauto.
Qed.

Lemma getCli_spec (w : World) :
  connInv E w ->
  exists w' p',
    getCli E w = (Returned (cli w'), w') /\
    connInv E w' /\ evolves w w' /\
    heap w' !! cli w' = Some p' /\
    (isConnGood p' = true \/
     exists n, dials w <= n /\ n < dials w' /\ dialOk E n = false).
Proof.
  intros I. pose proof (getCli_connInv w I) as If.
  pose proof (getCli_evolves w) as Ef.
  unfold getCli, bind in *.
  destruct (yield_step w I) as (w1 & Hy & I1 & E1). rewrite Hy in *.
  run_m. destruct (connInv_current E w1 I1) as [p1 Hp1]. rewrite Hp1 in *.
  simpl in *.
  destruct (isConnGood p1) eqn:Hg1; simpl in *.
  - exists w1, p1. auto 6.
  - destruct (yield_step w1 I1) as (w2 & Hy2 & I2 & E2). rewrite Hy2 in *.
    destruct (connect_spec E w2 I2) as (w' & p' & Hc & Hp' & Hcase).
    rewrite Hc in *. simpl in *.
    exists w', p'. split; [reflexivity|]. split; [exact If|].
    split; [exact Ef|]. split; [exact Hp'|].
    destruct Hcase as [Hg|[Hd Hfail]]; [left; exact Hg|].
    right. exists (dials w2). destruct E1 as (Hd1 & _). destruct E2 as (Hd2 & _).
    split; [lia|]. split; [lia | exact Hfail].
Qed.

Lemma markClientFailedAndSleep_spec (h : Handle) (w : World) :
  connInv E w -> h < length (heap w) ->
  exists w',
    markClientFailedAndSleep E h w = (Returned tt, w') /\
    connInv E w' /\ evolves w w' /\ failedHandle w' h.
Proof.
  intros I Hlt. pose proof (markClientFailedAndSleep_connInv h w I) as If.
  pose proof (markClientFailedAndSleep_evolves h w) as Ef.
  unfold markClientFailedAndSleep, bind in *.
  destruct (yield_step w I) as (w1 & Hy & I1 & E1). rewrite Hy in *.
  destruct (markClientFailed_spec E h w1 I1) as (b & w2 & Hm & Hfailed).
  rewrite Hm in *.
  assert (Hlt1 : h < length (heap w1)).
  { apply lookup_lt_is_Some in Hlt. destruct Hlt as [q Hq].
    destruct E1 as (_ & _ & Hh). destruct (Hh h q Hq) as (q' & Hq' & _).
    eapply lookup_lt_Some; eauto. }
  specialize (Hfailed Hlt1).
  destruct b; run_m.
  - eexists. split; [reflexivity|]. split; [exact If|]. split; [exact Ef|].
    exact Hfailed.
  - eexists. split; [reflexivity|]. split; [exact If|]. split; [exact Ef|].
    exact Hfailed.
Qed.

(** The stub of a handle other than the one [NewControlDBCli] allocated
    is never nil. *)
Lemma rpcAttempt_returns {Rep Res : Type} (rpc : nat -> Rep + error)
  (post : Rep + error -> Res + error) (h : Handle) (w : World) (p : pbclient) :
  connInv E w -> heap w !! h = Some p -> h <> 0 ->
  rpcAttempt rpc post h w =
  (Returned (post (rpc (calls w))),
   set_calls (S (calls w)) (set_trace (trace w ++ [EvRpc h]) w)).
Proof.
  intros I Hp Hne. unfold rpcAttempt, bind. rewrite invoke_run, Hp.
  destruct (inv_conn E w I h p Hp Hne) as (c & _ & Hs & _). rewrite Hs.
  reflexivity.
Qed.

End Along.

(** ** Reachable states *)

Lemma reachable_connInv {K : DBStrings} (E : Env) (w : World) :
  reachable E w -> connInv E w /\ 0 < dials w.
Proof.
  induction 1 as [address|w _ [I Hd]|h w _ [I Hd]|Rep Res rpc post zero v w _ [I Hd]].
  - unfold NewControlDBCli. split.
    + apply connect_connInv, connInv_initial.
    + rewrite (connect_run E (mkWorld address 0 [mkPbclient false None None] 0 [] 0 0 [])
                 (mkPbclient false None None) eq_refl). simpl.
      destruct (dialOk E 0); simpl; lia.
  - split; [apply connect_connInv; exact I|].
    destruct (connect_evolves E w) as (Hle & _). lia.
  - split; [apply markClientFailed_connInv; exact I|].
    destruct (markClientFailed_evolves h w) as (Hle & _). lia.
  - unfold envelope. split; [apply retry_connInv; exact I|].
    destruct (retry_evolves E rpc post zero v maxRetryCount None w) as (Hle & _).
    lia.
Qed.

Lemma rpcHandles_app (l1 l2 : list Event) :
  rpcHandles (l1 ++ l2) = rpcHandles l1 ++ rpcHandles l2.
Proof.
  induction l1 as [|[h|h b|s] l1 IH]; simpl; rewrite ?IH; reflexivity.
Qed.

Lemma attempts_trace_sleep (n : nat) (tr : list Event) :
  attempts_trace n tr ->
  (0 <= sleepSeconds tr <= sleepSecondsBeforeRetry * Z.of_nat n)%Z.
Proof.
  unfold sleepSecondsBeforeRetry. induction 1; simpl; lia.
Qed.

Section RetryFacts.
Context {K : DBStrings}.
Variable E : Env.
Context {Rep Res : Type}.
Variable rpc : nat -> Rep + error.
Variable post : Rep + error -> Res + error.
Variable zero : Res.
Variable v : ErrVar.

Lemma getCli_not_nil (w w1 : World) (p1 : pbclient) (m : nat) :
  connInv E w1 -> heap w1 !! cli w1 = Some p1 ->
  (isConnGood p1 = true \/
   exists n, dials w <= n /\ n < dials w1 /\ dialOk E n = false) ->
  m <= dials w -> dialOk E m = true ->
  cli w1 <> 0.
Proof.
  intros I1 Hp1 Hcase Hm Hok Hz. rewrite Hz in Hp1.
  pose proof (lookup_same _ _ _ _ Hp1 (inv_zero E w1 I1)). subst p1.
  destruct Hcase as [Hh|(n' & Hle & Hlt & _)]; [discriminate|].
  rewrite (inv_first E w1 I1 Hz m) in Hok; [discriminate | lia].
Qed.

Lemma retry_returns (n : nat) :
  forall (err : option error) (w : World) (m : nat),
    connInv E w -> m <= dials w -> dialOk E m = true ->
    exists r, fst (retry E (rpcAttempt rpc post) zero v n err w) = Returned r.
Proof.
  induction n as [|n IH]; intros err w m I Hm Hok; [eexists; reflexivity|].
  rewrite retry_S.
  destruct (getCli_spec E w I) as (w1 & p1 & Hg & I1 & E1 & Hp1 & Hcase).
  rewrite Hg.
  pose proof (getCli_not_nil w w1 p1 m I1 Hp1 Hcase Hm Hok) as Hnz.
  rewrite (rpcAttempt_returns E rpc post (cli w1) w1 p1 I1 Hp1 Hnz).
  destruct (post (rpc (calls w1))) as [res|e]; [eexists; reflexivity|].
  destruct (codes.eqb (grpc.Code e) codes.Unknown); [eexists; reflexivity|].
  set (w2 := set_calls (S (calls w1)) (set_trace (trace w1 ++ [EvRpc (cli w1)]) w1)).
  assert (I2 : connInv E w2)
    by (eapply connInv_shared; [| | | |exact I1]; reflexivity).
  destruct (markClientFailedAndSleep_spec E (cli w1) w2 I2 (inv_cli E w1 I1))
    as (w3 & Hm3 & I3 & E3 & _).
  rewrite Hm3. apply (IH _ w3 m I3); [|exact Hok].
  destruct E1 as (Hd1 & _). destruct E3 as (Hd3 & _). simpl in Hd3. lia.
Qed.

Lemma retry_fresh_handles (up : forall n, dialOk E n = true) (n : nat) :
  forall (err : option error) (w : World) (used : list Handle),
    connInv E w ->
    (forall h, List.In h used -> failedHandle w h) ->
    exists tr,
      trace (snd (retry E (rpcAttempt rpc post) zero v n err w)) = trace w ++ tr /\
      List.NoDup (rpcHandles tr) /\
      forall h, List.In h (rpcHandles tr) -> ~ List.In h used.
Proof.
  induction n as [|n IH]; intros err w used I Hused.
  - exists []. simpl. rewrite app_nil_r.
    split; [reflexivity|]. split; [constructor | intros h []].
  - rewrite retry_S.
    destruct (getCli_spec E w I) as (w1 & p1 & Hg & I1 & E1 & Hp1 & Hcase).
    pose proof (getCli_own E w) as Hown. rewrite Hg in *. simpl in Hown.
    unfold own in Hown. injection Hown as _ Ht1.
    assert (Hh1 : isConnGood p1 = true).
    { destruct Hcase as [Hh|(n' & _ & _ & Hf)]; [exact Hh|].
      rewrite up in Hf. discriminate. }
    assert (Hnz : cli w1 <> 0).
    { intros Hz. rewrite Hz in Hp1.
      rewrite (lookup_same _ _ _ _ Hp1 (inv_zero E w1 I1)) in Hh1. discriminate. }
    assert (Hfresh : ~ List.In (cli w1) used).
    { intros Hin. apply Hused in Hin.
      destruct (failedHandle_evolves _ _ _ E1 Hin) as (q & Hq & Hbad).
      rewrite (lookup_same _ _ _ _ Hq Hp1) in Hbad. congruence. }
    rewrite (rpcAttempt_returns E rpc post (cli w1) w1 p1 I1 Hp1 Hnz).
    assert (Hlast : exists tr,
              trace w1 ++ [EvRpc (cli w1)] = trace w ++ tr /\
              List.NoDup (rpcHandles tr) /\
              forall h, List.In h (rpcHandles tr) -> ~ List.In h used).
    { exists [EvRpc (cli w1)]. rewrite Ht1. split; [reflexivity|]. simpl. split.
      - constructor; [intros [] | constructor].
      - intros h [<-|[]]. exact Hfresh. }
    destruct (post (rpc (calls w1))) as [res|e]; [exact Hlast|].
    destruct (codes.eqb (grpc.Code e) codes.Unknown); [exact Hlast|].
    set (w2 := set_calls (S (calls w1)) (set_trace (trace w1 ++ [EvRpc (cli w1)]) w1)).
    assert (I2 : connInv E w2)
      by (eapply connInv_shared; [| | | |exact I1]; reflexivity).
    destruct (markClientFailedAndSleep_spec E (cli w1) w2 I2 (inv_cli E w1 I1))
      as (w3 & Hm3 & I3 & E3 & Hf3).
    pose proof (markClientFailedAndSleep_run E (cli w1) w2) as [_ Htr3].
    rewrite Hm3 in *. simpl in Htr3.
    assert (Hms : exists ms, trace w3 = trace w2 ++ ms /\ rpcHandles ms = []).
    { destruct Htr3 as [(Hd & _)|[(_ & ->)|(_ & ->)]]; [discriminate| |];
        eexists; split; reflexivity. }
    destruct Hms as (ms & Hms & Hnone).
    destruct (IH (match v with Outer => Some e | Shadowing => err end) w3
                 (cli w1 :: used) I3) as (tr & Htr & Hnd & Hnot).
    { intros h [<-|Hin]; [exact Hf3|].
      apply (failedHandle_evolves w2 w3); [exact E3|].
      apply (failedHandle_evolves w1 w2);
        [apply evolves_shared; reflexivity|].
      apply (failedHandle_evolves w w1); [exact E1|]. apply Hused. exact Hin. }
    exists (EvRpc (cli w1) :: ms ++ tr). split; [|split].
    + rewrite Htr, Hms. unfold w2. simpl. rewrite Ht1.
      rewrite <- !app_assoc. reflexivity.
    + simpl. rewrite rpcHandles_app, Hnone. simpl. constructor; [|exact Hnd].
      intros Hin. apply (Hnot _ Hin). left. reflexivity.
    + simpl. rewrite rpcHandles_app, Hnone. simpl.
      intros h [<-|Hin]; [exact Hfresh|].
      intros Hu. apply (Hnot _ Hin). right. exact Hu.
Qed.

Lemma retry_gives_up (n : nat) :
  forall (err : option error) (w w' : World) (r : Res * option error),
    retry E (rpcAttempt rpc post) zero v n err w = (Returned r, w') ->
    transportFailures rpc post (calls w) n ->
    exists hbs, length hbs = n /\
      trace w' = trace w ++ flat_map failedRound hbs.
Proof.
  induction n as [|n IH]; intros err w w' r H Hf.
  - simpl in H. injection H as _ <-. exists []. simpl.
    rewrite app_nil_r. auto.
  - rewrite retry_S in H.
    pose proof (getCli_own E w) as Hg. unfold own in Hg.
    destruct (getCli E w) as [[h|] w1]; [|discriminate].
    simpl in Hg. injection Hg as Hc1 Ht1.
    destruct (rpcAttempt_run rpc post h w1) as [(Ho & _)|(Ho & Hc2 & Ht2)];
      destruct (rpcAttempt rpc post h w1) as [o w2]; simpl in *; subst o;
      [discriminate|].
    rewrite Hc1 in *.
    destruct (transportFailures_unshift rpc post _ _ Hf) as ((e & He & Hte) & Hrest).
    rewrite He in H. apply codes_eqb_transport in Hte. rewrite Hte in H.
    pose proof (markClientFailedAndSleep_run E h w2) as [Hc3 Htr3].
    destruct (markClientFailedAndSleep E h w2) as [[u|] w3]; [|discriminate].
    simpl in Hc3, Htr3.
    destruct (IH _ w3 w' r H) as (hbs & Hlen & Htr).
    { rewrite Hc3, Hc2. exact Hrest. }
    destruct Htr3 as [(Hd & _)|[(_ & Ht3)|(_ & Ht3)]]; [discriminate| |].
    + exists ((h, false) :: hbs). split; [simpl; lia|].
      rewrite Htr, Ht3, Ht2, Ht1. simpl. unfold failedRound at 1. simpl.
      rewrite <- !app_assoc. reflexivity.
    + exists ((h, true) :: hbs). split; [simpl; lia|].
      rewrite Htr, Ht3, Ht2, Ht1. simpl. unfold failedRound at 1. simpl.
      rewrite <- !app_assoc. reflexivity.
Qed.

End RetryFacts.

Lemma reachable_worldConnected :
  @reachable sampleStrings envUp worldConnected.
Proof.
  apply (@reach_new sampleStrings envUp "db:27030").
Qed.

Lemma reachable_worldFailed : @reachable sampleStrings envUp worldFailed.
Proof.
  apply (@reach_mark sampleStrings envUp 1 worldConnected).
  exact reachable_worldConnected.
Qed.

Lemma reachable_worldStale : @reachable sampleStrings envUp worldStale.
Proof.
  apply (@reach_mark sampleStrings envUp 2).
  apply (@reach_connect sampleStrings envUp).
  exact reachable_worldFailed.
Qed.

(** ** Healthy handles and open connections *)

(** X1: in every reachable state a handle whose healthy flag is set is
    the client's current handle; it carries a connection and the stub
    built over that connection, and the connection has not been closed. *)
Theorem healthy_handle_is_current {K : DBStrings} (E : Env) (w : World)
  (h : Handle) (p : pbclient) :
  reachable E w -> heap w !! h = Some p -> isConnGood p = true ->
  h = cli w /\
  exists c, conn p = Some c /\ dbcli p = Some c /\ ~ List.In c (closed w).
Proof.
  intros Hr Hp Hg. destruct (reachable_connInv E w Hr) as [I _].
  destruct (inv_healthy E w I h p Hp Hg) as (Hcur & c & Hc & Hnot).
  split; [exact Hcur|]. exists c. split; [exact Hc|]. split; [|exact Hnot].
  assert (Hnz : h <> 0).
  { intros ->. rewrite (lookup_same _ _ _ _ Hp (inv_zero E w I)) in Hg.
    discriminate. }
  destruct (inv_conn E w I h p Hp Hnz) as (c' & Hc' & Hs & _). congruence.
Qed.

(** After the first connection was marked failed and a second one
    dialed, the healthy handle 2 is the current one and its connection 1
    is open. *)
Lemma healthy_handle_is_current_witness :
  2 = cli (snd (connect envUp worldFailed)) /\
  exists c, Some 1 = Some c /\ Some 1 = Some c /\
            ~ List.In c (closed (snd (connect envUp worldFailed))).
Proof.
  exact (@healthy_handle_is_current sampleStrings envUp
           (snd (connect envUp worldFailed)) 2
           (mkPbclient true (Some 1) (Some 1))
           (@reach_connect sampleStrings envUp worldFailed reachable_worldFailed)
           eq_refl eq_refl).
Defined.

(** X2: no connection is closed twice: in every reachable state the
    connections [Close] was called on are pairwise distinct. *)
Theorem no_connection_closed_twice {K : DBStrings} (E : Env) (w : World) :
  reachable E w -> List.NoDup (closed w).
Proof.
  intros Hr. destruct (reachable_connInv E w Hr) as [I _].
  apply (inv_closed E w I).
Qed.

Lemma no_connection_closed_twice_witness : List.NoDup (closed worldStale).
Proof.
  exact (@no_connection_closed_twice sampleStrings envUp worldStale
           reachable_worldStale).
Defined.

(** X3: no connection leaks: in every reachable state each connection a
    dial has opened either has been closed, or is the connection of the
    current, healthy handle; never both. *)
Theorem every_connection_is_closed_or_current {K : DBStrings} (E : Env)
  (w : World) (n : ConnId) :
  reachable E w -> n < dials w -> dialOk E n = true ->
  (List.In n (closed w) /\
   ~ exists p, heap w !! cli w = Some p /\ isConnGood p = true /\ conn p = Some n) \/
  (~ List.In n (closed w) /\
   exists p, heap w !! cli w = Some p /\ isConnGood p = true /\ conn p = Some n).
Proof.
  intros Hr Hn Hok. destruct (reachable_connInv E w Hr) as [I _].
  destruct (inv_dialed E w I n Hn Hok) as (h & q & Hq & Hc).
  assert (Hnz : h <> 0).
  { intros ->. rewrite (lookup_same _ _ _ _ Hq (inv_zero E w I)) in Hc.
    discriminate. }
  destruct (isConnGood q) eqn:Hg.
  - right. destruct (inv_healthy E w I h q Hq Hg) as (-> & c & Hc' & Hnot).
    assert (c = n) by congruence. subst c.
    split; [exact Hnot|]. exists q. auto.
  - left. destruct (inv_conn E w I h q Hq Hnz) as (c & Hc' & _ & _ & _ & Hcl).
    assert (c = n) by congruence. subst c.
    split; [apply Hcl; exact Hg|].
    intros (p & Hp & Hgp & Hcp).
    destruct (inv_healthy E w I _ p Hp Hgp) as (_ & c & Hc2 & Hnot).
    assert (c = n) by congruence. subst c. apply Hnot, Hcl. exact Hg.
Qed.

(** Two connections were dialed and both handles marked failed: the
    first connection is closed. *)
Lemma every_connection_is_closed_or_current_witness :
  (List.In 0 (closed worldStale) /\
   ~ exists p, heap worldStale !! cli worldStale = Some p /\
               isConnGood p = true /\ conn p = Some 0) \/
  (~ List.In 0 (closed worldStale) /\
   exists p, heap worldStale !! cli worldStale = Some p /\
             isConnGood p = true /\ conn p = Some 0).
Proof.
  apply (@every_connection_is_closed_or_current sampleStrings envUp worldStale 0
           reachable_worldStale); [vm_compute; lia | reflexivity].
Defined.

(** X4: in a reachable state neither critical section panics: [connect]
    returns the handle that is current when it ends, and
    [markClientFailed] returns for every handle it is given (the current
    handle is allocated, and a healthy handle has a connection to
    close). *)
Theorem critical_sections_never_panic {K : DBStrings} (E : Env) (w : World) :
  reachable E w ->
  fst (connect E w) = Returned (cli (snd (connect E w))) /\
  forall h, exists b, fst (markClientFailed h w) = Returned b.
Proof.
  intros Hr. destruct (reachable_connInv E w Hr) as [I _]. split.
  - destruct (connect_spec E w I) as (w' & p' & -> & _). reflexivity.
  - intros h. destruct (markClientFailed_spec E h w I) as (b & w' & -> & _).
    exists b. reflexivity.
Qed.

Lemma critical_sections_never_panic_witness :
  fst (connect envUp worldStale) =
    Returned (cli (snd (connect envUp worldStale))) /\
  exists b, fst (markClientFailed 1 worldStale) = Returned b.
Proof.
  destruct (@critical_sections_never_panic sampleStrings envUp worldStale
              reachable_worldStale) as [Hc Hm].
  split; [exact Hc | apply Hm].
Defined.

(** X5: from a reachable state [getCli] never panics and returns the
    handle that is current when it ends; that handle is healthy unless a
    dial made during the call failed. *)
Theorem getCli_returns_current_handle {K : DBStrings} (E : Env) (w : World) :
  reachable E w ->
  exists w' p,
    getCli E w = (Returned (cli w'), w') /\
    heap w' !! cli w' = Some p /\
    (isConnGood p = true \/
     exists n, dials w <= n /\ n < dials w' /\ dialOk E n = false).
Proof.
  intros Hr. destruct (reachable_connInv E w Hr) as [I _].
  destruct (getCli_spec E w I) as (w' & p & Hg & _ & _ & Hp & Hcase).
  exists w', p. auto.
Qed.

(** The server went away after the first dial: [getCli] dials again,
    fails, and hands out the handle marked failed. *)
Lemma getCli_returns_current_handle_witness :
  exists w' p,
    getCli envOnce worldFailed = (Returned (cli w'), w') /\
    heap w' !! cli w' = Some p /\
    (isConnGood p = true \/
     exists n, dials worldFailed <= n /\ n < dials w' /\ dialOk envOnce n = false).
Proof.
  apply (@getCli_returns_current_handle sampleStrings envOnce worldFailed).
  apply (@reach_mark sampleStrings envOnce 1).
  apply (@reach_new sampleStrings envOnce "db:27030").
Defined.

(** X6: a call of an RPC method made in a reachable state returns (it
    does not panic on a nil stub) as soon as one dial succeeds, be it an
    earlier dial or the next one, which the call makes itself when no
    other request does. *)
Theorem call_returns_once_a_dial_succeeds {K : DBStrings} (E : Env)
  {Rep Res : Type} (rpc : nat -> Rep + error)
  (post : Rep + error -> Res + error) (zero : Res) (v : ErrVar)
  (w : World) (n : nat) :
  reachable E w -> n <= dials w -> dialOk E n = true ->
  exists r, fst (envelope E (rpcAttempt rpc post) zero v w) = Returned r.
Proof.
  intros Hr Hn Hok. destruct (reachable_connInv E w Hr) as [I _].
  unfold envelope. apply (retry_returns E rpc post zero v _ _ w n I Hn Hok).
Qed.

(** The dial of [NewControlDBCli] failed and the next one succeeds:
    [GetDevice] connects by itself and returns the row. *)
Lemma call_returns_once_a_dial_succeeds_witness :
  exists r,
    fst (@envelope sampleStrings (mkEnv (fun n => negb (Nat.eqb n 0)) (fun _ => [])) _
           (rpcAttempt
              (fun n => rpcGetDevice (scriptedServer (fun _ => None) noStreams) n
                          (Build_DeviceKey "cluster1" "/dev/loop1"))
              (fun r => match r with inl x => inl (Some x) | inr e => inr e end))
           None Shadowing
           (snd (NewControlDBCli (mkEnv (fun n => negb (Nat.eqb n 0)) (fun _ => []))
                   "db:27030"))) = Returned r.
Proof.
  apply (@call_returns_once_a_dial_succeeds sampleStrings
           (mkEnv (fun n => negb (Nat.eqb n 0)) (fun _ => [])) _ _ _ _ _ _ _ 1).
  - apply (@reach_new sampleStrings).
  - vm_compute. lia.
  - reflexivity.
Defined.

(** ** Handles over time *)

(** X7: a call of an RPC method, whatever the other requests do
    meanwhile, leaves every allocated handle allocated with the
    connection and stub it had, and never turns a handle that was marked
    failed healthy again: reconnecting always allocates a new handle. *)
Theorem handles_are_never_revived {K : DBStrings} (E : Env)
  {Rep Res : Type} (rpc : nat -> Rep + error)
  (post : Rep + error -> Res + error) (zero : Res) (v : ErrVar)
  (w : World) (h : Handle) (p : pbclient) :
  heap w !! h = Some p ->
  exists p',
    heap (snd (envelope E (rpcAttempt rpc post) zero v w)) !! h = Some p' /\
    conn p' = conn p /\ dbcli p' = dbcli p /\
    (isConnGood p = false -> isConnGood p' = false).
Proof.
  intros Hp.
  destruct (retry_evolves E rpc post zero v maxRetryCount None w) as (_ & _ & Hh).
  apply (Hh h p Hp).
Qed.

(** The first handle was marked failed; after a [CreateDevice] that
    reconnected three times it is still allocated, failed, and holds
    connection 0. *)
Lemma handles_are_never_revived_witness :
  exists p',
    heap (snd (@envelope sampleStrings envUp _
                 (rpcAttempt (fun n => rpcCreateDevice serverUnavailable n "dev")
                    (fun r => match r with inl _ => inl tt | inr e => inr e end))
                 tt Outer worldFailed)) !! 1 = Some p' /\
    conn p' = Some 0 /\ dbcli p' = Some 0 /\
    (false = false -> isConnGood p' = false).
Proof.
  exact (@handles_are_never_revived sampleStrings envUp _ _
           (fun n => rpcCreateDevice serverUnavailable n "dev")
           (fun r => match r with inl _ => inl tt | inr e => inr e end)
           tt Outer worldFailed 1 (mkPbclient false (Some 0) (Some 0)) eq_refl).
Defined.

(** X8: when every dial succeeds, the attempts of one call run on
    pairwise different handles, none of them the nil handle of
    [NewControlDBCli]: a retry never goes back to a handle that failed
    before, whatever the other requests do. *)
Theorem retries_use_fresh_handles {K : DBStrings} (E : Env)
  {Rep Res : Type} (rpc : nat -> Rep + error)
  (post : Rep + error -> Res + error) (zero : Res) (v : ErrVar) (w : World) :
  (forall n, dialOk E n = true) -> reachable E w ->
  exists tr,
    trace (snd (envelope E (rpcAttempt rpc post) zero v w)) = trace w ++ tr /\
    List.NoDup (rpcHandles tr) /\ ~ List.In 0 (rpcHandles tr).
Proof.
  intros up Hr. destruct (reachable_connInv E w Hr) as [I _].
  destruct (retry_fresh_handles E rpc post zero v up maxRetryCount None w [0] I)
    as (tr & Htr & Hnd & Hnot).
  - intros h [<-|[]]. exists nilClient. split; [apply (inv_zero E w I) | reflexivity].
  - exists tr. split; [exact Htr|]. split; [exact Hnd|].
    intros Hin. apply (Hnot 0 Hin). left. reflexivity.
Qed.

Lemma retries_use_fresh_handles_witness :
  exists tr,
    trace (snd (@envelope sampleStrings envUp _
                  (rpcAttempt (fun n => rpcCreateDevice serverUnavailable n "dev")
                     (fun r => match r with inl _ => inl tt | inr e => inr e end))
                  tt Outer worldConnected)) = trace worldConnected ++ tr /\
    List.NoDup (rpcHandles tr) /\ ~ List.In 0 (rpcHandles tr).
Proof.
  apply (@retries_use_fresh_handles sampleStrings envUp).
  - intros n. reflexivity.
  - exact reachable_worldConnected.
Defined.

(** ** The cost of giving up *)

(** X9: one call of an RPC method sleeps at most
    [maxRetryCount * sleepSecondsBeforeRetry] = 6 seconds in all. *)
Theorem call_sleeps_at_most_six_seconds {K : DBStrings} (E : Env)
  {Rep Res : Type} (rpc : nat -> Rep + error)
  (post : Rep + error -> Res + error) (zero : Res) (v : ErrVar) (w : World) :
  exists tr,
    trace (snd (envelope E (rpcAttempt rpc post) zero v w)) = trace w ++ tr /\
    (0 <= sleepSeconds tr <= 6)%Z.
Proof.
  destruct (retry_trace E rpc post zero v maxRetryCount None w) as (tr & Htr & Hshape).
  exists tr. split; [exact Htr|].
  apply attempts_trace_sleep in Hshape.
  unfold sleepSecondsBeforeRetry, maxRetryCount in Hshape. lia.
Qed.

(** X10: a call that returns after three transport failures has gone
    through three full rounds: after each attempt, the last one included,
    it reported the handle failed, and slept 2 seconds each time no other
    request had reconnected; only then does it return. *)
Theorem three_failed_rounds_before_giving_up {K : DBStrings} (E : Env)
  {Rep Res : Type} (rpc : nat -> Rep + error)
  (post : Rep + error -> Res + error) (zero : Res) (v : ErrVar)
  (w w' : World) (r : Res * option error) :
  envelope E (rpcAttempt rpc post) zero v w = (Returned r, w') ->
  transportFailures rpc post (calls w) maxRetryCount ->
  exists hbs, length hbs = 3 /\
    trace w' = trace w ++ flat_map failedRound hbs.
Proof.
  intros Hrun Hf. unfold envelope in Hrun.
  apply (retry_gives_up E rpc post zero v maxRetryCount None w w' r Hrun Hf).
Qed.

(** An unreachable server: [CreateDevice] sleeps three times, the third
    time just before it returns the error. *)
Lemma three_failed_rounds_before_giving_up_witness :
  exists hbs, length hbs = 3 /\
    trace (snd (@envelope sampleStrings envUp _
                  (rpcAttempt (fun n => rpcCreateDevice serverUnavailable n "dev")
                     (fun r => match r with inl _ => inl tt | inr e => inr e end))
                  tt Outer worldConnected)) =
    trace worldConnected ++ flat_map failedRound hbs.
Proof.
  apply (@three_failed_rounds_before_giving_up sampleStrings envUp _ _
           (fun n => rpcCreateDevice serverUnavailable n "dev")
           (fun r => match r with inl _ => inl tt | inr e => inr e end)
           tt Outer worldConnected _ (tt, Some unavailable)).
  - vm_compute. reflexivity.
  - intros j Hj. exists unavailable. split; [reflexivity | discriminate].
Defined.

(** ** What the caller gets *)

(** X11: the methods whose loop body declares its own [err] ([GetDevice],
    [GetService], [GetServiceAttr], [GetVolume], [GetConfigFile], and
    [DeleteService], [DeleteServiceAttr], [DeleteVolume],
    [DeleteConfigFile]) report success when all three attempts fail at the
    transport level: on a client for which a dial has succeeded, or whose
    next dial succeeds, they return a nil error next to the nil value,
    after three stub invocations. *)
Theorem shadowing_methods_lose_the_transport_error {K : DBStrings} (E : Env)
  {Rep Res : Type} (rpc : nat -> Rep + error)
  (post : Rep + error -> Res + error) (zero : Res) (w : World) (n : nat) :
  reachable E w -> n <= dials w -> dialOk E n = true ->
  transportFailures rpc post (calls w) maxRetryCount ->
  fst (envelope E (rpcAttempt rpc post) zero Shadowing w) = Returned (zero, None) /\
  calls (snd (envelope E (rpcAttempt rpc post) zero Shadowing w)) = calls w + 3.
Proof.
  intros Hr Hn Hok Hf.
  destruct (reachable_connInv E w Hr) as [I _].
  destruct (retry_returns E rpc post zero Shadowing maxRetryCount None w n I Hn Hok)
    as [r Hret].
  fold (envelope E (rpcAttempt rpc post) zero Shadowing) in Hret.
  destruct (envelope_ends E rpc post zero Shadowing w)
    as [Hp|[(k & r' & Hk & _ & Hk' & _)|[(k & e0 & Hk & _ & Hk' & Ha & _)
       |(_ & err' & Hres & Hc & ->)]]].
  - rewrite Hp in Hret. discriminate.
  - pose proof (transportFailures_not_success rpc post _ _ _ _ Hf Hk').
    unfold maxRetryCount in *. lia.
  - pose proof (transportFailures_then rpc post _ _ _ _ Hf Hk' Ha).
    unfold maxRetryCount in *. lia.
  - split; assumption.
Qed.

(** An unreachable server: [GetDevice] returns (nil, nil). *)
Lemma shadowing_methods_lose_the_transport_error_witness :
  fst (@GetDevice sampleStrings sampleProtocol envUp serverUnavailable
         "cluster1" "/dev/loop1" worldConnected) = Returned (None, None) /\
  calls (snd (@GetDevice sampleStrings sampleProtocol envUp serverUnavailable
         "cluster1" "/dev/loop1" worldConnected)) = 3.
Proof.
  apply (@shadowing_methods_lose_the_transport_error sampleStrings envUp _ _
           (fun n => rpcGetDevice serverUnavailable n
                       (Build_DeviceKey "cluster1" "/dev/loop1"))
           (fun r => match r with
                     | inl x => inl (Some (@GenDbDevice sampleProtocol x))
                     | inr e => inr e
                     end)
           None worldConnected 0).
  - exact reachable_worldConnected.
  - vm_compute. lia.
  - reflexivity.
  - intros j Hj. exists unavailable. split; [reflexivity | discriminate].
Defined.

(** X12: retries are invisible to the caller of a method that succeeds
    in the end: on a client that has connected once, when the first [k]
    attempts ([k] < 3) fail at the transport level and the next one
    succeeds, the call returns that attempt's result with a nil error,
    after exactly [k + 1] stub invocations. *)
Theorem first_success_is_returned {K : DBStrings} (E : Env)
  {Rep Res : Type} (rpc : nat -> Rep + error)
  (post : Rep + error -> Res + error) (zero : Res) (v : ErrVar)
  (w : World) (n k : nat) (res : Res) :
  reachable E w -> n <= dials w -> dialOk E n = true ->
  k < maxRetryCount ->
  transportFailures rpc post (calls w) k ->
  post (rpc (calls w + k)) = inl res ->
  fst (envelope E (rpcAttempt rpc post) zero v w) = Returned (res, None) /\
  calls (snd (envelope E (rpcAttempt rpc post) zero v w)) = calls w + k + 1.
Proof.
  intros Hr Hn Hok Hk Hf Hres.
  destruct (reachable_connInv E w Hr) as [I _].
  destruct (retry_returns E rpc post zero v maxRetryCount None w n I Hn Hok)
    as [r Hret].
  fold (envelope E (rpcAttempt rpc post) zero v) in Hret.
  destruct (envelope_ends E rpc post zero v w)
    as [Hp|[(k' & r' & Hk' & Hf' & Hr' & Hrun & Hc)|[(k' & e' & Hk' & Hf' & He' & Ha' & _)
       |(Hf' & _)]]].
  - rewrite Hp in Hret. discriminate.
  - pose proof (transportFailures_not_success rpc post _ _ _ _ Hf Hr').
    pose proof (transportFailures_not_success rpc post _ _ _ _ Hf' Hres).
    assert (k' = k) by lia. subst k'.
    rewrite Hres in Hr'. injection Hr' as <-. split; assumption.
  - pose proof (transportFailures_not_success rpc post _ _ _ _ Hf' Hres).
    pose proof (transportFailures_then rpc post _ _ _ _ Hf He' Ha').
    assert (k' = k) by lia. subst k'. rewrite Hres in He'. discriminate.
  - pose proof (transportFailures_not_success rpc post _ _ _ _ Hf' Hres).
    unfold maxRetryCount in Hk. lia.
Qed.

(** Two transport failures, then the row: [GetDevice] returns the row
    and a nil error after three invocations. *)
Lemma first_success_is_returned_witness :
  fst (@GetDevice sampleStrings sampleProtocol envUp
         (scriptedServer (fun n => if Nat.ltb n 2 then Some unavailable else None)
            noStreams)
         "cluster1" "/dev/loop1" worldConnected) = Returned (Some "row", None) /\
  calls (snd (@GetDevice sampleStrings sampleProtocol envUp
         (scriptedServer (fun n => if Nat.ltb n 2 then Some unavailable else None)
            noStreams)
         "cluster1" "/dev/loop1" worldConnected)) = 3.
Proof.
  apply (@first_success_is_returned sampleStrings envUp _ _
           (fun n => rpcGetDevice
                       (scriptedServer
                          (fun n => if Nat.ltb n 2 then Some unavailable else None)
                          noStreams) n
                       (Build_DeviceKey "cluster1" "/dev/loop1"))
           (fun r => match r with
                     | inl x => inl (Some (@GenDbDevice sampleProtocol x))
                     | inr e => inr e
                     end)
           None Shadowing worldConnected 0 2 (Some "row")).
  - exact reachable_worldConnected.
  - vm_compute. lia.
  - reflexivity.
  - unfold maxRetryCount. lia.
  - intros j Hj. exists unavailable.
    destruct j as [|[|j]]; [split; [reflexivity | discriminate]
                           |split; [reflexivity | discriminate] | lia].
  - reflexivity.
Defined.

(** ** Racing requests *)

(** X13: two requests that race to reconnect dial once: after a
    [connect] whose dial, if it made one, succeeded, a second [connect]
    returns the same handle and changes nothing; it makes no dial. *)
Theorem second_connect_is_a_noop {K : DBStrings} (E : Env) (w : World) :
  reachable E w -> dialOk E (dials w) = true ->
  connect E (snd (connect E w)) = (fst (connect E w), snd (connect E w)).
Proof.
  intros Hr Hok. destruct (reachable_connInv E w Hr) as [I _].
  destruct (connInv_current E w I) as [p Hp].
  rewrite (connect_run E w p Hp).
  destruct (isConnGood p) eqn:Hg; simpl.
  - rewrite (connect_run E w p Hp), Hg. reflexivity.
  - rewrite Hok. simpl.
    rewrite (connect_run E _ (mkPbclient true (Some (dials w)) (Some (dials w)))).
    + reflexivity.
    + simpl. apply lookup_snoc_Some. right. auto.
Qed.

Lemma second_connect_is_a_noop_witness :
  connect envUp (snd (connect envUp worldFailed)) =
  (fst (connect envUp worldFailed), snd (connect envUp worldFailed)).
Proof.
  exact (@second_connect_is_a_noop sampleStrings envUp worldFailed
           reachable_worldFailed eq_refl).
Defined.

(** X14: two requests that saw the same handle fail close its connection
    once: in a reachable state a second [markClientFailed] on the same
    handle returns what the first returned and changes nothing. *)
Theorem second_report_is_a_noop {K : DBStrings} (E : Env) (h : Handle)
  (w : World) :
  reachable E w ->
  markClientFailed h (snd (markClientFailed h w)) =
  (fst (markClientFailed h w), snd (markClientFailed h w)).
Proof.
  intros Hr. destruct (reachable_connInv E w Hr) as [I _].
  destruct (connInv_current E w I) as [p Hp].
  rewrite (markClientFailed_run h w p Hp).
  destruct (isConnGood p) eqn:Hg; simpl.
  - destruct (Nat.eqb (cli w) h) eqn:Heq; simpl.
    + destruct (inv_healthy E w I _ _ Hp Hg) as (_ & c & Hc & _).
      rewrite Hc. simpl.
      rewrite (markClientFailed_run h _ (mkPbclient false (Some c) (dbcli p))).
      * reflexivity.
      * simpl. apply list_lookup_insert_eq. apply (inv_cli E w I).
    + rewrite (markClientFailed_run h w p Hp), Hg. simpl. rewrite Heq.
      reflexivity.
  - rewrite (markClientFailed_run h w p Hp), Hg. reflexivity.
Qed.

Lemma second_report_is_a_noop_witness :
  markClientFailed 1 (snd (markClientFailed 1 worldConnected)) =
  (fst (markClientFailed 1 worldConnected), snd (markClientFailed 1 worldConnected)).
Proof.
  exact (@second_report_is_a_noop sampleStrings envUp 1 worldConnected
           reachable_worldConnected).
Defined.

(** X15: a late failure report does not hurt the new connection: once
    the current handle [h] was reported failed and a [connect] has dialed
    with success, another [markClientFailed h] reports a change and
    leaves the state as it is, the new handle healthy. *)
Theorem late_report_spares_the_new_connection {K : DBStrings} (E : Env)
  (h : Handle) (w : World) :
  reachable E w -> cli w = h -> dialOk E (dials w) = true ->
  markClientFailed h (snd (connect E (snd (markClientFailed h w)))) =
  (Returned true, snd (connect E (snd (markClientFailed h w)))) /\
  exists p,
    heap (snd (connect E (snd (markClientFailed h w))))
      !! cli (snd (connect E (snd (markClientFailed h w)))) = Some p /\
    isConnGood p = true.
Proof.
  intros Hr Hcur Hok. destruct (reachable_connInv E w Hr) as [I _].
  assert (I1 : connInv E (snd (markClientFailed h w)))
    by (apply markClientFailed_connInv; exact I).
  destruct (markClientFailed_spec E h w I) as (b & w1 & Hm & Hfailed).
  rewrite Hm in *. simpl in *.
  assert (Hd1 : dials w1 = dials w /\ cli w1 = h).
  { destruct (connInv_current E w I) as [p Hp].
    rewrite (markClientFailed_run h w p Hp) in Hm.
    destruct (isConnGood p); simpl in Hm;
      [|injection Hm as _ <-; auto].
    destruct (Nat.eqb (cli w) h); simpl in Hm; [|injection Hm as _ <-; auto].
    destruct (conn p); injection Hm as _ <-; auto. }
  destruct Hd1 as [Hd1 Hc1].
  destruct Hfailed as (q & Hq & Hbad).
  { rewrite <- Hcur. apply (inv_cli E w I). }
  rewrite <- Hc1 in Hq.
  rewrite (connect_run E w1 q Hq), Hbad, Hd1, Hok. simpl.
  split.
  - erewrite markClientFailed_run;
      [|simpl; apply lookup_snoc_Some; right; split; reflexivity].
    simpl. pose proof (inv_cli E w1 I1) as Hlt.
    destruct (Nat.eqb_spec (length (heap w1)) h) as [Heq|Hne]; [lia|].
    reflexivity.
  - eexists. split; [apply lookup_snoc_Some; right; split; reflexivity|].
    reflexivity.
Qed.

Lemma late_report_spares_the_new_connection_witness :
  markClientFailed 1 (snd (connect envUp (snd (markClientFailed 1 worldConnected)))) =
  (Returned true, snd (connect envUp (snd (markClientFailed 1 worldConnected)))) /\
  exists p,
    heap (snd (connect envUp (snd (markClientFailed 1 worldConnected))))
      !! cli (snd (connect envUp (snd (markClientFailed 1 worldConnected)))) = Some p /\
    isConnGood p = true.
Proof.
  exact (@late_report_spares_the_new_connection sampleStrings envUp 1 worldConnected
           reachable_worldConnected eq_refl eq_refl).
Defined.

(** X16: in a reachable state the client still points at the nil handle
    of [NewControlDBCli] exactly when every dial made so far has failed. *)
Theorem on_nil_handle_iff_every_dial_failed {K : DBStrings} (E : Env)
  (w : World) :
  reachable E w ->
  (cli w = 0 <-> forall n, n < dials w -> dialOk E n = false).
Proof.
  intros Hr. destruct (reachable_connInv E w Hr) as [I _]. split.
  - apply (inv_first E w I).
  - intros Hall. destruct (Nat.eq_dec (cli w) 0) as [Hz|Hnz]; [exact Hz|].
    destruct (connInv_current E w I) as [p Hp].
    destruct (inv_conn E w I _ p Hp Hnz) as (c & _ & _ & Hlt & Hok & _).
    rewrite (Hall c Hlt) in Hok. discriminate.
Qed.

Lemma on_nil_handle_iff_every_dial_failed_witness :
  cli (snd (NewControlDBCli envDown "db:27030")) = 0.
Proof.
  apply (proj2 (@on_nil_handle_iff_every_dial_failed sampleStrings envDown _
                  (@reach_new sampleStrings envDown "db:27030"))).
  intros n _. reflexivity.
Defined.

(** ** A request on its own *)

Section Quiet.
Context {K : DBStrings}.
Variable E : Env.
Hypothesis quiet : forall t, others E t = [].

Lemma yield_quiet (w : World) :
  yield E w = (Returned tt, set_ticks (S (ticks w)) w).
Proof.
  unfold yield. run_m. rewrite quiet. reflexivity.
Qed.

Lemma connect_dials_once (w : World) :
  dials w <= dials (snd (connect E w)) <= S (dials w) /\
  closed (snd (connect E w)) = closed w.
Proof.
  destruct (heap w !! cli w) as [p|] eqn:Hp.
  - rewrite (connect_run E w p Hp).
    destruct (isConnGood p); simpl; [split; [lia | reflexivity]|].
    destruct (dialOk E (dials w)); simpl; (split; [lia | reflexivity]).
  - unfold connect. run_m. rewrite Hp. simpl. split; [lia | reflexivity].
Qed.

Lemma markClientFailed_closes_once (h : Handle) (w : World) :
  dials (snd (markClientFailed h w)) = dials w /\
  length (closed w) <= length (closed (snd (markClientFailed h w)))
    <= S (length (closed w)).
Proof.
  destruct (heap w !! cli w) as [p|] eqn:Hp.
  - rewrite (markClientFailed_run h w p Hp).
    destruct (isConnGood p); simpl; [|split; [reflexivity | lia]].
    destruct (Nat.eqb (cli w) h); simpl; [|split; [reflexivity | lia]].
    destruct (conn p); simpl; (split; [reflexivity | lia]).
  - unfold markClientFailed. run_m. rewrite Hp. simpl. split; [reflexivity | lia].
Qed.

Lemma getCli_quiet (w : World) :
  dials w <= dials (snd (getCli E w)) <= S (dials w) /\
  closed (snd (getCli E w)) = closed w.
Proof.
  unfold getCli, bind. rewrite yield_quiet. run_m.
  destruct (heap w !! cli w) as [p|]; simpl; [|split; [lia | reflexivity]].
  destruct (isConnGood p); simpl; [split; [lia | reflexivity]|].
  rewrite yield_quiet.
  apply (connect_dials_once (set_ticks (S (S (ticks w))) w)).
Qed.

Lemma markClientFailedAndSleep_quiet (h : Handle) (w : World) :
  dials (snd (markClientFailedAndSleep E h w)) = dials w /\
  length (closed w) <= length (closed (snd (markClientFailedAndSleep E h w)))
    <= S (length (closed w)).
Proof.
  unfold markClientFailedAndSleep, bind. rewrite yield_quiet.
  pose proof (markClientFailed_closes_once h (set_ticks (S (ticks w)) w)) as H.
  destruct (markClientFailed h (set_ticks (S (ticks w)) w)) as [[b|] w2];
    simpl in *; [|exact H].
  destruct b; run_m; exact H.
Qed.

Lemma rpcAttempt_shared {Rep Res : Type} (rpc : nat -> Rep + error)
  (post : Rep + error -> Res + error) (h : Handle) (w : World) :
  dials (snd (rpcAttempt rpc post h w)) = dials w /\
  closed (snd (rpcAttempt rpc post h w)) = closed w.
Proof.
  unfold rpcAttempt, bind. rewrite invoke_run.
  destruct (heap w !! h) as [p|]; simpl; [|auto].
  destruct (dbcli p); simpl; auto.
Qed.

Lemma retry_quiet {Rep Res : Type} (rpc : nat -> Rep + error)
  (post : Rep + error -> Res + error) (zero : Res) (v : ErrVar) (n : nat) :
  forall (err : option error) (w : World),
    dials (snd (retry E (rpcAttempt rpc post) zero v n err w)) <= dials w + n /\
    length (closed (snd (retry E (rpcAttempt rpc post) zero v n err w)))
      <= length (closed w) + n.
Proof.
  induction n as [|n IH]; intros err w; [simpl; lia|].
  rewrite retry_S.
  pose proof (getCli_quiet w) as [Hd1 Hc1].
  destruct (getCli E w) as [[h|] w1]; simpl in Hd1, Hc1;
    [|simpl; rewrite Hc1; lia].
  pose proof (rpcAttempt_shared rpc post h w1) as [Hd2 Hc2].
  destruct (rpcAttempt rpc post h w1) as [[[res|e]|] w2]; simpl in Hd2, Hc2;
    try (simpl; rewrite Hd2, Hc2, Hc1; lia).
  destruct (codes.eqb (grpc.Code e) codes.Unknown);
    [simpl; rewrite Hd2, Hc2, Hc1; lia|].
  pose proof (markClientFailedAndSleep_quiet h w2) as [Hd3 Hc3].
  destruct (markClientFailedAndSleep E h w2) as [[u|] w3]; simpl in Hd3, Hc3.
  - destruct (IH (match v with Outer => Some e | Shadowing => err end) w3)
      as [Hd4 Hc4].
    rewrite Hd3, Hd2 in Hd4. rewrite Hc2, Hc1 in Hc3. lia.
  - simpl. rewrite Hd3, Hd2. rewrite Hc2, Hc1 in Hc3. lia.
Qed.

End Quiet.

(** X17: the happy path touches nothing: when no other request runs, the
    current handle is healthy with a stub, and the first attempt does not
    fail at the transport level, the call invokes the stub once on that
    handle and returns its result (or the converted application error);
    it makes no dial, closes nothing, reports no failure and does not
    sleep. *)
Theorem healthy_call_touches_nothing {K : DBStrings} (E : Env)
  {Rep Res : Type} (rpc : nat -> Rep + error)
  (post : Rep + error -> Res + error) (zero : Res) (v : ErrVar)
  (w : World) (p : pbclient) (c : ConnId) :
  others E (ticks w) = [] ->
  heap w !! cli w = Some p -> isConnGood p = true -> dbcli p = Some c ->
  ~ (exists e, post (rpc (calls w)) = inr e /\ transportError e) ->
  envelope E (rpcAttempt rpc post) zero v w =
  (Returned (match post (rpc (calls w)) with
             | inl res => (res, None)
             | inr e => (zero, Some (checkAndConvertError e))
             end),
   set_calls (S (calls w))
     (set_trace (trace w ++ [EvRpc (cli w)]) (set_ticks (S (ticks w)) w))).
Proof.
  intros Hq Hp Hg Hs Hnt. unfold envelope, maxRetryCount. rewrite retry_S.
  assert (Hget : getCli E w = (Returned (cli w), set_ticks (S (ticks w)) w)).
  { unfold getCli, bind, yield. run_m. rewrite Hq. simpl. rewrite Hp. simpl.
    rewrite Hg. reflexivity. }
  rewrite Hget. unfold rpcAttempt, bind. rewrite invoke_run. simpl.
  rewrite Hp, Hs. simpl.
  destruct (post (rpc (calls w))) as [res|e] eqn:Hpost; [reflexivity|].
  destruct (codes.eqb (grpc.Code e) codes.Unknown) eqn:Hc; [reflexivity|].
  exfalso. apply Hnt. exists e. split; [reflexivity|].
  apply codes_eqb_transport. exact Hc.
Qed.

(** A connected client and a server that answers: [GetDevice] invokes
    the stub once and leaves the connection state as it was. *)
Lemma healthy_call_touches_nothing_witness :
  @envelope sampleStrings envUp _
    (rpcAttempt
       (fun n => rpcGetDevice (scriptedServer (fun _ => None) noStreams) n
                   (Build_DeviceKey "cluster1" "/dev/loop1"))
       (fun r => match r with inl x => inl (Some x) | inr e => inr e end))
    None Shadowing worldConnected =
  (Returned (Some "row", None),
   mkWorld "db:27030" 1
     [mkPbclient false None None; mkPbclient true (Some 0) (Some 0)]
     1 [] 1 1 [EvRpc 1]).
Proof.
  apply (@healthy_call_touches_nothing sampleStrings envUp _ _
           (fun n => rpcGetDevice (scriptedServer (fun _ => None) noStreams) n
                       (Build_DeviceKey "cluster1" "/dev/loop1"))
           (fun r => match r with inl x => inl (Some x) | inr e => inr e end)
           None Shadowing worldConnected
           (mkPbclient true (Some 0) (Some 0)) 0 eq_refl eq_refl eq_refl eq_refl).
  intros (e & He & _). discriminate.
Defined.

(** X18: when no other request runs, one call of an RPC method dials at
    most three times and closes at most three connections: at most one
    dial and one close per attempt. *)
Theorem call_dials_at_most_three_times {K : DBStrings} (E : Env)
  {Rep Res : Type} (rpc : nat -> Rep + error)
  (post : Rep + error -> Res + error) (zero : Res) (v : ErrVar) (w : World) :
  (forall t, others E t = []) ->
  dials (snd (envelope E (rpcAttempt rpc post) zero v w)) <= dials w + 3 /\
  length (closed (snd (envelope E (rpcAttempt rpc post) zero v w)))
    <= length (closed w) + 3.
Proof.
  intros quiet. unfold envelope.
  apply (retry_quiet E quiet rpc post zero v maxRetryCount None w).
Qed.

Lemma call_dials_at_most_three_times_witness :
  dials (snd (@envelope sampleStrings envUp _
                (rpcAttempt (fun n => rpcCreateDevice serverUnavailable n "dev")
                   (fun r => match r with inl _ => inl tt | inr e => inr e end))
                tt Outer worldConnected)) <= dials worldConnected + 3 /\
  length (closed (snd (@envelope sampleStrings envUp _
                (rpcAttempt (fun n => rpcCreateDevice serverUnavailable n "dev")
                   (fun r => match r with inl _ => inl tt | inr e => inr e end))
                tt Outer worldConnected))) <= length (closed worldConnected) + 3.
Proof.
  apply (@call_dials_at_most_three_times sampleStrings envUp _ _
           (fun n => rpcCreateDevice serverUnavailable n "dev")
           (fun r => match r with inl _ => inl tt | inr e => inr e end)
           tt Outer worldConnected).
  intros t. reflexivity.
Defined.

(** ** While every dial fails *)

Section DialsFailFor.
Context {K : DBStrings}.
Variable E : Env.
Variable w : World.
Variable p : pbclient.
Hypothesis current : heap w !! cli w = Some p.
Hypothesis failed : isConnGood p = false.

Lemma frozen_start : frozenWhileDialsFail E w w.
Proof.
  split; [lia | auto].
Qed.

Lemma frozen_connect (w' : World) :
  frozenWhileDialsFail E w w' -> frozenWhileDialsFail E w (snd (connect E w')).
Proof.
  intros [Hd Hf]. destruct (connect_dials_once E w') as [[Hle Hup] _].
  split; [lia|]. intros Hall.
  destruct Hf as (Hc & Hh & Hcl); [intros n H1 H2; apply Hall; lia|].
  assert (Hp : heap w' !! cli w' = Some p) by (rewrite Hc, Hh; exact current).
  rewrite (connect_run E w' p Hp), failed in *.
  destruct (dialOk E (dials w')) eqn:Hdial; simpl in *.
  - rewrite (Hall (dials w')) in Hdial; [discriminate | lia | lia].
  - auto.
Qed.

Lemma frozen_mark (h : Handle) (w' : World) :
  frozenWhileDialsFail E w w' ->
  frozenWhileDialsFail E w (snd (markClientFailed h w')).
Proof.
  intros [Hd Hf]. destruct (markClientFailed_closes_once h w') as [Heq _].
  split; [lia|]. intros Hall.
  destruct Hf as (Hc & Hh & Hcl); [intros n H1 H2; apply Hall; lia|].
  assert (Hp : heap w' !! cli w' = Some p) by (rewrite Hc, Hh; exact current).
  rewrite (markClientFailed_unhealthy h w' p Hp failed). simpl. auto.
Qed.

Lemma frozen_own (w1 w2 : World) :
  cli w2 = cli w1 -> heap w2 = heap w1 -> dials w2 = dials w1 ->
  closed w2 = closed w1 ->
  frozenWhileDialsFail E w w1 -> frozenWhileDialsFail E w w2.
Proof.
  intros Hc Hh Hd Hcl [Hle Hf]. split; [lia|]. intros Hall.
  rewrite Hc, Hh, Hcl. apply Hf. intros n H1 H2. apply Hall; lia.
Qed.

Lemma getCli_frozen : frozenWhileDialsFail E w (snd (getCli E w)).
Proof.
  apply (getCli_keeps E (frozenWhileDialsFail E w) frozen_connect frozen_mark
           frozen_own).
  exact frozen_start.
Qed.

End DialsFailFor.

(** ** Application errors, list calls and failed dials on the states a
    client reaches *)

Lemma checkAndConvertError_matching {K : DBStrings} (e : error) :
  let d := grpc.ErrorDesc e in
  (d = StrErrDBInternal -> checkAndConvertError e = DbError ErrDBInternal) /\
  (d <> StrErrDBInternal -> d = StrErrDBInvalidRequest ->
   checkAndConvertError e = DbError ErrDBInvalidRequest) /\
  (d <> StrErrDBInternal -> d <> StrErrDBInvalidRequest ->
   d = StrErrDBRecordNotFound ->
   checkAndConvertError e = DbError ErrDBRecordNotFound) /\
  (d <> StrErrDBInternal -> d <> StrErrDBInvalidRequest ->
   d <> StrErrDBRecordNotFound -> d = StrErrDBConditionalCheckFailed ->
   checkAndConvertError e = DbError ErrDBConditionalCheckFailed).
Proof.
  intros d. unfold checkAndConvertError. fold d.
  repeat split.
  - intros ->. rewrite String.eqb_refl. reflexivity.
  - intros H1 ->. apply String.eqb_neq in H1. rewrite H1, String.eqb_refl.
    reflexivity.
  - intros H1 H2 ->. apply String.eqb_neq in H1, H2.
    rewrite H1, H2, String.eqb_refl. reflexivity.
  - intros H1 H2 H3 ->. apply String.eqb_neq in H1, H2, H3.
    rewrite H1, H2, H3, String.eqb_refl. reflexivity.
Qed.

(** C3 (amended): when the first attempt that does not fail at the
    transport level answers an application error (code [Unknown]), the
    call ends there: unless it panics it returns the result of
    [checkAndConvertError] after exactly that many invocations, with no
    further attempt; and it does not panic in a reachable state for which
    a dial has succeeded or the next dial succeeds.  The result is the
    [db] error that goes with the description when the description is one
    of the four strings ([StrErrDBInternal] gives [ErrDBInternal],
    [StrErrDBInvalidRequest] gives [ErrDBInvalidRequest],
    [StrErrDBRecordNotFound] gives [ErrDBRecordNotFound],
    [StrErrDBConditionalCheckFailed] gives [ErrDBConditionalCheckFailed],
    the first case that matches, as in the [switch]), and the error
    itself, unchanged, otherwise. *)
Theorem application_error_returned_without_retry {K : DBStrings}
  (E : Env) {Rep Res : Type} (rpc : nat -> Rep + error)
  (post : Rep + error -> Res + error) (zero : Res) (v : ErrVar) (w : World)
  (k : nat) (e : error) :
  k < maxRetryCount ->
  transportFailures rpc post (calls w) k ->
  post (rpc (calls w + k)) = inr e ->
  applicationError e ->
  let run := envelope E (rpcAttempt rpc post) zero v w in
  let d := grpc.ErrorDesc e in
  (fst run = Panicked \/
   (fst run = Returned (zero, Some (checkAndConvertError e)) /\
    calls (snd run) = calls w + k + 1)) /\
  ((knownDescription d /\ exists x, checkAndConvertError e = DbError x) \/
   (~ knownDescription d /\ checkAndConvertError e = e)) /\
  ((d = StrErrDBInternal -> checkAndConvertError e = DbError ErrDBInternal) /\
   (d <> StrErrDBInternal -> d = StrErrDBInvalidRequest ->
    checkAndConvertError e = DbError ErrDBInvalidRequest) /\
   (d <> StrErrDBInternal -> d <> StrErrDBInvalidRequest ->
    d = StrErrDBRecordNotFound ->
    checkAndConvertError e = DbError ErrDBRecordNotFound) /\
   (d <> StrErrDBInternal -> d <> StrErrDBInvalidRequest ->
    d <> StrErrDBRecordNotFound -> d = StrErrDBConditionalCheckFailed ->
    checkAndConvertError e = DbError ErrDBConditionalCheckFailed)) /\
  (forall n, reachable E w -> n <= dials w -> dialOk E n = true ->
     fst run = Returned (zero, Some (checkAndConvertError e)) /\
     calls (snd run) = calls w + k + 1).
Proof.
  intros Hk Hf He Ha run d.
  assert (Hrun : fst run = Panicked \/
                 (fst run = Returned (zero, Some (checkAndConvertError e)) /\
                  calls (snd run) = calls w + k + 1)).
  { destruct (envelope_ends E rpc post zero v w)
      as [Hp|[(k' & r & Hk' & Hf' & Hr' & _)|[(k' & e' & Hk' & Hf' & He' & Ha' & Hr & Hc)
         |(Hf' & _)]]].
    - left. exact Hp.
    - pose proof (transportFailures_not_success rpc post _ _ _ _ Hf Hr').
      pose proof (transportFailures_then rpc post _ _ _ _ Hf' He Ha).
      assert (k' = k) by lia. subst k'. rewrite He in Hr'. discriminate.
    - pose proof (transportFailures_then rpc post _ _ _ _ Hf He' Ha').
      pose proof (transportFailures_then rpc post _ _ _ _ Hf' He Ha).
      assert (k' = k) by lia. subst k'. rewrite He in He'. injection He' as <-.
      right. split; assumption.
    - pose proof (transportFailures_then rpc post _ _ _ _ Hf' He Ha).
      unfold maxRetryCount in Hk. lia. }
  split; [exact Hrun|]. split; [apply checkAndConvertError_cases|].
  split; [apply checkAndConvertError_matching|].
  intros n Hr Hn Hok. destruct (reachable_connInv E w Hr) as [I _].
  destruct (retry_returns E rpc post zero v maxRetryCount None w n I Hn Hok)
    as [r Hret].
  destruct Hrun as [Hp|Hgood]; [|exact Hgood].
  unfold run, envelope in Hp. rewrite Hp in Hret. discriminate.
Qed.

(** [GetService] on a missing record: one invocation, and the caller gets
    [ErrDBRecordNotFound], the kind that goes with the description
    "DB record not found". *)
Lemma application_error_returned_without_retry_witness :
  let run := @envelope sampleStrings envUp _
               (unary (fun n => rpcGetService serverNotFound n
                                  (Build_ServiceKey "cluster1" "service-0"))
                      (fun x => Some x)) None Shadowing worldConnected in
  (fst run = Returned (None, Some (@checkAndConvertError sampleStrings notFound)) /\
   calls (snd run) = 1) /\
  @checkAndConvertError sampleStrings notFound = DbError ErrDBRecordNotFound /\
  fst (@GetService sampleStrings sampleProtocol envUp serverNotFound
         "cluster1" "service-0" worldConnected) =
    Returned (None, Some (DbError ErrDBRecordNotFound)).
Proof.
  destruct (@application_error_returned_without_retry sampleStrings
              envUp _ _
              (fun n => rpcGetService serverNotFound n
                          (Build_ServiceKey "cluster1" "service-0"))
              (fun r => match r with inl x => inl (Some x) | inr e => inr e end)
              None Shadowing worldConnected 0 notFound
              ltac:(unfold maxRetryCount; lia)
              ltac:(intros j Hj; lia)
              eq_refl eq_refl) as (_ & _ & (_ & _ & Hnf & _) & Hreach).
  split; [|split; [|reflexivity]].
  - apply (Hreach 0 reachable_worldConnected); [vm_compute; lia | reflexivity].
  - apply Hnf; [discriminate | discriminate | reflexivity].
Defined.

(** C5: [ListDevices], [ListServices] and [ListVolumes] return, by the
    answers of the server: the whole of the first stream that was read to
    end-of-stream, and nothing of the streams before it, which were
    broken off by transport errors and each followed by one more
    invocation; or an error next to the nil list (the translated
    application error, or the third transport error).  They do not panic
    in a reachable state for which a dial has succeeded or the next dial
    succeeds.  An attempt whose stream breaks before end-of-stream yields
    its error and no list, whatever it had received, and the next attempt
    starts from the empty list. *)
Theorem list_calls_return_whole_stream_or_nothing {K : DBStrings} {P : Protocol}
  (E : Env) (Srv : Server) :
  (forall clusterName,
     wholeStreamOrNothing
       (fun n => rpcListDevices Srv n (Build_ListDeviceRequest clusterName))
       GenDbDevice (ListDevices E Srv clusterName) /\
     returnsOnceConnected E (ListDevices E Srv clusterName)) /\
  (forall clusterName,
     wholeStreamOrNothing
       (fun n => rpcListServices Srv n (Build_ListServiceRequest clusterName))
       GenDbService (ListServices E Srv clusterName) /\
     returnsOnceConnected E (ListServices E Srv clusterName)) /\
  (forall serviceUUID,
     wholeStreamOrNothing
       (fun n => rpcListVolumes Srv n (Build_ListVolumeRequest serviceUUID))
       GenDbVolume (ListVolumes E Srv serviceUUID) /\
     returnsOnceConnected E (ListVolumes E Srv serviceUUID)) /\
  (forall (A B : Type) (conv : A -> B) (received : list A) (e : error),
     (e = EOF -> drain conv (inl (mkStream received e)) = inl (map conv received)) /\
     (e <> EOF -> drain conv (inl (mkStream received e)) = inr e)).
Proof.
  assert (Hret : forall (A B : Type) (rpc : nat -> ServerStream A + error)
                        (conv : A -> B),
             returnsOnceConnected E (envelope E (listOnce rpc conv) [] Outer)).
  { intros A B rpc conv w n Hr Hn Hok.
    destruct (reachable_connInv E w Hr) as [I _].
    apply (retry_returns E rpc (drain conv) [] Outer maxRetryCount None w n I Hn Hok). }
  split; [|split; [|split]].
  - intros clusterName. split; [apply listOnce_wholeStreamOrNothing | apply Hret].
  - intros clusterName. split; [apply listOnce_wholeStreamOrNothing | apply Hret].
  - intros serviceUUID. split; [apply listOnce_wholeStreamOrNothing | apply Hret].
  - intros A B conv received e. split.
    + intros ->. apply drain_whole.
    + apply drain_broken.
Qed.

(** A device stream that breaks after one device yields the error and no
    list; read to its end it yields the device; and [ListDevices] on a
    connected client returns. *)
Lemma list_calls_return_whole_stream_or_nothing_witness :
  drain (fun x : string => x) (inl (mkStream ["/dev/loop1"] unavailable)) =
    inr unavailable /\
  drain (fun x : string => x) (inl (mkStream ["/dev/loop1"] EOF)) =
    inl ["/dev/loop1"] /\
  exists r,
    fst (@ListDevices sampleStrings sampleProtocol envUp serverUnavailable
           "cluster1" worldConnected) = Returned r.
Proof.
  pose proof (@list_calls_return_whole_stream_or_nothing sampleStrings sampleProtocol
                envUp serverUnavailable) as (Hdev & _ & _ & H).
  split; [|split].
  - apply (proj2 (H string string (fun x => x) ["/dev/loop1"] unavailable)).
    discriminate.
  - apply (proj1 (H string string (fun x => x) ["/dev/loop1"] EOF)).
    reflexivity.
  - apply (proj2 (Hdev "cluster1") worldConnected 0 reachable_worldConnected);
      [vm_compute; lia | reflexivity].
Defined.

(** C9 (amended): when the dial inside [connect] fails, [connect] (and
    with it [getCli]) returns the existing handle, whose healthy flag is
    false.  In a reachable state whose current handle is marked failed,
    when the dials made while [getCli] runs all fail, [getCli] has dialed
    and returns that same handle, unchanged.  When no dial has succeeded
    since [NewControlDBCli], the handle is the one [NewControlDBCli]
    allocated, its connection and stub are nil, and every RPC method,
    whatever the other requests do, panics on its first attempt by calling
    a method of the nil stub.  When an earlier dial had succeeded, the
    handle is one marked failed before: it still carries its connection,
    which is closed, and the stub built over it, and the attempt invokes
    the server through that stub. *)
Theorem dial_failure_returns_unusable_handle {K : DBStrings} (E : Env) :
  (forall (w : World) (p : pbclient),
     heap w !! cli w = Some p -> isConnGood p = false ->
     dialOk E (dials w) = false ->
     connect E w = (Returned (cli w), set_dials (S (dials w)) w)) /\
  ((forall n, dialOk E n = false) ->
   forall (address : string),
     let w0 := snd (NewControlDBCli E address) in
     fst (getCli E w0) = Returned 0 /\
     heap (snd (getCli E w0)) !! 0 = Some (mkPbclient false None None) /\
     forall (Rep Res : Type) (rpc : nat -> Rep + error)
            (post : Rep + error -> Res + error) (zero : Res) (v : ErrVar),
       fst (envelope E (rpcAttempt rpc post) zero v w0) = Panicked) /\
  (forall (w : World) (p : pbclient),
     reachable E w ->
     heap w !! cli w = Some p -> isConnGood p = false ->
     (forall n, dials w <= n -> n < dials (snd (getCli E w)) -> dialOk E n = false) ->
     fst (getCli E w) = Returned (cli w) /\
     dials w < dials (snd (getCli E w)) /\
     heap (snd (getCli E w)) !! cli w = Some p /\
     ((forall n, n < dials w -> dialOk E n = false) ->
      cli w = 0 /\ conn p = None /\ dbcli p = None /\
      forall (Rep Res : Type) (rpc : nat -> Rep + error)
             (post : Rep + error -> Res + error) (zero : Res) (v : ErrVar),
        fst (envelope E (rpcAttempt rpc post) zero v w) = Panicked) /\
     ((exists n, n < dials w /\ dialOk E n = true) ->
      exists c, conn p = Some c /\ dbcli p = Some c /\ List.In c (closed w) /\
        forall (Rep Res : Type) (rpc : nat -> Rep + error)
               (post : Rep + error -> Res + error),
          fst (rpcAttempt rpc post (cli w) (snd (getCli E w))) =
          Returned (post (rpc (calls w))))).
Proof.
  split; [|split].
  - intros w p. apply connect_dial_fails.
  - intros down address w0.
    assert (Hw0 : pristine w0).
    { unfold w0. rewrite NewControlDBCli_dial_fails by apply down.
      split; reflexivity. }
    destruct (getCli_pristine E down w0 Hw0) as [Hr [Hc Hh]].
    split; [exact Hr|]. split; [rewrite Hh; reflexivity|].
    intros Rep Res rpc post zero v.
    apply envelope_pristine_panics; assumption.
  - intros w p Hr Hp Hg Hall.
    destruct (reachable_connInv E w Hr) as [I _].
    destruct (getCli_frozen E w p Hp Hg) as [_ Hf].
    destruct (Hf Hall) as (Hc & Hh & Hcl). clear Hf.
    pose proof (getCli_own E w) as Hown. unfold own in Hown.
    destruct (getCli_spec E w I) as (w1 & p1 & Hget & I1 & _ & Hp1 & Hcase).
    rewrite Hget in *. simpl in *. injection Hown as Hcalls _.
    assert (p1 = p). { rewrite Hc, Hh in Hp1. exact (lookup_same _ _ _ _ Hp1 Hp). }
    subst p1.
    split; [rewrite Hc; reflexivity|]. split.
    { destruct Hcase as [Ht|(n & H1 & H2 & _)]; [congruence | lia]. }
    split; [rewrite Hh; exact Hp|]. split.
    + intros Hnone.
      assert (Hz : cli w = 0).
      { destruct (Nat.eq_dec (cli w) 0) as [Hz|Hnz]; [exact Hz|].
        destruct (inv_conn E w I _ p Hp Hnz) as (c & _ & _ & Hlt & Hok & _).
        rewrite (Hnone c Hlt) in Hok. discriminate. }
      assert (Hnil : p = nilClient).
      { rewrite Hz in Hp. exact (lookup_same _ _ _ _ Hp (inv_zero E w I)). }
      subst p. split; [exact Hz|]. split; [reflexivity|]. split; [reflexivity|].
      intros Rep Res rpc post zero v.
      unfold envelope, maxRetryCount. rewrite retry_S, Hget.
      unfold rpcAttempt, bind. rewrite invoke_run, Hp1. reflexivity.
    + intros (n & Hn & Hok).
      assert (Hnz : cli w <> 0).
      { intros Hz. rewrite (inv_first E w I Hz n Hn) in Hok. discriminate. }
      destruct (inv_conn E w I _ p Hp Hnz) as (c & Hconn & Hstub & _ & _ & Hin).
      exists c. split; [exact Hconn|]. split; [exact Hstub|].
      split; [apply Hin; exact Hg|].
      intros Rep Res rpc post. rewrite <- Hc.
      rewrite (rpcAttempt_returns E rpc post (cli w1) w1 p I1 Hp1).
      * simpl. rewrite Hcalls. reflexivity.
      * rewrite Hc. exact Hnz.
Qed.

(** With no server to dial, [getCli] hands out the nil handle and the
    first attempt of [CreateDevice] after [NewControlDBCli] panics.  When
    the server went away after the first dial, [getCli] dials again, in
    vain, and hands out handle 1, marked failed, with its closed
    connection 0 and the stub over it. *)
Lemma dial_failure_returns_unusable_handle_witness :
  (fst (getCli envDown (snd (NewControlDBCli envDown "db:27030"))) = Returned 0 /\
   fst (@envelope sampleStrings envDown _
          (unary (fun n => rpcCreateDevice
                             (scriptedServer (fun _ => None) noStreams) n "dev")
                 (fun _ => tt))
          tt Outer (snd (NewControlDBCli envDown "db:27030"))) = Panicked) /\
  fst (getCli envOnce worldFailed) = Returned (cli worldFailed) /\
  exists c, Some 0 = Some c /\ Some 0 = Some c /\ List.In c (closed worldFailed).
Proof.
  destruct (@dial_failure_returns_unusable_handle sampleStrings envDown)
    as (_ & Hnil & _).
  destruct (Hnil (fun _ => eq_refl) "db:27030") as (H1 & _ & H3).
  split; [split; [exact H1 | apply H3]|].
  destruct (@dial_failure_returns_unusable_handle sampleStrings envOnce)
    as (_ & _ & Hkept).
  destruct (Hkept worldFailed (mkPbclient false (Some 0) (Some 0)))
    as (Hget & _ & _ & _ & Hstub).
  - apply (@reach_mark sampleStrings envOnce 1).
    apply (@reach_new sampleStrings envOnce "db:27030").
  - reflexivity.
  - reflexivity.
  - intros n H1' H2'. vm_compute in H1', H2'.
    assert (n = 1) by lia. subst n. reflexivity.
  - split; [exact Hget|].
    destruct Hstub as (c & Hc1 & Hc2 & Hin & _).
    + exists 0. split; [vm_compute; lia | reflexivity].
    + exists c. auto.
Defined.
(* ================================================================== *)
(** * Properties of member names and of the creation workflow          *)
(* ================================================================== *)

(** ** Printing and reading an ordinal *)

Lemma substring_all (s : string) : String.substring 0 (String.length s) s = s.
Proof.
  induction s as [|c s IH]; simpl; [reflexivity|]. rewrite IH. reflexivity.
Qed.

Lemma afterLast_digits (d : Decimal.uint) :
  utils.afterLast "-" (NilEmpty.string_of_uint d) = None.
Proof.
  induction d; simpl; try reflexivity; rewrite IHd; reflexivity.
Qed.

Lemma afterLast_append (s digits : string) :
  utils.afterLast "-" digits = None ->
  utils.afterLast "-" (s ++ "-" ++ digits) = Some digits.
Proof.
  intros Hd. induction s as [|c s IH].
  - simpl. rewrite Hd.
    replace (String.prefix "" digits) with true by (destruct digits; reflexivity).
    rewrite Nat.sub_0_r, substring_all. reflexivity.
  - simpl. simpl in IH. rewrite IH. reflexivity.
Qed.

Lemma uint_of_char_digit (c : ascii) (o : option Decimal.uint) (d : Decimal.uint) :
  uint_of_char c o = Some d ->
  Ascii.eqb c "-" = false /\ Ascii.eqb c "+" = false.
Proof.
  destruct o as [d0|]; [|discriminate].
  intros H. apply uint_of_char_spec in H.
  repeat (destruct H as [[-> _]|H]; [split; reflexivity|]).
  destruct H as [-> _]. split; reflexivity.
Qed.

Lemma parseInt_digits (s : string) (z : Z) :
  utils.parseDigits s = Some z ->
  (utils.int64Min <= z <= utils.int64Max)%Z ->
  utils.parseInt s = Some z.
Proof.
  unfold utils.parseDigits, utils.parseInt. intros H [Hlo Hhi].
  destruct s as [|c rest]; [discriminate|].
  destruct (NilZero.uint_of_string (String c rest)) as [d|] eqn:Hd; [|discriminate].
  injection H as <-.
  simpl in Hd. destruct (uint_of_char_digit _ _ _ Hd) as [-> ->].
  unfold utils.parseDigits. simpl NilZero.uint_of_string. rewrite Hd.
  apply Z.leb_le in Hlo, Hhi. rewrite Hlo, Hhi. reflexivity.
Qed.

Lemma itoa_pos (p : positive) :
  utils.itoa (Z.pos p) = NilEmpty.string_of_uint (Pos.to_uint p).
Proof.
  unfold utils.itoa. simpl.
  pose proof (DecimalPos.Unsigned.to_uint_nonnil p) as Hn.
  destruct (Pos.to_uint p); try reflexivity. contradiction.
Qed.

Lemma parseDigits_itoa (z : Z) :
  (0 <= z)%Z -> utils.parseDigits (utils.itoa z) = Some z.
Proof.
  intros Hz. destruct z as [|p|p]; [reflexivity| |lia].
  rewrite itoa_pos. unfold utils.parseDigits.
  pose proof (DecimalPos.Unsigned.to_uint_nonnil p) as Hn.
  pose proof (NilZero.usu (Pos.to_uint p) Hn) as Hu.
  unfold NilZero.string_of_uint in Hu.
  destruct (Pos.to_uint p) eqn:Hp; try contradiction;
    rewrite Hu; rewrite <- Hp; unfold Z.of_uint;
    rewrite DecimalPos.Unsigned.of_to; reflexivity.
Qed.

Lemma afterLast_itoa (z : Z) :
  (0 <= z)%Z -> utils.afterLast "-" (utils.itoa z) = None.
Proof.
  intros Hz. destruct z as [|p|p]; [reflexivity| |lia].
  rewrite itoa_pos. apply afterLast_digits.
Qed.

(** The ordinal is printed without padding: a positive ordinal does not
    start with the digit 0. *)
Lemma itoa_no_padding (z : Z) :
  (0 < z)%Z -> exists c rest, utils.itoa z = String c rest /\ c <> "0"%char.
Proof.
  intros Hz. destruct z as [|p|p]; try lia.
  rewrite itoa_pos.
  pose proof (DecimalPos.Unsigned.to_uint_nonnil p) as Hnil.
  pose proof (DecimalPos.Unsigned.to_uint_nonzero p) as Hzero.
  pose proof (DecimalPos.Unsigned.to_of (Pos.to_uint p)) as Hnorm.
  rewrite DecimalPos.Unsigned.of_to in Hnorm. simpl in Hnorm.
  destruct (Pos.to_uint p) as [|u|u|u|u|u|u|u|u|u|u] eqn:Hp;
    try contradiction;
    try (simpl; eexists; eexists; split; [reflexivity | discriminate]).
  exfalso. rewrite DecimalFacts.unorm_D0 in Hnorm.
  destruct u as [|u|u|u|u|u|u|u|u|u|u];
    try (apply Hzero; reflexivity);
    match type of Hnorm with
    | _ = Decimal.unorm ?x =>
        assert (Hx : x <> Decimal.Nil) by discriminate;
        pose proof (DecimalFacts.nb_digits_unorm x Hx) as Hle;
        rewrite <- Hnorm in Hle; simpl in Hle; lia
    end.
Qed.

Lemma index_of_generated_name (s : string) (i : Z) :
  (0 <= i <= utils.int64Max)%Z ->
  utils.GetServiceMemberIndex (utils.GenServiceMemberName s i) = Some i.
Proof.
  intros [Hlo Hhi]. unfold utils.GetServiceMemberIndex, utils.GenServiceMemberName.
  unfold common.NameSeparator.
  rewrite afterLast_append by (apply afterLast_itoa; exact Hlo).
  apply parseInt_digits; [apply parseDigits_itoa; exact Hlo|].
  unfold utils.int64Min. lia.
Qed.

(** ** What the steps of the workflow leave alone *)

Section WorkflowFacts.
Import manageservice.
Local Open Scope op_scope.
Variable PF : Platform.

Lemma keeps_ok {A : Type} (a : A) : keepsMembers (ok a).
Proof. intros c. reflexivity. Qed.

Lemma keeps_fail {A : Type} (e : DBError) : keepsMembers (@fail A e).
Proof. intros c. reflexivity. Qed.

Lemma keeps_read : keepsMembers read.
Proof. intros c. reflexivity. Qed.

Lemma keeps_update (f : Cloud -> Cloud) :
  (forall c, members (f c) = members c) -> keepsMembers (update f).
Proof. intros H c. apply H. Qed.

Lemma keeps_andThen {A B : Type} (m : Op A) (k : A -> Op B) :
  keepsMembers m -> (forall a, keepsMembers (k a)) -> keepsMembers (andThen m k).
Proof.
  intros Hm Hk c. unfold andThen. specialize (Hm c).
  destruct (m c) as [[a|e] c1]; simpl in *; [|exact Hm].
  rewrite Hk. exact Hm.
Qed.

Ltac keeps :=
  repeat first
    [ apply keeps_ok | apply keeps_fail | apply keeps_read
    | apply keeps_update; intros; reflexivity
    | apply keeps_andThen; [|intros]
    | match goal with
      | |- keepsMembers (match ?x with _ => _ end) => destruct x
      | |- keepsMembers (if ?b then _ else _) => destruct b
      end ].

Lemma keeps_createDevice cluster service exclude :
  keepsMembers (createDevice PF cluster service exclude).
Proof. unfold createDevice. keeps. Qed.

Lemma keeps_createServiceVolumes req : keepsMembers (createServiceVolumes PF req).
Proof.
  unfold createServiceVolumes. keeps; apply keeps_createDevice.
Qed.

Lemma keeps_CreateService_row s : keepsMembers (CreateService_row s).
Proof. unfold CreateService_row. keeps. Qed.

Lemma keeps_checkAndCreateService cluster name :
  keepsMembers (checkAndCreateService PF cluster name).
Proof.
  unfold checkAndCreateService. apply keeps_andThen; [apply keeps_read|].
  intros c. destruct (GetService cluster name c) as [[s|[]] c1]; keeps;
    apply keeps_CreateService_row.
Qed.

Lemma keeps_zone domain vpcID region private :
  keepsMembers (GetOrCreateHostedZoneIDByName domain vpcID region private).
Proof. unfold GetOrCreateHostedZoneIDByName. keeps. Qed.

Lemma keeps_CreateServiceAttr a : keepsMembers (CreateServiceAttr a).
Proof. unfold CreateServiceAttr. keeps. Qed.

Lemma keeps_checkAndCreateServiceAttr req uuid domain zone svols :
  keepsMembers (checkAndCreateServiceAttr req uuid domain zone svols).
Proof.
  unfold checkAndCreateServiceAttr. apply keeps_andThen; [apply keeps_read|].
  intros c. destruct (GetServiceAttr uuid c) as [[s|[]] c1]; keeps;
    apply keeps_CreateServiceAttr.
Qed.

Lemma keeps_GetService cluster name : keepsMembers (GetService cluster name).
Proof. unfold GetService. keeps. Qed.

Lemma keeps_GetServiceAttr uuid : keepsMembers (GetServiceAttr uuid).
Proof. unfold GetServiceAttr. keeps. Qed.

Lemma keeps_SetServiceInitialized cluster name :
  keepsMembers (SetServiceInitialized cluster name).
Proof.
  unfold SetServiceInitialized.
  apply keeps_andThen; [apply keeps_GetService | intros s].
  apply keeps_andThen; [apply keeps_GetServiceAttr | intros a].
  keeps.
Qed.

Lemma keeps_createConfigFiles uuid files :
  keepsMembers (createConfigFiles PF uuid files).
Proof.
  induction files as [|f rest IH]; simpl; [apply keeps_ok|].
  apply keeps_andThen; [apply keeps_read | intros c].
  apply keeps_andThen; [keeps | intros _].
  apply keeps_andThen; [exact IH | intros ids]. apply keeps_ok.
Qed.

Lemma keeps_createStaticIPsForZone attr assigned count zone :
  keepsMembers (createStaticIPsForZone PF attr assigned count zone).
Proof.
  induction count as [|n IH]; simpl; [apply keeps_ok|].
  apply keeps_andThen; [apply keeps_read | intros c].
  destruct (lowestIP PF _ _ _); [|apply keeps_fail].
  apply keeps_andThen; [keeps | intros _].
  apply keeps_andThen; [exact IH | intros rest]. apply keeps_ok.
Qed.

Lemma keeps_memberStaticIP attr zone name :
  keepsMembers (memberStaticIP PF attr zone name).
Proof.
  unfold memberStaticIP. apply keeps_andThen; [apply keeps_read | intros c].
  destruct (findMember _ _ c); [apply keeps_ok|].
  destruct (List.find _ (staticIPs c)); [apply keeps_ok|].
  destruct (lowestIP PF _ _ _); [apply keeps_ok|].
  apply keeps_andThen; [apply keeps_createStaticIPsForZone | intros ips].
  keeps.
Qed.

Lemma keeps_CreateVolume uuid member role :
  keepsMembers (CreateVolume uuid member role).
Proof.
  unfold CreateVolume. apply keeps_andThen; [apply keeps_read | intros c].
  destruct (List.find _ (volumes c)) as [[[[u m] r] id]|]; keeps.
Qed.

Lemma keeps_assignStaticIP ip member : keepsMembers (assignStaticIP ip member).
Proof. unfold assignStaticIP. keeps. Qed.

Lemma keeps_UpsertRecord zone name target :
  keepsMembers (UpsertRecord zone name target).
Proof. unfold UpsertRecord. keeps. Qed.

Lemma andThen_inl {A B : Type} (m : Op A) (k : A -> Op B) c b c' :
  andThen m k c = (inl b, c') ->
  exists a c1, m c = (inl a, c1) /\ k a c1 = (inl b, c').
Proof.
  unfold andThen. destruct (m c) as [[a|e] c1]; [eauto | discriminate].
Qed.

Lemma keeps_run {A : Type} (m : Op A) c r c' :
  keepsMembers m -> m c = (r, c') -> members c' = members c.
Proof.
  intros H Hr. specialize (H c). rewrite Hr in H. exact H.
Qed.

End WorkflowFacts.

(** ** The member rows the workflow writes *)

Section MemberFacts.
Import manageservice.
Local Open Scope op_scope.
Variable PF : Platform.

Lemma findMember_Some uuid name c old :
  findMember uuid name c = Some old -> List.In name (memberNames uuid c).
Proof.
  unfold findMember. intros H. apply List.find_some in H. destruct H as [Hin Hp].
  apply andb_true_iff in Hp. destruct Hp as [Hu Hn].
  apply String.eqb_eq in Hn. subst name.
  unfold memberNames, membersOf. apply List.in_map.
  apply List.filter_In. split; assumption.
Qed.

Lemma createServiceMember_members attr zone name ip cfgs c r c' :
  createServiceMember attr zone name ip cfgs c = (inl r, c') ->
  (exists old, findMember (attr_ServiceUUID attr) name c = Some old /\
               members c' = members c) \/
  (findMember (attr_ServiceUUID attr) name c = None /\
   exists m, members c' = members c ++ [m] /\
             mem_ServiceUUID m = attr_ServiceUUID attr /\
             mem_MemberName m = name).
Proof.
  unfold createServiceMember. intros H.
  apply andThen_inl in H. destruct H as (primary & c1 & H1 & H).
  apply andThen_inl in H. destruct H as (journal & c2 & H2 & H).
  apply andThen_inl in H. destruct H as (c3 & c3' & H3 & H).
  injection H3 as <- <-.
  assert (Hm1 : members c1 = members c)
    by (eapply keeps_run; [apply keeps_CreateVolume | exact H1]).
  assert (Hm2 : members c2 = members c1).
  { destruct (String.eqb _ ""); [injection H2 as _ <-; reflexivity|].
    eapply keeps_run; [apply keeps_CreateVolume | exact H2]. }
  assert (Hf : findMember (attr_ServiceUUID attr) name c2 =
               findMember (attr_ServiceUUID attr) name c)
    by (unfold findMember; congruence).
  rewrite Hf in H.
  destruct (findMember (attr_ServiceUUID attr) name c) as [old|] eqn:Hfind.
  - left. exists old. split; [reflexivity|].
    destruct (ServiceMember_eqb old _); [|discriminate].
    injection H as _ <-. congruence.
  - right. split; [reflexivity|].
    apply andThen_inl in H. destruct H as ([] & c4 & H4 & H).
    apply andThen_inl in H. destruct H as ([] & c5 & H5 & H).
    injection H as _ <-. injection H4 as <-.
    exists (mkServiceMember (attr_ServiceUUID attr) name zone ip
              (mkMemberVolumes primary (sv_PrimaryDeviceName (attr_Volumes attr))
                 journal (sv_JournalDeviceName (attr_Volumes attr))) cfgs).
    split; [|split; reflexivity].
    rewrite (keeps_run _ _ _ _ (keeps_assignStaticIP ip name) H5).
    simpl. congruence.
Qed.

Lemma createMember_members req attr i c c' :
  createMember PF req attr i c = (inl tt, c') ->
  let name := utils.GenServiceMemberName (ServiceName (Service_ req)) (Z.of_nat i) in
  (exists old, findMember (attr_ServiceUUID attr) name c = Some old /\
               members c' = members c) \/
  (findMember (attr_ServiceUUID attr) name c = None /\
   exists m, members c' = members c ++ [m] /\
             mem_ServiceUUID m = attr_ServiceUUID attr /\
             mem_MemberName m = name).
Proof.
  intros H name. unfold createMember in H. fold name in H.
  destruct (nth_error (ReplicaConfigs req) i) as [replicaCfg|]; [|discriminate].
  apply andThen_inl in H. destruct H as (cfgs & c1 & H1 & H).
  apply andThen_inl in H. destruct H as (ip & c2 & H2 & H).
  apply andThen_inl in H. destruct H as (m0 & c3 & H3 & H).
  assert (Hm1 : members c1 = members c)
    by (eapply keeps_run; [apply keeps_createConfigFiles | exact H1]).
  assert (Hm2 : members c2 = members c1).
  { destruct (attr_RequireStaticIP attr).
    - eapply keeps_run; [apply keeps_memberStaticIP | exact H2].
    - injection H2 as _ <-. reflexivity. }
  assert (Hm4 : members c' = members c3).
  { destruct (attr_RegisterDNS attr && attr_RequireStaticIP attr).
    - eapply keeps_run; [apply keeps_UpsertRecord | exact H].
    - injection H as <-. reflexivity. }
  apply createServiceMember_members in H3.
  assert (Hf : findMember (attr_ServiceUUID attr) name c2 =
               findMember (attr_ServiceUUID attr) name c)
    by (unfold findMember; congruence).
  rewrite Hf in H3.
  destruct H3 as [(old & Hold & Hm3)|(Hnone & m & Hm3 & Hu & Hn)].
  - left. exists old. split; [exact Hold | congruence].
  - right. split; [exact Hnone|]. exists m. split; [congruence | auto].
Qed.

Lemma member_name_injective (s : string) (i j : nat) :
  (Z.of_nat i <= utils.int64Max)%Z -> (Z.of_nat j <= utils.int64Max)%Z ->
  utils.GenServiceMemberName s (Z.of_nat i) = utils.GenServiceMemberName s (Z.of_nat j) ->
  i = j.
Proof.
  intros Hi Hj Heq.
  pose proof (index_of_generated_name s (Z.of_nat i) ltac:(lia)) as Ri.
  pose proof (index_of_generated_name s (Z.of_nat j) ltac:(lia)) as Rj.
  rewrite Heq in Ri. rewrite Ri in Rj. injection Rj as Hz. lia.
Qed.

Lemma createMembers_names req attr (ords : list nat) :
  forall c c',
    createMembers PF req attr ords c = (inl tt, c') ->
    List.NoDup ords ->
    (forall i, List.In i ords -> (Z.of_nat i <= utils.int64Max)%Z) ->
    (forall i, List.In i ords ->
       ~ List.In (utils.GenServiceMemberName (ServiceName (Service_ req)) (Z.of_nat i))
                 (memberNames (attr_ServiceUUID attr) c)) ->
    memberNames (attr_ServiceUUID attr) c' =
    memberNames (attr_ServiceUUID attr) c ++
    map (fun i => utils.GenServiceMemberName (ServiceName (Service_ req)) (Z.of_nat i))
        ords.
Proof.
  induction ords as [|i rest IH]; intros c c' H Hnd Hb Hfresh.
  - simpl in H. injection H as <-. simpl. rewrite app_nil_r. reflexivity.
  - simpl in H. apply andThen_inl in H. destruct H as ([] & c1 & H1 & H).
    apply createMember_members in H1. simpl in H1.
    destruct H1 as [(old & Hold & _)|(_ & m & Hm & Hu & Hn)].
    + exfalso. apply (Hfresh i (or_introl eq_refl)).
      eapply findMember_Some; exact Hold.
    + assert (Hnames : memberNames (attr_ServiceUUID attr) c1 =
                       memberNames (attr_ServiceUUID attr) c ++
                       [utils.GenServiceMemberName (ServiceName (Service_ req))
                          (Z.of_nat i)]).
      { unfold memberNames, membersOf. rewrite Hm, List.filter_app, List.map_app.
        simpl. rewrite Hu, String.eqb_refl. simpl. rewrite Hn. reflexivity. }
      inversion Hnd as [|? ? Hnotin Hnd']; subst.
      rewrite (IH c1 c' H Hnd').
      * rewrite Hnames, <- app_assoc. reflexivity.
      * intros j Hj. apply Hb. right. exact Hj.
      * intros j Hj Hin. rewrite Hnames in Hin.
        apply List.in_app_or in Hin. destruct Hin as [Hin|[Heq|[]]].
        -- apply (Hfresh j (or_intror Hj)). exact Hin.
        -- apply member_name_injective in Heq;
             [subst; contradiction | apply Hb; left; reflexivity
              | apply Hb; right; exact Hj].
Qed.

Lemma checkAndCreateServiceAttr_uuid req uuid domain zone svols c a c' :
  checkAndCreateServiceAttr req uuid domain zone svols c = (inl a, c') ->
  attr_ServiceUUID a = uuid.
Proof.
  unfold checkAndCreateServiceAttr, andThen. simpl.
  destruct (GetServiceAttr uuid c) as [[a0|e] c1] eqn:Hg.
  - destruct (_ && _); [|discriminate]. intros H. injection H as <- _.
    unfold GetServiceAttr, andThen in Hg. simpl in Hg.
    destruct (List.find _ (attrs c)) as [a1|] eqn:Hf; [|discriminate].
    injection Hg as <- _. apply List.find_some in Hf.
    apply String.eqb_eq. apply Hf.
  - destruct e; try discriminate.
    destruct (CreateServiceAttr _ c) as [[u|e] c2]; [|discriminate].
    intros H. injection H as <- _. reflexivity.
Qed.

(** After a successful [CreateService] for a service that had no member
    row, the member rows of the service are those of the ordinals
    0 .. Replicas-1, in this order. *)
Lemma CreateService_member_names req domain vpcID c uuid c' :
  CreateService PF req domain vpcID c = (inl uuid, c') ->
  (Replicas req <= utils.int64Max)%Z ->
  memberNames uuid c = [] ->
  memberNames uuid c' =
  map (fun i => utils.GenServiceMemberName (ServiceName (Service_ req)) (Z.of_nat i))
      (seq 0 (Z.to_nat (Replicas req))).
Proof.
  unfold CreateService. intros H Hmax Hnone.
  destruct (validRequest req); simpl in H; [|discriminate].
  apply andThen_inl in H. destruct H as (svols & c1 & H1 & H).
  apply andThen_inl in H. destruct H as (uuid' & c2 & H2 & H).
  apply andThen_inl in H. destruct H as (zone & c3 & H3 & H).
  apply andThen_inl in H. destruct H as (attr & c4 & H4 & H).
  apply andThen_inl in H. destruct H as ([] & c5 & H5 & H).
  apply andThen_inl in H. destruct H as ([] & c6 & H6 & H).
  injection H as <- <-.
  pose proof (checkAndCreateServiceAttr_uuid _ _ _ _ _ _ _ _ H4) as Hu.
  pose proof (keeps_run _ _ _ _ (keeps_createServiceVolumes PF req) H1) as M1.
  pose proof (keeps_run _ _ _ _ (keeps_checkAndCreateService PF _ _) H2) as M2.
  pose proof (keeps_run _ _ _ _ (keeps_zone _ _ _ _) H3) as M3.
  pose proof (keeps_run _ _ _ _ (keeps_checkAndCreateServiceAttr _ _ _ _ _) H4) as M4.
  pose proof (keeps_run _ _ _ _ (keeps_SetServiceInitialized _ _) H6) as M6.
  assert (Hstart : memberNames uuid' c4 = []).
  { unfold memberNames, membersOf in *. rewrite M4, M3, M2, M1. exact Hnone. }
  assert (Hend : memberNames uuid' c6 = memberNames uuid' c5).
  { unfold memberNames, membersOf. rewrite M6. reflexivity. }
  rewrite Hend. rewrite <- Hu in *.
  rewrite (createMembers_names req attr _ c4 c5 H5).
  - rewrite Hstart. reflexivity.
  - apply List.seq_NoDup.
  - intros i Hi. apply List.in_seq in Hi. lia.
  - intros i _ Hin. rewrite Hstart in Hin. destruct Hin.
Qed.

End MemberFacts.

(** ** Member names *)

(** C8: for every service name [s] and every ordinal [i] of the int64
    range from 0 on, [GenServiceMemberName s i] is [s], the separator ["-"]
    and the decimal digits of [i] without padding, and
    [GetServiceMemberIndex] reads [i] back from it; and after a successful
    [CreateService] for a service that had no member, the members listed
    for it carry the ordinals 0, 1, ..., Replicas-1, each once and in this
    order. *)
Theorem member_names_round_trip (PF : manageservice.Platform) :
  (forall (s : string) (i : Z),
     (0 <= i <= utils.int64Max)%Z ->
     utils.GenServiceMemberName s i = (s ++ "-" ++ utils.itoa i)%string /\
     utils.parseInt (utils.itoa i) = Some i /\
     (i = 0%Z -> utils.itoa i = "0") /\
     ((0 < i)%Z -> exists c rest, utils.itoa i = String c rest /\ c <> "0"%char) /\
     utils.GetServiceMemberIndex (utils.GenServiceMemberName s i) = Some i) /\
  (forall req domain vpcID c uuid c',
     manageservice.CreateService PF req domain vpcID c = (inl uuid, c') ->
     (manageservice.Replicas req <= utils.int64Max)%Z ->
     manageservice.ListServiceMembers uuid c = (inl [], c) ->
     exists memberItems,
       manageservice.ListServiceMembers uuid c' = (inl memberItems, c') /\
       map manageservice.mem_MemberName memberItems =
         map (fun n => utils.GenServiceMemberName
                         (manageservice.ServiceName (manageservice.Service_ req))
                         (Z.of_nat n))
             (seq 0 (Z.to_nat (manageservice.Replicas req))) /\
       map (fun m => utils.GetServiceMemberIndex (manageservice.mem_MemberName m))
           memberItems =
         map (fun n => Some (Z.of_nat n))
             (seq 0 (Z.to_nat (manageservice.Replicas req)))).
Proof.
  split.
  - intros s i Hi. split; [reflexivity|]. split; [|split; [|split]].
    + apply parseInt_digits; [apply parseDigits_itoa; lia|].
      unfold utils.int64Min. lia.
    + intros ->. reflexivity.
    + apply itoa_no_padding.
    + apply index_of_generated_name. exact Hi.
  - intros req domain vpcID c uuid c' Hrun Hmax Hnone.
    exists (membersOf uuid c'). split; [reflexivity|].
    assert (Hnames : memberNames uuid c' =
              map (fun n => utils.GenServiceMemberName
                              (manageservice.ServiceName (manageservice.Service_ req))
                              (Z.of_nat n))
                  (seq 0 (Z.to_nat (manageservice.Replicas req)))).
    { apply (CreateService_member_names PF req domain vpcID c); try assumption.
      unfold memberNames, membersOf.
      unfold manageservice.ListServiceMembers, manageservice.andThen in Hnone.
      simpl in Hnone. injection Hnone as ->. reflexivity. }
    split; [exact Hnames|].
    unfold memberNames in Hnames.
    rewrite <- (List.map_map manageservice.mem_MemberName utils.GetServiceMemberIndex).
    rewrite Hnames, List.map_map.
    apply List.map_ext_in. intros n Hn. apply List.in_seq in Hn.
    apply index_of_generated_name. lia.
Qed.

(** Ordinal 12 of [service-3], and the three members of a service created
    in an empty cluster. *)
Lemma member_names_round_trip_witness :
  utils.GenServiceMemberName "service-3" 12 = "service-3-12" /\
  utils.GetServiceMemberIndex "service-3-12" = Some 12%Z /\
  exists memberItems,
    map manageservice.mem_MemberName memberItems =
      ["service-0-0"; "service-0-1"; "service-0-2"] /\
    map (fun m => utils.GetServiceMemberIndex (manageservice.mem_MemberName m))
        memberItems = [Some 0%Z; Some 1%Z; Some 2%Z].
Proof.
  pose proof (member_names_round_trip manageservice.loopPlatform) as [Hname Hrange].
  split; [exact (proj1 (Hname "service-3" 12%Z ltac:(unfold utils.int64Max; lia)))|].
  split; [exact (proj2 (proj2 (proj2 (proj2
            (Hname "service-3" 12%Z ltac:(unfold utils.int64Max; lia))))))|].
  assert (Hrun :
    manageservice.CreateService manageservice.loopPlatform
      (manageservice.testRequest "service-0" false false)
      "example.com" "vpc-1" manageservice.emptyCloud =
    (inl "uuid-0",
     snd (manageservice.CreateService manageservice.loopPlatform
            (manageservice.testRequest "service-0" false false)
            "example.com" "vpc-1" manageservice.emptyCloud)))
    by (vm_compute; reflexivity).
  destruct (Hrange _ _ _ _ _ _ Hrun ltac:(unfold utils.int64Max; simpl; lia) eq_refl)
    as (memberItems & _ & Hn & Ho).
  exists memberItems. split; [exact Hn | exact Ho].
Defined.

(** ** The retry scenarios *)

(** C6: in a fresh cluster, with a journal volume and static IPs required,
    and the Device row (/dev/loop1) and the Service row of [service-0]
    created beforehand, [CreateService] returns the UUID of the existing
    Service row; the ServiceAttr has primary device /dev/loop1 and journal
    device /dev/loop2; exactly three members exist, with the static IPs
    10.0.0.4, 10.0.0.5 and 10.0.0.6. *)
Theorem static_ip_retry_scenario :
  fst (manageservice.scenarioDeviceAndService "service-0" true true
         manageservice.emptyCloud) =
  inl ("/dev/loop1",
       manageservice.mkObserved "uuidservice-0" "/dev/loop1" "/dev/loop2"
         [("service-0-0", "10.0.0.4"); ("service-0-1", "10.0.0.5");
          ("service-0-2", "10.0.0.6")]).
Proof.
  vm_compute. reflexivity.
Qed.



(** The four parts of [TestUtil_ServiceCreationRetry] meet every
    expectation the test states, with and without journal volume. *)
Example retry_test_expectations :
  fst (manageservice.TestUtil_ServiceCreationRetry true true manageservice.emptyCloud) =
  inl [manageservice.mkObserved "uuid-0" "/dev/loop1" "/dev/loop2"
         [("service-0-0", "10.0.0.4"); ("service-0-1", "10.0.0.5");
          ("service-0-2", "10.0.0.6")];
       manageservice.mkObserved "uuidservice-1" "/dev/loop3" "/dev/loop4"
         [("service-1-0", "10.0.0.7"); ("service-1-1", "10.0.0.8");
          ("service-1-2", "10.0.0.9")];
       manageservice.mkObserved "uuidservice-2" "/dev/loop5" "/dev/loop6"
         [("service-2-0", "10.0.0.10"); ("service-2-1", "10.0.0.11");
          ("service-2-2", "10.0.0.12")];
       manageservice.mkObserved "uuidservice-3" "/dev/loop7" "/dev/loop8"
         [("service-3-0", "10.0.0.13"); ("service-3-1", "10.0.0.14");
          ("service-3-2", "10.0.0.15")]] /\
  map manageservice.obs_PrimaryDeviceName
    (match fst (manageservice.TestUtil_ServiceCreationRetry true false
                  manageservice.emptyCloud) with
     | inl os => os
     | inr _ => []
     end) = ["/dev/loop1"; "/dev/loop2"; "/dev/loop3"; "/dev/loop4"].
Proof.
  split; vm_compute; reflexivity.
Qed.
